(** * aos_servicemanager: device resource broker, storage lookup,
      reconcile loop, launcher actions and action queue

    Shallow embedding of the Go sources, the properties of the
    specification that were checked against them (C1 to C10) and
    further properties of the code (X1 to X30).

    - [GoStrings]       : [strings.Contains], prefixes and fields of byte
                          strings.
    - [ResourceManager] : package [resourcemanager] (device grants).
    - [HostGroups]      : [discoverHostGroups] of package [resourcemanager].
    - [Database]        : the table [services] of package [database].
    - [TrafficMonitor]  : the table [trafficmonitor] of package [database].
    - [Reconcile]       : [processAmqpMessage] of [servicemanager.go].
    - [Launcher]        : install / uninstall actions, start and stop of
                          services and the users of package [launcher].
    - [ServiceSpec]     : limits, environment and storage mount of the
                          runtime specification of a service.
    - [ActionQueue]     : the per-key action serializer.
    - [Fcrypt]          : [removePkcs7Padding] of package [fcrypt].
    - [Pbconvert]       : the instance identifiers of package [pbconvert]. *)

From stdpp Require Import gmap strings list fin_maps sorting.

Local Open Scope string_scope.
Local Open Scope list_scope.
Local Open Scope Z_scope.

(* ===================================================================== *)
(** * Go strings *)
(* ===================================================================== *)

Module GoStrings.

(** [strings.Contains(s, substr)]: [substr] occurs somewhere within [s];
    the empty string occurs in every string. Go strings are byte
    sequences, as are Rocq strings. *)
Fixpoint Contains (s substr : string) : bool :=
  String.prefix substr s ||
  match s with
  | EmptyString => false
  | String _ s' => Contains s' substr
  end.

Lemma append_nil (q : string) : "" +:+ q = q.
Proof. reflexivity. Qed.

Lemma append_cons (a : Ascii.ascii) (p q : string) :
  String a p +:+ q = String a (p +:+ q).
Proof. reflexivity. Qed.

Lemma append_nil_r (p : string) : p +:+ "" = p.
Proof. induction p as [|a p IH]; [done|]. by rewrite append_cons, IH. Qed.

Lemma prefix_app (p s : string) :
  String.prefix p s = true ↔ ∃ post, s = p +:+ post.
Proof.
  revert s. induction p as [|a p IH]; intros [|b s]; simpl.
  - split; [by exists "" | done].
  - split; [by exists (String b s) | done].
  - split; [done | by intros [post H]].
  - setoid_rewrite append_cons.
    destruct (Ascii.ascii_dec a b) as [->|Hne].
    + rewrite IH. split; intros [post H]; exists post; congruence.
    + split; [done | intros [post H]; congruence].
Qed.

Lemma Contains_spec (s substr : string) :
  Contains s substr = true ↔ ∃ pre post, s = pre +:+ substr +:+ post.
Proof.
  induction s as [|a s IH].
  - change (Contains "" substr) with (String.prefix substr "" || false).
    rewrite orb_false_r, prefix_app. split.
    + intros [post H]. by exists "", post.
    + intros [pre [post H]]. destruct pre; [by exists post|done].
  - change (Contains (String a s) substr)
      with (String.prefix substr (String a s) || Contains s substr).
    rewrite orb_true_iff, IH, prefix_app. split.
    + intros [[post H] | [pre [post H]]].
      * by exists "", post.
      * exists (String a pre), post. by rewrite append_cons, H.
    + intros [pre [post H]]. destruct pre as [|b pre].
      * left. by exists post.
      * right. exists pre, post. rewrite append_cons in H. congruence.
Qed.

Lemma Contains_refl (s : string) : Contains s s = true.
Proof. apply Contains_spec. exists "", "". by rewrite append_nil, append_nil_r. Qed.


(** ** Prefixes and fields *)

Section Fields.
Import Stdlib.Strings.Ascii.

(** [strings.HasPrefix] *)
Definition HasPrefix (s prefix : string) : bool := String.prefix prefix s.

(** [strings.Split(line, sep)[0]] and [strings.SplitN(line, sep, 2)[0]]
    for a separator of one byte: the text before the first separator,
    the whole line when it has none. *)
Fixpoint firstField (sep : Ascii.ascii) (line : string) : string :=
  match line with
  | EmptyString => ""
  | String c line' => if Ascii.eqb c sep then "" else String c (firstField sep line')
  end.

(** The byte [c] occurs in [s]. *)
Fixpoint hasByte (c : Ascii.ascii) (s : string) : bool :=
  match s with
  | EmptyString => false
  | String c' s' => Ascii.eqb c' c || hasByte c s'
  end.

Lemma append_assoc (p q r : string) : (p +:+ q) +:+ r = p +:+ q +:+ r.
Proof. induction p as [|a p IH]; [done|]. by rewrite !append_cons, IH. Qed.

Lemma hasByte_app (c : Ascii.ascii) (s s' : string) :
  hasByte c (s +:+ s') = hasByte c s || hasByte c s'.
Proof.
  induction s as [|a s IH]; [done|].
  rewrite append_cons. simpl. by rewrite IH, orb_assoc.
Qed.

Lemma firstField_app (sep : Ascii.ascii) (name rest : string) :
  hasByte sep name = false →
  firstField sep (name +:+ String sep rest) = name.
Proof.
  induction name as [|c name IH]; intros Hno.
  - rewrite append_nil. simpl. by rewrite Ascii.eqb_refl.
  - simpl in Hno. apply orb_false_iff in Hno as [Hc Hno].
    rewrite append_cons. simpl. by rewrite Hc, (IH Hno).
Qed.

Lemma firstField_no_sep (sep : ascii) (s : string) :
  hasByte sep s = false → firstField sep s = s.
Proof.
  induction s as [|c s IH]; simpl; [done|].
  intros H. apply orb_false_iff in H as [Hc H]. by rewrite Hc, IH.
Qed.

Lemma HasPrefix_app (name rest : string) (c : Ascii.ascii) :
  c ≠ "#"%char → HasPrefix name "#" = false →
  HasPrefix (name +:+ String c rest) "#" = false.
Proof.
  intros Hc. unfold HasPrefix. destruct name as [|a name].
  - intros _. rewrite append_nil. cbn [String.prefix].
    destruct (Ascii.ascii_dec "#" c) as [<-|]; done.
  - rewrite append_cons. cbn [String.prefix]. destruct (Ascii.ascii_dec "#" a); [|done]. by destruct name.
Qed.

Lemma Contains_hasByte (c : ascii) (s : string) :
  Contains s (String c "") = hasByte c s.
Proof.
  induction s as [|a s IH]; [done|].
  change (Contains (String a s) (String c ""))
    with (String.prefix (String c "") (String a s) || Contains s (String c "")).
  rewrite IH. simpl. f_equal.
  destruct (ascii_dec c a) as [->|Hne].
  - rewrite Ascii.eqb_refl. by destruct s.
  - symmetry. apply Ascii.eqb_neq. congruence.
Qed.

End Fields.

End GoStrings.

(* ===================================================================== *)
(** * Package resourcemanager *)
(* ===================================================================== *)

Module ResourceManager.
Import GoStrings.

(** The errors the package creates with [errors.New] and [fmt.Errorf];
    [ErrOS] stands for an error of the operating system or of
    [encoding/json]. [Error] is the message, as Go's [err.Error()]. *)
Inductive error : Type :=
| ErrNotProvided
| ErrNotPresented
| ErrUnavailable (device : string)
| ErrNotGranted (device serviceID : string)
| ErrNotValid
| ErrHostDevice (hostDevice : string)
| ErrGroup (group : string)
| ErrOS (msg : string).

Definition Error (e : error) : string :=
  match e with
  | ErrNotProvided => "resource configuration is not provided"
  | ErrNotPresented => "device is not presented at available resources"
  | ErrUnavailable device => "device: " +:+ device +:+ " is unavailable"
  | ErrNotGranted device serviceID =>
      "device: " +:+ device +:+ " was not provided for " +:+ serviceID +:+ " service"
  | ErrNotValid => "device resources are not valid"
  | ErrHostDevice hostDevice => "device: " +:+ hostDevice +:+ " is not presented on system"
  | ErrGroup group => group +:+ " group is not presented on system"
  | ErrOS msg => msg
  end.

Inductive result (A : Type) : Type :=
| Ok (a : A)
| Err (e : error).
Arguments Ok {A} a.
Arguments Err {A} e.

(** [DeviceResource]: [SharedCount] is a Go [int]; it is only compared,
    never computed with, so it is a [Z] without wrap-around. *)
Record DeviceResource : Type := mkDeviceResource {
  Name : string;
  SharedCount : Z;
  Groups : list string;
  HostDevices : list string
}.

Record AvailableResources : Type := mkAvailableResources {
  Devices : list DeviceResource
}.

(** [ResourceManager]: [deviceWithServices] is the Go
    [map[string][]string] from requested device name to the service IDs
    that hold it. *)
Record ResourceManager : Type := mkResourceManager {
  deviceWithServices : gmap string (list string);
  hostDevices : list string;
  hostGroups : list string;
  resourceConfigFile : string;
  availableResources : AvailableResources;
  areResourcesValid : option error
}.

(** Reading a missing key of a Go map gives the nil slice. *)
Definition listOfServices (rm : ResourceManager) (device : string) : list string :=
  default [] (deviceWithServices rm !! device).

Definition setListOfServices (rm : ResourceManager) (device : string)
    (l : list string) : ResourceManager :=
  {| deviceWithServices := <[device := l]> (deviceWithServices rm);
     hostDevices := hostDevices rm;
     hostGroups := hostGroups rm;
     resourceConfigFile := resourceConfigFile rm;
     availableResources := availableResources rm;
     areResourcesValid := areResourcesValid rm |}.

(** [contains]: some element of [arr] has [str] as a substring. *)
Fixpoint contains (arr : list string) (str : string) : bool :=
  match arr with
  | [] => false
  | a :: arr' => if Contains a str then true else contains arr' str
  end.

(** [removeFromSlice]: drops the first element equal to [str]. *)
Fixpoint removeFromSlice (arr : list string) (str : string) : list string :=
  match arr with
  | [] => []
  | a :: arr' => if String.eqb a str then arr' else a :: removeFromSlice arr' str
  end.

Definition isAvailableResourcesChecked (rm : ResourceManager) : bool :=
  negb (length (Devices (availableResources rm)) =? 0)%nat.

(** [getAvailableDeviceByName]: the first declared device whose [Name]
    occurs within the requested [name]. *)
Fixpoint findDevice (devices : list DeviceResource) (name : string)
    : result DeviceResource :=
  match devices with
  | [] => Err ErrNotPresented
  | deviceResource :: devices' =>
      if Contains name (Name deviceResource) then Ok deviceResource
      else findDevice devices' name
  end.

Definition getAvailableDeviceByName (rm : ResourceManager) (name : string)
    : result DeviceResource :=
  findDevice (Devices (availableResources rm)) name.

Definition RequestDeviceResourceByName (rm : ResourceManager) (name : string)
    : result DeviceResource :=
  getAvailableDeviceByName rm name.

(** [RequestDevice]: the error returned ([None] is Go's [nil]) and the
    manager afterwards. *)
Definition RequestDevice (device serviceID : string) (rm : ResourceManager)
    : option error * ResourceManager :=
  if negb (isAvailableResourcesChecked rm) then (Some ErrNotProvided, rm)
  else match getAvailableDeviceByName rm device with
  | Err err => (Some err, rm)
  | Ok deviceResource =>
      let l := listOfServices rm device in
      if (SharedCount deviceResource =? 0)
         || (Z.of_nat (length l) <? SharedCount deviceResource)
      then
        if contains l serviceID then (None, rm)
        else (None, setListOfServices rm device (l ++ [serviceID]))
      else (Some (ErrUnavailable device), rm)
  end.

Definition ReleaseDevice (device serviceID : string) (rm : ResourceManager)
    : option error * ResourceManager :=
  if negb (isAvailableResourcesChecked rm) then (Some ErrNotProvided, rm)
  else match getAvailableDeviceByName rm device with
  | Err err => (Some err, rm)
  | Ok _ =>
      let l := listOfServices rm device in
      if contains l serviceID
      then (None, setListOfServices rm device (removeFromSlice l serviceID))
      else (Some (ErrNotGranted device serviceID), rm)
  end.

(** [validateDeviceResources]: [deviceErrors] collects, per declared
    device name, the host devices and groups missing on the system.
    [New] never sets a sender, so the alert calls are not reached. *)
Definition appendError (deviceErrors : gmap string (list error))
    (name : string) (e : error) : gmap string (list error) :=
  <[name := default [] (deviceErrors !! name) ++ [e]]> deviceErrors.

Definition checkDevice (rm : ResourceManager)
    (deviceErrors : gmap string (list error)) (d : DeviceResource)
    : gmap string (list error) :=
  let afterDevices :=
    foldl (fun acc hostDevice =>
             if contains (hostDevices rm) hostDevice then acc
             else appendError acc (Name d) (ErrHostDevice hostDevice))
          deviceErrors (HostDevices d) in
  foldl (fun acc group =>
           if contains (hostGroups rm) group then acc
           else appendError acc (Name d) (ErrGroup group))
        afterDevices (Groups d).

Definition validateDeviceResources (rm : ResourceManager) : option error :=
  if negb (isAvailableResourcesChecked rm) then Some ErrNotProvided
  else
    let deviceErrors := foldl (checkDevice rm) ∅ (Devices (availableResources rm)) in
    if negb (size deviceErrors =? 0)%nat then Some ErrNotValid else None.

(** What [New] reads from the node: [devWalk] is what
    [discoverHostDevices] returns, [groupFile] what [discoverHostGroups]
    returns, and [configRead] is the outcome of
    [parseResourceConfiguration]: either [ioutil.ReadFile] fails, or
    [json.Unmarshal] ran and left [decoded] in the result variable
    together with its error, if any. The function returns that variable
    also when [json.Unmarshal] fails, and [json.Unmarshal] goes on
    decoding after a value of the wrong type. *)
Inductive ConfigRead : Type :=
| ReadFailed (e : error)
| Unmarshalled (decoded : AvailableResources) (err : option error).

Record Host : Type := mkHost {
  devWalk : result (list string);
  groupFile : result (list string);
  configRead : ConfigRead
}.

Definition parseResourceConfiguration (c : ConfigRead)
    : AvailableResources * option error :=
  match c with
  | ReadFailed e => (mkAvailableResources [], Some e)
  | Unmarshalled decoded err => (decoded, err)
  end.

(** The file could not be read, or no device was decoded from it. *)
Definition nothingDeclared (c : ConfigRead) : Prop :=
  match c with
  | ReadFailed _ => True
  | Unmarshalled decoded _ => Devices decoded = []
  end.

Definition New (host : Host) (file : string) : result ResourceManager :=
  match devWalk host with
  | Err e => Err e
  | Ok devs =>
      match groupFile host with
      | Err e => Err e
      | Ok groups =>
          let '(resources, _) := parseResourceConfiguration (configRead host) in
          let rm := mkResourceManager ∅ devs groups file resources None in
          Ok (mkResourceManager ∅ devs groups file resources
                (validateDeviceResources rm))
      end
  end.

Definition AreResourcesValid (rm : ResourceManager) : option error :=
  areResourcesValid rm.

(** Sequences of broker operations. *)
Inductive Op : Type :=
| Request (device serviceID : string)
| Release (device serviceID : string).

Definition step (rm : ResourceManager) (op : Op) : ResourceManager :=
  match op with
  | Request device serviceID => snd (RequestDevice device serviceID rm)
  | Release device serviceID => snd (ReleaseDevice device serviceID rm)
  end.

Definition run (ops : list Op) (rm : ResourceManager) : ResourceManager :=
  foldl step rm ops.


(** ** Facts about the helpers *)

Lemma contains_true (arr : list string) (str : string) :
  contains arr str = true ↔ ∃ a, a ∈ arr ∧ Contains a str = true.
Proof.
  induction arr as [|a arr IH]; simpl.
  - split; [done | intros (a & Ha & _); by apply elem_of_nil in Ha].
  - destruct (Contains a str) eqn:E.
    + split; [intros _; exists a; split; [left | done] | done].
    + rewrite IH. split; intros (b & Hb & Hc).
      * exists b. split; [by right | done].
      * apply elem_of_cons in Hb as [-> | Hb]; [congruence | by exists b].
Qed.

Lemma contains_false (arr : list string) (str : string) :
  contains arr str = false ↔ ∀ a, a ∈ arr → Contains a str = false.
Proof.
  rewrite <- not_true_iff_false, contains_true. split.
  - intros H a Ha. apply not_true_iff_false. intros Hc. apply H. by exists a.
  - intros H (a & Ha & Hc). rewrite (H a Ha) in Hc. done.
Qed.

Lemma contains_elem (arr : list string) (str : string) :
  str ∈ arr → contains arr str = true.
Proof. intros H. apply contains_true. exists str. split; [done | apply Contains_refl]. Qed.

Lemma findDevice_Ok (devices : list DeviceResource) (name : string) (d : DeviceResource) :
  findDevice devices name = Ok d → d ∈ devices ∧ Contains name (Name d) = true.
Proof.
  induction devices as [|d0 devices IH]; simpl; [done|].
  destruct (Contains name (Name d0)) eqn:E.
  - intros [= <-]. split; [left | done].
  - intros H. destruct (IH H) as [Hin Hc]. split; [by right | done].
Qed.

Lemma findDevice_Err (devices : list DeviceResource) (name : string) (e : error) :
  findDevice devices name = Err e ↔
  e = ErrNotPresented ∧ ∀ d, d ∈ devices → Contains name (Name d) = false.
Proof.
  induction devices as [|d0 devices IH]; simpl.
  - split.
    + intros [= <-]. split; [done | intros d Hd; by apply elem_of_nil in Hd].
    + by intros [-> _].
  - destruct (Contains name (Name d0)) eqn:E.
    + split; [done | intros [_ H]; rewrite (H d0) in E; [done | left]].
    + rewrite IH. split; intros [-> H]; split; try done.
      * intros d Hd. apply elem_of_cons in Hd as [-> | Hd]; [done | by apply H].
      * intros d Hd. apply H. by right.
Qed.

(** A declared name always resolves, to the first declaration whose name
    occurs within it. *)
Lemma findDevice_declared (devices : list DeviceResource) (d : DeviceResource) :
  d ∈ devices → ∃ d', findDevice devices (Name d) = Ok d'.
Proof.
  intros Hin. destruct (findDevice devices (Name d)) as [d'|e] eqn:E; [by exists d'|].
  apply findDevice_Err in E as [_ H].
  pose proof (H d Hin) as Hc. by rewrite Contains_refl in Hc.
Qed.

Lemma removeFromSlice_elem (arr : list string) (str h : string) :
  h ∈ removeFromSlice arr str → h ∈ arr.
Proof.
  induction arr as [|a arr IH]; simpl; [done|].
  destruct (String.eqb a str).
  - by right.
  - intros H. apply elem_of_cons in H as [-> | H]; [left | right; by apply IH].
Qed.

Lemma removeFromSlice_other (arr : list string) (str h : string) :
  h ≠ str → h ∈ arr → h ∈ removeFromSlice arr str.
Proof.
  intros Hne. induction arr as [|a arr IH]; simpl; [done|].
  intros H. destruct (String.eqb a str) eqn:E.
  - apply String.eqb_eq in E as ->.
    apply elem_of_cons in H as [-> | H]; [done | done].
  - apply elem_of_cons in H as [-> | H]; [left | right; by apply IH].
Qed.

Lemma removeFromSlice_NoDup (arr : list string) (str : string) :
  NoDup arr → NoDup (removeFromSlice arr str) ∧ str ∉ removeFromSlice arr str.
Proof.
  induction arr as [|a arr IH]; simpl.
  - intros _. split; [constructor | apply not_elem_of_nil].
  - intros Hnd. apply NoDup_cons in Hnd as [Hna Hnd].
    destruct (String.eqb a str) eqn:E.
    + apply String.eqb_eq in E as ->. done.
    + apply String.eqb_neq in E. destruct (IH Hnd) as [IH1 IH2]. split.
      * apply NoDup_cons. split; [|done].
        intros H. apply Hna. by apply removeFromSlice_elem in H.
      * intros H. apply elem_of_cons in H as [-> | H]; done.
Qed.

Lemma removeFromSlice_length (arr : list string) (str : string) :
  (length (removeFromSlice arr str) ≤ length arr)%nat.
Proof.
  induction arr as [|a arr IH]; simpl; [done|].
  destruct (String.eqb a str); simpl; lia.
Qed.

Lemma listOfServices_set_eq (rm : ResourceManager) (device : string) (l : list string) :
  listOfServices (setListOfServices rm device l) device = l.
Proof. unfold listOfServices; simpl. by rewrite lookup_insert_eq. Qed.

Lemma listOfServices_set_ne (rm : ResourceManager) (device device' : string) (l : list string) :
  device ≠ device' →
  listOfServices (setListOfServices rm device l) device' = listOfServices rm device'.
Proof. intros H. unfold listOfServices; simpl. by rewrite lookup_insert_ne. Qed.

Lemma isAvailableResourcesChecked_false (rm : ResourceManager) :
  isAvailableResourcesChecked rm = false ↔ Devices (availableResources rm) = [].
Proof.
  unfold isAvailableResourcesChecked.
  destruct (Devices (availableResources rm)); simpl; split; done.
Qed.


Lemma step_availableResources (rm : ResourceManager) (op : Op) :
  availableResources (step rm op) = availableResources rm.
Proof.
  destruct op as [device serviceID | device serviceID]; simpl.
  - unfold RequestDevice.
    destruct (negb (isAvailableResourcesChecked rm)); [done|].
    destruct (getAvailableDeviceByName rm device); [|done].
    destruct (_ || _); [|done]. by destruct (contains _ _).
  - unfold ReleaseDevice.
    destruct (negb (isAvailableResourcesChecked rm)); [done|].
    destruct (getAvailableDeviceByName rm device); [|done].
    by destruct (contains _ _).
Qed.

Lemma run_snoc (ops : list Op) (op : Op) (rm : ResourceManager) :
  run (ops ++ [op]) rm = step (run ops rm) op.
Proof. unfold run. by rewrite foldl_app. Qed.

Lemma run_availableResources (ops : list Op) (rm : ResourceManager) :
  availableResources (run ops rm) = availableResources rm.
Proof.
  induction ops as [|op ops IH] using rev_ind; [done|].
  by rewrite run_snoc, step_availableResources.
Qed.

(** The holders of every device stay duplicate-free. *)
Definition holdersNoDup (rm : ResourceManager) : Prop :=
  ∀ device, NoDup (listOfServices rm device).

Lemma step_holdersNoDup (rm : ResourceManager) (op : Op) :
  holdersNoDup rm → holdersNoDup (step rm op).
Proof.
  intros Hnd device'. destruct op as [device serviceID | device serviceID]; simpl.
  - unfold RequestDevice.
    destruct (negb (isAvailableResourcesChecked rm)); [apply Hnd|].
    destruct (getAvailableDeviceByName rm device); [|apply Hnd].
    destruct (_ || _); [|apply Hnd].
    destruct (contains _ _) eqn:Ec; [apply Hnd|]. simpl.
    destruct (decide (device = device')) as [<-|Hne].
    + rewrite listOfServices_set_eq. apply NoDup_app. split; [apply Hnd|]. split.
      * intros x Hx Hx'. apply list_elem_of_singleton in Hx' as ->.
        apply contains_elem in Hx. congruence.
      * apply NoDup_singleton.
    + rewrite listOfServices_set_ne by done. apply Hnd.
  - unfold ReleaseDevice.
    destruct (negb (isAvailableResourcesChecked rm)); [apply Hnd|].
    destruct (getAvailableDeviceByName rm device); [|apply Hnd].
    destruct (contains _ _) eqn:Ec; [|apply Hnd]. simpl.
    destruct (decide (device = device')) as [<-|Hne].
    + rewrite listOfServices_set_eq. by apply removeFromSlice_NoDup.
    + rewrite listOfServices_set_ne by done. apply Hnd.
Qed.

Lemma run_holdersNoDup (ops : list Op) (rm : ResourceManager) :
  deviceWithServices rm = ∅ → holdersNoDup (run ops rm).
Proof.
  intros Hempty. induction ops as [|op ops IH] using rev_ind.
  - intros device. unfold run, listOfServices; simpl.
    rewrite Hempty, lookup_empty. constructor.
  - rewrite run_snoc. by apply step_holdersNoDup.
Qed.

(** The capacity bound, relative to the declaration a name resolves to. *)
Definition withinSharedCount (rm : ResourceManager) : Prop :=
  ∀ device d, getAvailableDeviceByName rm device = Ok d → 0 < SharedCount d →
    Z.of_nat (length (listOfServices rm device)) ≤ SharedCount d.

Lemma step_withinSharedCount (rm : ResourceManager) (op : Op) :
  withinSharedCount rm → withinSharedCount (step rm op).
Proof.
  intros Hinv device' d'. unfold getAvailableDeviceByName.
  rewrite step_availableResources. intros Hfind Hpos.
  specialize (Hinv device' d' Hfind Hpos).
  destruct op as [device serviceID | device serviceID]; simpl.
  - unfold RequestDevice.
    destruct (negb (isAvailableResourcesChecked rm)); [done|].
    destruct (getAvailableDeviceByName rm device) as [d|] eqn:Ed; [|done].
    destruct (_ || _) eqn:Eg; [|done].
    destruct (contains _ _); [done|]. simpl.
    destruct (decide (device = device')) as [<-|Hne].
    + rewrite listOfServices_set_eq, length_app. simpl.
      unfold getAvailableDeviceByName in Ed. rewrite Hfind in Ed.
      injection Ed as <-. apply orb_true_iff in Eg as [Eg|Eg]; lia.
    + by rewrite listOfServices_set_ne.
  - unfold ReleaseDevice.
    destruct (negb (isAvailableResourcesChecked rm)); [done|].
    destruct (getAvailableDeviceByName rm device); [|done].
    destruct (contains _ _); [|done]. simpl.
    destruct (decide (device = device')) as [<-|Hne].
    + rewrite listOfServices_set_eq.
      pose proof (removeFromSlice_length (listOfServices rm device) serviceID). lia.
    + by rewrite listOfServices_set_ne.
Qed.


(** ** The five ways through [RequestDevice] *)

Definition gate (d : DeviceResource) (l : list string) : bool :=
  (SharedCount d =? 0) || (Z.of_nat (length l) <? SharedCount d).

Lemma gate_true (d : DeviceResource) (l : list string) :
  gate d l = true → SharedCount d = 0 ∨ Z.of_nat (length l) < SharedCount d.
Proof. unfold gate. intros H. apply orb_true_iff in H as [H|H]; lia. Qed.

Lemma gate_false (d : DeviceResource) (l : list string) :
  gate d l = false → SharedCount d ≠ 0 ∧ SharedCount d ≤ Z.of_nat (length l).
Proof. unfold gate. intros H. apply orb_false_iff in H as [H1 H2]. lia. Qed.

Lemma RequestDevice_unchecked (device serviceID : string) (rm : ResourceManager) :
  isAvailableResourcesChecked rm = false →
  RequestDevice device serviceID rm = (Some ErrNotProvided, rm).
Proof. unfold RequestDevice. by intros ->. Qed.

Lemma RequestDevice_unknown (device serviceID : string) (rm : ResourceManager) (e : error) :
  isAvailableResourcesChecked rm = true →
  getAvailableDeviceByName rm device = Err e →
  RequestDevice device serviceID rm = (Some e, rm).
Proof. unfold RequestDevice. by intros -> ->. Qed.

Lemma RequestDevice_full (device serviceID : string) (rm : ResourceManager)
    (d : DeviceResource) :
  isAvailableResourcesChecked rm = true →
  getAvailableDeviceByName rm device = Ok d →
  gate d (listOfServices rm device) = false →
  RequestDevice device serviceID rm = (Some (ErrUnavailable device), rm).
Proof. unfold RequestDevice, gate. by intros -> -> ->. Qed.

Lemma RequestDevice_again (device serviceID : string) (rm : ResourceManager)
    (d : DeviceResource) :
  isAvailableResourcesChecked rm = true →
  getAvailableDeviceByName rm device = Ok d →
  gate d (listOfServices rm device) = true →
  contains (listOfServices rm device) serviceID = true →
  RequestDevice device serviceID rm = (None, rm).
Proof. unfold RequestDevice, gate. by intros -> -> -> ->. Qed.

Lemma RequestDevice_granted (device serviceID : string) (rm : ResourceManager)
    (d : DeviceResource) :
  isAvailableResourcesChecked rm = true →
  getAvailableDeviceByName rm device = Ok d →
  gate d (listOfServices rm device) = true →
  contains (listOfServices rm device) serviceID = false →
  RequestDevice device serviceID rm =
    (None, setListOfServices rm device (listOfServices rm device ++ [serviceID])).
Proof. unfold RequestDevice, gate. by intros -> -> -> ->. Qed.

(** ** Concrete managers used below *)

Definition camera : DeviceResource :=
  mkDeviceResource "camera" 1 ["video"] ["/dev/video0"].

Definition cam : DeviceResource :=
  mkDeviceResource "cam" 0 [] ["/dev/video0"].

Definition gps : DeviceResource :=
  mkDeviceResource "gps" (-1) [] ["/dev/ttyS0"].

Definition random : DeviceResource :=
  mkDeviceResource "random" 0 [] ["/dev/random"].

Definition manager (devices : list DeviceResource) : ResourceManager :=
  mkResourceManager ∅ ["/dev/video0"; "/dev/ttyS0"; "/dev/random"] ["video"]
    "resources.cfg" (mkAvailableResources devices) None.

(** ** C1 *)

(** C1. The code refuses a holder that asks again while the device is
    full: with [camera], which one service may hold, held by [svc], the
    request of [svc] for it fails with [ErrUnavailable], where the claim
    has a re-request by a holder succeed. The test for a holder and its
    warning come after the test of the capacity and inside it; the
    sibling paths, a device with room left and a device without limit,
    do answer a holder's re-request with success and change nothing. *)
Theorem RequestDevice_refuses_holder_at_capacity :
  (let rm := run [Request "camera" "svc"] (manager [camera]) in
   SharedCount camera = 1 ∧
   listOfServices rm "camera" = ["svc"] ∧
   RequestDevice "camera" "svc" rm = (Some (ErrUnavailable "camera"), rm)) ∧
  (let rm := run [Request "camera" "svc"]
               (manager [mkDeviceResource "camera" 2 ["video"] ["/dev/video0"]]) in
   listOfServices rm "camera" = ["svc"] ∧
   RequestDevice "camera" "svc" rm = (None, rm)) ∧
  (let rm := run [Request "random" "svc"] (manager [random]) in
   SharedCount random = 0 ∧
   listOfServices rm "random" = ["svc"] ∧
   RequestDevice "random" "svc" rm = (None, rm)).
Proof. repeat split; reflexivity. Qed.

(** X30. [RequestDevice device serviceID], as the code decides it:
    with no declaration loaded it fails with [ErrNotProvided]; it fails
    with [ErrNotPresented] exactly when declarations are loaded and no
    declared name occurs within [device], so never for a declared name;
    when [device] resolves to the
    declaration [d], it fails with [ErrUnavailable] exactly when
    [SharedCount d] is not 0 and the holders recorded for [device]
    number at least [SharedCount d], whether or not [serviceID] is one
    of them; in every other case it succeeds, a holder's re-request
    changing nothing and a [serviceID] that occurs in no holder's
    identifier being appended to the holders of [device] only. Every
    failure leaves the manager as it was. *)
Theorem RequestDevice_outcomes (rm : ResourceManager) (device serviceID : string) :
  let res := RequestDevice device serviceID rm in
  (Devices (availableResources rm) = [] → fst res = Some ErrNotProvided) ∧
  (fst res = Some ErrNotPresented ↔
     Devices (availableResources rm) ≠ [] ∧
     ∀ d, d ∈ Devices (availableResources rm) → Contains device (Name d) = false) ∧
  (∀ d, d ∈ Devices (availableResources rm) → device = Name d →
     fst res ≠ Some ErrNotPresented) ∧
  (∀ e, fst res = Some e → snd res = rm) ∧
  (∀ d, Devices (availableResources rm) ≠ [] →
     getAvailableDeviceByName rm device = Ok d →
     (fst res = Some (ErrUnavailable device) ↔
        SharedCount d ≠ 0 ∧
        SharedCount d ≤ Z.of_nat (length (listOfServices rm device))) ∧
     (fst res ≠ Some (ErrUnavailable device) →
        fst res = None ∧
        (serviceID ∈ listOfServices rm device → snd res = rm) ∧
        ((∀ h, h ∈ listOfServices rm device → Contains h serviceID = false) →
           listOfServices (snd res) device = listOfServices rm device ++ [serviceID] ∧
           (∀ device', device' ≠ device →
              listOfServices (snd res) device' = listOfServices rm device') ∧
           availableResources (snd res) = availableResources rm))).
Proof.
  intros res.
  assert (Hdeclared : ∀ d, d ∈ Devices (availableResources rm) → device = Name d →
            (Devices (availableResources rm) ≠ [] ∧
             ∀ d', d' ∈ Devices (availableResources rm) →
                   Contains device (Name d') = false) → False).
  { intros d Hd -> [_ H]. specialize (H d Hd). by rewrite Contains_refl in H. }
  subst res.
  destruct (isAvailableResourcesChecked rm) eqn:Echk.
  2: { pose proof (proj1 (isAvailableResourcesChecked_false rm) Echk) as Hnil.
       rewrite (RequestDevice_unchecked _ _ _ Echk). simpl.
       split; [done|]. split; [split; [done | by intros [H _]]|].
       split; [done|]. split; [by intros e [= <-]|]. by intros d Hne. }
  assert (Hne : Devices (availableResources rm) ≠ []).
  { intros H. apply isAvailableResourcesChecked_false in H. congruence. }
  split; [done|].
  destruct (getAvailableDeviceByName rm device) as [d0|e0] eqn:Efind.
  2: { rewrite (RequestDevice_unknown _ _ _ _ Echk Efind). simpl.
       apply findDevice_Err in Efind as [-> Hall].
       split; [done|].
       split; [intros d Hd Hname _; by apply (Hdeclared d Hd Hname)|].
       split; [by intros e [= <-]|]. by intros d _ [=]. }
  pose proof (findDevice_Ok _ _ _ Efind) as [Hin Hc].
  destruct (gate d0 (listOfServices rm device)) eqn:Egate.
  2: { rewrite (RequestDevice_full _ _ _ _ Echk Efind Egate). simpl.
       apply gate_false in Egate.
       split; [split; [done | intros [_ H]; rewrite (H d0 Hin) in Hc; done]|].
       split; [done|].
       split; [by intros e [= <-]|].
       intros d _ [= <-]. split; [done|]. by intros H. }
  apply gate_true in Egate as Hg.
  destruct (contains (listOfServices rm device) serviceID) eqn:Ec.
  - rewrite (RequestDevice_again _ _ _ _ Echk Efind Egate Ec). simpl.
    split; [split; [done | intros [_ H]; rewrite (H d0 Hin) in Hc; done]|].
    split; [done|]. split; [done|].
    intros d _ [= <-]. split; [split; [done | lia]|].
    intros _. split; [done|]. split; [done|].
    intros Hno. apply contains_true in Ec as (h & Hh & Hch).
    rewrite (Hno h Hh) in Hch. done.
  - rewrite (RequestDevice_granted _ _ _ _ Echk Efind Egate Ec). simpl.
    split; [split; [done | intros [_ H]; rewrite (H d0 Hin) in Hc; done]|].
    split; [done|]. split; [done|].
    intros d _ [= <-]. split; [split; [done | lia]|].
    intros _. split; [done|]. split.
    { intros Hh. apply contains_elem in Hh. congruence. }
    intros _. split; [by rewrite listOfServices_set_eq|]. split; [|done].
    intros device' Hd. by rewrite listOfServices_set_ne.
Qed.


Lemma RequestDevice_outcomes_witness :
  let rm := run [Request "random" "svc"] (manager [random]) in
  "svc" ∈ listOfServices rm "random" ∧ snd (RequestDevice "random" "svc" rm) = rm.
Proof.
  intros rm.
  assert (Hin : "svc" ∈ listOfServices rm "random") by (vm_compute; left).
  split; [exact Hin|].
  destruct (RequestDevice_outcomes rm "random" "svc") as (_ & _ & _ & _ & H).
  destruct (H random) as [Hiff Hrest]; [done | reflexivity |].
  apply Hrest; [|exact Hin].
  intros Hu. apply Hiff in Hu as [Hu _]. by apply Hu.
Defined.

(** ** C2 *)

(** C2, as stated, fails when an earlier declaration's name occurs within
    the name of the declared device: "camera" is declared with
    [SharedCount] 1, requests for it resolve to the unlimited "cam", and
    two holders are recorded for "camera". *)
Lemma SharedCount_exceeded_when_shadowed :
  let rm := run [Request "camera" "a"; Request "camera" "b"] (manager [cam; camera]) in
  camera ∈ Devices (availableResources rm) ∧
  0 < SharedCount camera ∧
  listOfServices rm "camera" = ["a"; "b"] ∧
  SharedCount camera < Z.of_nat (length (listOfServices rm "camera")).
Proof.
  split; [right; left|]. split; [done|]. split; [reflexivity|done].
Qed.

(** A declared device resolves to itself when no declaration before it
    has a name that occurs within its name. *)
Lemma findDevice_unshadowed (before after : list DeviceResource) (d : DeviceResource) :
  (∀ d', d' ∈ before → Contains (Name d) (Name d') = false) →
  findDevice (before ++ d :: after) (Name d) = Ok d.
Proof.
  induction before as [|d0 before IH]; simpl; intros H.
  - by rewrite Contains_refl.
  - rewrite (H d0) by left. apply IH. intros d' Hd'. apply H. by right.
Qed.

(** C2 (amended). Starting from the empty grant map that [New] builds,
    after any sequence of [RequestDevice] and [ReleaseDevice] calls, every
    device name whose lookup resolves to a declaration with
    [SharedCount] s > 0 has at most s holders recorded; for a declared
    device this is its own [SharedCount] whenever no declaration before
    it has a name that occurs within its name. *)
Theorem grants_within_SharedCount (ops : list Op) (rm : ResourceManager) :
  deviceWithServices rm = ∅ →
  (∀ device d,
     getAvailableDeviceByName rm device = Ok d →
     0 < SharedCount d →
     Z.of_nat (length (listOfServices (run ops rm) device)) ≤ SharedCount d) ∧
  (∀ before d after,
     Devices (availableResources rm) = before ++ d :: after →
     (∀ d', d' ∈ before → Contains (Name d) (Name d') = false) →
     0 < SharedCount d →
     Z.of_nat (length (listOfServices (run ops rm) (Name d))) ≤ SharedCount d).
Proof.
  intros Hempty.
  assert (Hinv : withinSharedCount (run ops rm)).
  { induction ops as [|op ops IH] using rev_ind.
    - intros device' d' _ Hpos'. unfold run, listOfServices; simpl.
      rewrite Hempty, lookup_empty. simpl. lia.
    - rewrite run_snoc. by apply step_withinSharedCount. }
  assert (Hgeneral : ∀ device d, getAvailableDeviceByName rm device = Ok d →
            0 < SharedCount d →
            Z.of_nat (length (listOfServices (run ops rm) device)) ≤ SharedCount d).
  { intros device d Hfind Hpos. apply Hinv; [|done].
    unfold getAvailableDeviceByName. by rewrite run_availableResources. }
  split; [exact Hgeneral|].
  intros before d after Hdevices Hbefore Hpos. apply Hgeneral; [|done].
  unfold getAvailableDeviceByName. rewrite Hdevices.
  by apply findDevice_unshadowed.
Qed.

Lemma grants_within_SharedCount_witness :
  Z.of_nat (length (listOfServices
    (run [Request "camera" "a"; Request "camera" "b"; Release "camera" "a";
          Request "camera" "c"; Request "camera" "d"] (manager [camera]))
    "camera")) ≤ 1.
Proof.
  destruct (grants_within_SharedCount
              [Request "camera" "a"; Request "camera" "b"; Release "camera" "a";
               Request "camera" "c"; Request "camera" "d"] (manager [camera]))
    as [H _]; [reflexivity|].
  apply (H "camera" camera); reflexivity.
Defined.

(** ** C3 *)

(** C3, as stated, fails on the code at two inputs.
    (1) With no declaration loaded the release of a non-holder fails, but
        with [ErrNotProvided]; [ErrNotGranted] is never reached.
    (2) "service1" holds nothing, yet its identifier occurs inside the
        holder "service10": the release succeeds and removes nothing. *)
Lemma ReleaseDevice_not_as_stated :
  (let rm := manager [] in
   ("svc" ∉ listOfServices rm "camera") ∧
   ReleaseDevice "camera" "svc" rm = (Some ErrNotProvided, rm)) ∧
  (let rm := run [Request "random" "service10"] (manager [random]) in
   ("service1" ∉ listOfServices rm "random") ∧
   ReleaseDevice "random" "service1" rm = (None, rm)).
Proof.
  split; (split; [|reflexivity]).
  - apply not_elem_of_nil.
  - intros H. apply list_elem_of_singleton in H. done.
Qed.

(** C3 (amended). In a state reached from [New]'s empty grant map by any
    sequence of requests and releases, [ReleaseDevice device serviceID]
    fails with [ErrNotProvided] when no declaration is loaded and with
    [ErrNotPresented] when no declared name occurs within [device];
    otherwise it fails with [ErrNotGranted] when [serviceID] occurs in
    no holder's identifier, and when [serviceID] is a holder it succeeds,
    after which [serviceID] is not a holder of [device], the other
    holders of [device] are the same and no other device is touched.
    Every failure leaves the manager as it was. *)
Theorem ReleaseDevice_outcomes (ops : list Op) (rm0 : ResourceManager)
    (device serviceID : string) :
  deviceWithServices rm0 = ∅ →
  let rm := run ops rm0 in
  let res := ReleaseDevice device serviceID rm in
  (Devices (availableResources rm) = [] → fst res = Some ErrNotProvided) ∧
  (Devices (availableResources rm) ≠ [] →
   (∀ d, d ∈ Devices (availableResources rm) → Contains device (Name d) = false) →
   fst res = Some ErrNotPresented) ∧
  (∀ e, fst res = Some e → snd res = rm) ∧
  (∀ d, Devices (availableResources rm) ≠ [] →
     getAvailableDeviceByName rm device = Ok d →
     ((∀ h, h ∈ listOfServices rm device → Contains h serviceID = false) →
        fst res = Some (ErrNotGranted device serviceID)) ∧
     (serviceID ∈ listOfServices rm device →
        fst res = None ∧
        (serviceID ∉ listOfServices (snd res) device) ∧
        (∀ h, h ≠ serviceID →
           h ∈ listOfServices (snd res) device ↔ h ∈ listOfServices rm device) ∧
        (∀ device', device' ≠ device →
           listOfServices (snd res) device' = listOfServices rm device'))).
Proof.
  intros Hempty rm res.
  pose proof (run_holdersNoDup ops rm0 Hempty device) as Hnd. fold rm in Hnd.
  subst res. unfold ReleaseDevice.
  destruct (isAvailableResourcesChecked rm) eqn:Echk; simpl.
  2: { pose proof (proj1 (isAvailableResourcesChecked_false rm) Echk) as Hnil.
       split; [done|]. split; [done|]. split; [by intros e [= <-]|]. done. }
  assert (Hne : Devices (availableResources rm) ≠ []).
  { intros H. apply isAvailableResourcesChecked_false in H. congruence. }
  split; [done|].
  destruct (getAvailableDeviceByName rm device) as [d0|e0] eqn:Efind.
  2: { apply findDevice_Err in Efind as [-> Hall]. simpl.
       split; [done|]. split; [by intros e [= <-]|]. by intros d _ [=]. }
  pose proof (findDevice_Ok _ _ _ Efind) as [Hin Hc].
  split. { intros _ H. rewrite (H d0 Hin) in Hc. done. }
  destruct (contains (listOfServices rm device) serviceID) eqn:Ec; simpl.
  - split; [done|]. intros d _ _. split.
    { intros Hno. apply contains_true in Ec as (h & Hh & Hch).
      rewrite (Hno h Hh) in Hch. done. }
    intros Hh. split; [done|].
    rewrite listOfServices_set_eq. split; [by apply removeFromSlice_NoDup|].
    split.
    + intros h Hneq. split; [apply removeFromSlice_elem|by apply removeFromSlice_other].
    + intros device' Hd. by rewrite listOfServices_set_ne.
  - split; [by intros e [= <-]|]. intros d _ _. split; [done|].
    intros Hh. apply contains_elem in Hh. congruence.
Qed.

Lemma ReleaseDevice_outcomes_witness :
  let rm := run [Request "camera" "svc"] (manager [camera]) in
  fst (ReleaseDevice "camera" "svc" rm) = None ∧
  "svc" ∉ listOfServices (snd (ReleaseDevice "camera" "svc" rm)) "camera".
Proof.
  intros rm.
  destruct (ReleaseDevice_outcomes [Request "camera" "svc"] (manager [camera])
              "camera" "svc") as (_ & _ & _ & H); [reflexivity|].
  destruct (H camera) as [_ Hrel]; [done | reflexivity |].
  destruct Hrel as (Hok & Hgone & _); [vm_compute; left|].
  split; [exact Hok | exact Hgone].
Defined.

(** ** C10 *)

(** C10, as stated, fails when [json.Unmarshal] reports an error after it
    has decoded a device (a value of the wrong type in a later field):
    [New] keeps what was decoded, and requests are served from it. *)
Lemma New_keeps_partly_decoded_devices :
  let host := mkHost (Ok ["/dev/random"]) (Ok ["root"])
                (Unmarshalled (mkAvailableResources [random])
                   (Some (ErrOS "json: cannot unmarshal string into Go value of type int"))) in
  snd (parseResourceConfiguration (configRead host)) ≠ None ∧
  ∃ rm, New host "resources.cfg" = Ok rm ∧
        AreResourcesValid rm = None ∧
        fst (RequestDevice "random" "svc" rm) = None ∧
        listOfServices (snd (RequestDevice "random" "svc" rm)) "random" = ["svc"].
Proof.
  split; [done|]. eexists. split; [reflexivity|]. repeat split.
Qed.

(** C10 (amended). When the host devices and groups can be read, [New]
    returns a manager whatever happens to the resource declaration file.
    If no device ends up declared (the file cannot be read, or nothing was
    decoded from it), [AreResourcesValid] returns the
    resource-configuration-not-provided error stored at construction, and
    after any sequence of operations every [RequestDevice] and
    [ReleaseDevice] fails with that error and leaves the manager, grants
    included, as [New] built it. *)
Theorem New_without_declaration (host : Host) (file : string)
    (devs groups : list string) :
  devWalk host = Ok devs →
  groupFile host = Ok groups →
  ∃ rm, New host file = Ok rm ∧
    deviceWithServices rm = ∅ ∧
    (nothingDeclared (configRead host) →
       AreResourcesValid rm = Some ErrNotProvided ∧
       ∀ ops device serviceID,
         AreResourcesValid (run ops rm) = Some ErrNotProvided ∧
         RequestDevice device serviceID (run ops rm) = (Some ErrNotProvided, rm) ∧
         ReleaseDevice device serviceID (run ops rm) = (Some ErrNotProvided, rm)).
Proof.
  intros Hdev Hgrp. unfold New. rewrite Hdev, Hgrp.
  destruct (parseResourceConfiguration (configRead host)) as [resources err] eqn:Ep.
  set (rm := mkResourceManager ∅ devs groups file resources
                (validateDeviceResources
                   (mkResourceManager ∅ devs groups file resources None))).
  exists rm. split; [reflexivity|]. split; [reflexivity|].
  intros Hnothing.
  assert (Hnil : Devices resources = []).
  { destruct (configRead host); simpl in *; by injection Ep as <- _. }
  assert (Hchk : isAvailableResourcesChecked rm = false).
  { apply isAvailableResourcesChecked_false. exact Hnil. }
  assert (Hvalid : AreResourcesValid rm = Some ErrNotProvided).
  { unfold AreResourcesValid, rm, validateDeviceResources,
      isAvailableResourcesChecked. simpl. by rewrite Hnil. }
  split; [exact Hvalid|].
  assert (Hrun : ∀ ops, run ops rm = rm).
  { induction ops as [|op ops IH] using rev_ind; [done|].
    rewrite run_snoc, IH. destruct op as [d s|d s]; simpl.
    - by rewrite RequestDevice_unchecked.
    - unfold ReleaseDevice. by rewrite Hchk. }
  intros ops device serviceID. rewrite Hrun. split; [exact Hvalid|]. split.
  - by apply RequestDevice_unchecked.
  - unfold ReleaseDevice. by rewrite Hchk.
Qed.

Lemma New_without_declaration_witness :
  ∃ rm, New (mkHost (Ok ["/dev/random"]) (Ok ["root"])
               (ReadFailed (ErrOS "open resources.cfg: no such file or directory")))
            "resources.cfg" = Ok rm ∧
        AreResourcesValid rm = Some ErrNotProvided ∧
        RequestDevice "random" "svc" rm = (Some ErrNotProvided, rm).
Proof.
  destruct (New_without_declaration
              (mkHost (Ok ["/dev/random"]) (Ok ["root"])
                 (ReadFailed (ErrOS "open resources.cfg: no such file or directory")))
              "resources.cfg" ["/dev/random"] ["root"])
    as (rm & Hnew & _ & H); [reflexivity | reflexivity |].
  exists rm. destruct H as [Hvalid Hops]; [exact I|].
  split; [exact Hnew|]. split; [exact Hvalid|].
  exact (proj1 (proj2 (Hops [] "random" "svc"))).
Defined.

(** ** Further properties of the package *)

(** *** Validation of the declared devices *)

Lemma appendError_ne (deviceErrors : gmap string (list error)) (name : string) (e : error) :
  appendError deviceErrors name e ≠ ∅.
Proof. unfold appendError. apply insert_non_empty. Qed.

Lemma foldl_appendError_empty (present : string → bool) (mk : string → error)
    (name : string) (names : list string) (acc : gmap string (list error)) :
  foldl (fun acc x => if present x then acc else appendError acc name (mk x)) acc names = ∅
  ↔ acc = ∅ ∧ ∀ x, x ∈ names → present x = true.
Proof.
  revert acc. induction names as [|x names IH]; intros acc; simpl.
  - split; [intros H; split; [done | intros x Hx; by apply elem_of_nil in Hx] | by intros [H _]].
  - rewrite IH. destruct (present x) eqn:E.
    + split; intros [Hacc H]; (split; [done|]).
      * intros y Hy. apply elem_of_cons in Hy as [-> | Hy]; [done | by apply H].
      * intros y Hy. apply H. by right.
    + split.
      * intros [Hacc _]. by apply appendError_ne in Hacc.
      * intros [_ H]. rewrite (H x) in E; [done | left].
Qed.

Definition presentOnHost (rm : ResourceManager) (d : DeviceResource) : Prop :=
  (∀ hostDevice, hostDevice ∈ HostDevices d → contains (hostDevices rm) hostDevice = true) ∧
  (∀ group, group ∈ Groups d → contains (hostGroups rm) group = true).

Lemma checkDevice_empty (rm : ResourceManager) (acc : gmap string (list error))
    (d : DeviceResource) :
  checkDevice rm acc d = ∅ ↔ acc = ∅ ∧ presentOnHost rm d.
Proof.
  unfold checkDevice, presentOnHost.
  rewrite (foldl_appendError_empty (contains (hostGroups rm)) ErrGroup).
  rewrite (foldl_appendError_empty (contains (hostDevices rm)) ErrHostDevice).
  tauto.
Qed.

Lemma foldl_checkDevice_empty (rm : ResourceManager) (devices : list DeviceResource)
    (acc : gmap string (list error)) :
  foldl (checkDevice rm) acc devices = ∅
  ↔ acc = ∅ ∧ ∀ d, d ∈ devices → presentOnHost rm d.
Proof.
  revert acc. induction devices as [|d devices IH]; intros acc; simpl.
  - split; [intros H; split; [done | intros x Hx; by apply elem_of_nil in Hx] | by intros [H _]].
  - rewrite IH, checkDevice_empty. split.
    + intros [[Hacc Hd] H]. split; [done|].
      intros d' Hd'. apply elem_of_cons in Hd' as [-> | Hd']; [done | by apply H].
    + intros [Hacc H]. split; [split; [done | apply H; left] | intros d' Hd'; apply H; by right].
Qed.

Lemma validateDeviceResources_cases (rm : ResourceManager) :
  (validateDeviceResources rm = Some ErrNotProvided ↔ Devices (availableResources rm) = []) ∧
  (validateDeviceResources rm = None ↔
     Devices (availableResources rm) ≠ [] ∧
     ∀ d, d ∈ Devices (availableResources rm) → presentOnHost rm d) ∧
  (validateDeviceResources rm = None ∨
   validateDeviceResources rm = Some ErrNotProvided ∨
   validateDeviceResources rm = Some ErrNotValid).
Proof.
  unfold validateDeviceResources.
  destruct (isAvailableResourcesChecked rm) eqn:Echk; simpl.
  - assert (Hne : Devices (availableResources rm) ≠ []).
    { intros H. apply isAvailableResourcesChecked_false in H. congruence. }
    set (m := foldl (checkDevice rm) ∅ (Devices (availableResources rm))).
    pose proof (foldl_checkDevice_empty rm (Devices (availableResources rm)) ∅) as Hm.
    fold m in Hm.
    destruct (size m =? 0)%nat eqn:Es; simpl.
    + apply Nat.eqb_eq, map_size_empty_iff in Es.
      split; [split; [done | by intros H] |]. split; [|by left].
      split; [intros _; split; [done | by apply Hm] | done].
    + apply Nat.eqb_neq in Es. rewrite map_size_empty_iff in Es.
      split; [split; [done | by intros H] |]. split; [|by right; right].
      split; [done | intros [_ H]; exfalso; apply Es, Hm; by split].
  - apply isAvailableResourcesChecked_false in Echk.
    split; [by split|]. split; [|by right; left].
    split; [done | by intros [H _]].
Qed.

(** X1. A manager that [New] returns holds the device paths and the group
    names that were discovered on the host, and its validity is decided
    against them. [AreResourcesValid] answers [ErrNotProvided] exactly
    when no device is declared. It answers no error exactly when at
    least one device is declared and, for every declared device, every
    host device occurs within some discovered path and every group
    within some discovered group name. It gives no other answer than
    these two and [ErrNotValid]. *)
Theorem New_validates_against_host (host : Host) (file : string) (rm : ResourceManager) :
  New host file = Ok rm →
  devWalk host = Ok (hostDevices rm) ∧ groupFile host = Ok (hostGroups rm) ∧
  (AreResourcesValid rm = Some ErrNotProvided ↔ Devices (availableResources rm) = []) ∧
  (AreResourcesValid rm = None ↔
     Devices (availableResources rm) ≠ [] ∧
     ∀ d, d ∈ Devices (availableResources rm) →
       (∀ hostDevice, hostDevice ∈ HostDevices d →
          ∃ path, path ∈ hostDevices rm ∧ Contains path hostDevice = true) ∧
       (∀ group, group ∈ Groups d →
          ∃ name, name ∈ hostGroups rm ∧ Contains name group = true)) ∧
  (AreResourcesValid rm = None ∨ AreResourcesValid rm = Some ErrNotProvided ∨
   AreResourcesValid rm = Some ErrNotValid).
Proof.
  unfold New. destruct (devWalk host) as [devs|e]; [|done].
  destruct (groupFile host) as [groups|e]; [|done].
  destruct (parseResourceConfiguration (configRead host)) as [resources err].
  intros [= <-]. unfold AreResourcesValid. cbn [areResourcesValid hostDevices hostGroups availableResources].
  set (rm0 := mkResourceManager ∅ devs groups file resources None).
  destruct (validateDeviceResources_cases rm0) as (H1 & H2 & H3).
  split; [done|]. split; [done|]. split; [exact H1|]. split; [|exact H3].
  rewrite H2. unfold presentOnHost. cbn [availableResources hostDevices hostGroups rm0].
  split; intros [Hne H]; (split; [done|]); intros d Hd; destruct (H d Hd) as [Hh Hg]; split.
  - intros x Hx. by apply contains_true, Hh.
  - intros x Hx. by apply contains_true, Hg.
  - intros x Hx. by apply contains_true, Hh.
  - intros x Hx. by apply contains_true, Hg.
Qed.

Definition hostWithCamera : Host :=
  mkHost (Ok ["/dev"; "/dev/video0"; "/dev/null"]) (Ok ["root"; "video"; ""])
    (Unmarshalled (mkAvailableResources [camera]) None).

Lemma New_validates_against_host_witness :
  ∃ rm, New hostWithCamera "resources.cfg" = Ok rm ∧ AreResourcesValid rm = None ∧
        hostGroups rm = ["root"; "video"; ""].
Proof.
  eexists. split; [reflexivity|].
  pose proof (New_validates_against_host hostWithCamera "resources.cfg" _ eq_refl)
    as (_ & Hg & _ & _ & [H | [H | H]]).
  - split; [exact H | reflexivity].
  - discriminate H.
  - discriminate H.
Defined.

(** *** Lookup of a declaration *)

(** X2. [RequestDeviceResourceByName] returns the first declaration, in
    the order of the configuration, whose name occurs within the name
    that is asked for. It fails, with the not-presented error, exactly
    when the name of no declaration occurs within it. *)
Theorem RequestDeviceResourceByName_first_match (rm : ResourceManager) (name : string) :
  match RequestDeviceResourceByName rm name with
  | Ok d =>
      ∃ before after, Devices (availableResources rm) = before ++ d :: after ∧
        Contains name (Name d) = true ∧
        ∀ d', d' ∈ before → Contains name (Name d') = false
  | Err e =>
      e = ErrNotPresented ∧
      ∀ d, d ∈ Devices (availableResources rm) → Contains name (Name d) = false
  end.
Proof.
  unfold RequestDeviceResourceByName, getAvailableDeviceByName.
  induction (Devices (availableResources rm)) as [|d0 devices IH]; simpl.
  - split; [done | intros d Hd; by apply elem_of_nil in Hd].
  - destruct (Contains name (Name d0)) eqn:E.
    + exists [], devices. split; [done|]. split; [done|].
      intros d' Hd'. by apply elem_of_nil in Hd'.
    + destruct (findDevice devices name) as [d|e].
      * destruct IH as (before & after & -> & Hc & Hb).
        exists (d0 :: before), after. split; [done|]. split; [done|].
        intros d' Hd'. apply elem_of_cons in Hd' as [-> | Hd']; [done | by apply Hb].
      * destruct IH as [-> H]. split; [done|].
        intros d Hd. apply elem_of_cons in Hd as [-> | Hd]; [done | by apply H].
Qed.

(** *** A grant and its release *)

Lemma contains_app (arr arr' : list string) (str : string) :
  contains (arr ++ arr') str = contains arr str || contains arr' str.
Proof.
  induction arr as [|a arr IH]; simpl; [done|].
  by destruct (Contains a str).
Qed.

Lemma removeFromSlice_last (arr : list string) (str : string) :
  str ∉ arr → removeFromSlice (arr ++ [str]) str = arr.
Proof.
  induction arr as [|a arr IH]; simpl; intros Hnot.
  - by rewrite String.eqb_refl.
  - apply not_elem_of_cons in Hnot as [Hne Hnot].
    assert (String.eqb a str = false) as -> by (apply String.eqb_neq; congruence).
    by rewrite IH.
Qed.

(** X3. A grant followed by its release leaves the holders as they were.
    When [RequestDevice] succeeds for a service that no holder of the
    device contains, the service is appended to the holders of that
    device; [ReleaseDevice] of the same device and service then
    succeeds, and afterwards every device has the holders it had before
    the request. *)
Theorem RequestDevice_then_ReleaseDevice (rm rm1 : ResourceManager)
    (device serviceID : string) :
  contains (listOfServices rm device) serviceID = false →
  RequestDevice device serviceID rm = (None, rm1) →
  listOfServices rm1 device = listOfServices rm device ++ [serviceID] ∧
  ∃ rm2, ReleaseDevice device serviceID rm1 = (None, rm2) ∧
         ∀ d, listOfServices rm2 d = listOfServices rm d.
Proof.
  intros Hnew. unfold RequestDevice, ReleaseDevice.
  destruct (isAvailableResourcesChecked rm) eqn:Echk; simpl; [|done].
  destruct (getAvailableDeviceByName rm device) as [d|e] eqn:Ed; [|done].
  destruct (_ || _); [|done]. rewrite Hnew. intros [= <-].
  rewrite listOfServices_set_eq. split; [done|].
  assert (H1 : isAvailableResourcesChecked
                 (setListOfServices rm device (listOfServices rm device ++ [serviceID]))
               = true) by exact Echk.
  assert (H2 : getAvailableDeviceByName
                 (setListOfServices rm device (listOfServices rm device ++ [serviceID])) device
               = Ok d) by exact Ed.
  rewrite H1, H2. simpl.
  rewrite contains_app. simpl. rewrite Contains_refl, orb_true_r.
  eexists. split; [reflexivity|]. intros d'.
  rewrite removeFromSlice_last.
  - destruct (decide (device = d')) as [<-|Hne].
    + by rewrite listOfServices_set_eq.
    + by rewrite !listOfServices_set_ne.
  - intros Hin. apply contains_elem in Hin. congruence.
Qed.

Lemma RequestDevice_then_ReleaseDevice_witness :
  ∃ rm2, ReleaseDevice "camera0" "service1"
           (snd (RequestDevice "camera0" "service1" (manager [camera]))) = (None, rm2) ∧
         ∀ d, listOfServices rm2 d = listOfServices (manager [camera]) d.
Proof.
  destruct (RequestDevice_then_ReleaseDevice (manager [camera])
              (snd (RequestDevice "camera0" "service1" (manager [camera])))
              "camera0" "service1" eq_refl eq_refl) as [_ H].
  exact H.
Defined.

(** *** No holder is recorded twice *)

Definition holdersResolve (rm : ResourceManager) : Prop :=
  ∀ device serviceID, serviceID ∈ listOfServices rm device →
    ∃ d, getAvailableDeviceByName rm device = Ok d.

Lemma step_holdersResolve (rm : ResourceManager) (op : Op) :
  holdersResolve rm → holdersResolve (step rm op).
Proof.
  intros Hinv device' s. unfold getAvailableDeviceByName.
  rewrite step_availableResources.
  destruct op as [device serviceID | device serviceID]; simpl.
  - unfold RequestDevice.
    destruct (negb (isAvailableResourcesChecked rm)); [apply Hinv|].
    destruct (getAvailableDeviceByName rm device) as [d|] eqn:Ed; [|apply Hinv].
    destruct (_ || _); [|apply Hinv].
    destruct (contains _ _); [apply Hinv|]. simpl.
    destruct (decide (device = device')) as [<-|Hne].
    + intros _. by exists d.
    + rewrite listOfServices_set_ne by done. apply Hinv.
  - unfold ReleaseDevice.
    destruct (negb (isAvailableResourcesChecked rm)); [apply Hinv|].
    destruct (getAvailableDeviceByName rm device) as [d|] eqn:Ed; [|apply Hinv].
    destruct (contains _ _); [|apply Hinv]. simpl.
    destruct (decide (device = device')) as [<-|Hne].
    + intros _. by exists d.
    + rewrite listOfServices_set_ne by done. apply Hinv.
Qed.

(** X4. Starting from a manager without holders, whatever requests and
    releases are made, no device has the same service twice among its
    holders, and a device name has holders only if the name of some
    declared device occurs within it. *)
Theorem holders_recorded_once (ops : list Op) (rm : ResourceManager) (device : string) :
  deviceWithServices rm = ∅ →
  NoDup (listOfServices (run ops rm) device) ∧
  (listOfServices (run ops rm) device ≠ [] →
   ∃ d, d ∈ Devices (availableResources rm) ∧ Contains device (Name d) = true).
Proof.
  intros Hempty. split; [by apply run_holdersNoDup|].
  assert (Hinv : holdersResolve (run ops rm)).
  { induction ops as [|op ops IH] using rev_ind.
    - intros dev s. unfold run, listOfServices; simpl.
      rewrite Hempty, lookup_empty. intros H. by apply elem_of_nil in H.
    - rewrite run_snoc. by apply step_holdersResolve. }
  intros Hne. destruct (listOfServices (run ops rm) device) as [|s l] eqn:El; [done|].
  destruct (Hinv device s) as [d Hd]; [rewrite El; left|].
  unfold getAvailableDeviceByName in Hd. rewrite run_availableResources in Hd.
  apply findDevice_Ok in Hd. by exists d.
Qed.

Lemma holders_recorded_once_witness :
  NoDup (listOfServices
           (run [Request "camera0" "service1"; Request "camera0" "service1";
                 Request "gps" "service1"] (manager [camera])) "camera0").
Proof.
  apply (holders_recorded_once _ (manager [camera]) "camera0" eq_refl).
Defined.

End ResourceManager.

(* ===================================================================== *)
(** * Package resourcemanager: the groups of the host *)
(* ===================================================================== *)

Module HostGroups.
Import GoStrings ResourceManager.
Import Stdlib.Strings.Ascii.

(** ** Reading the host groups *)

(** The results of the successive [reader.ReadString('\n')] calls on the
    text of a file: every line with its newline, and last what is left
    after the last newline (empty when the text ends with one), which
    is returned together with the error that ends the reading. *)
Fixpoint readStrings (text : string) : list string :=
  match text with
  | EmptyString => [""]
  | String c text' =>
      if Ascii.eqb c "010"%char then String c "" :: readStrings text'
      else match readStrings text' with
           | line :: lines => String c line :: lines
           | [] => [String c ""]
           end
  end.

(** The group file: [None] when [os.Open] fails with the given error,
    else its text and the error that ended the reading, [None] for
    [io.EOF]. *)
Record GroupFile : Type := mkGroupFile {
  opened : option error;
  text : string;
  readError : option error
}.

Definition groupsOf (lines : list string) : list string :=
  flat_map (fun line => if HasPrefix line "#" then [] else [firstField ":"%char line]) lines.

Definition discoverHostGroups (file : GroupFile) : list string * option error :=
  match opened file with
  | Some err => ([], Some err)
  | None => (groupsOf (readStrings (text file)), readError file)
  end.

(** The lines of a group file as they are written. *)
Inductive GroupLine : Type :=
| Comment (words : string)
| Group (name rest : string).

Definition newline : string := String "010"%char "".

Definition written (l : GroupLine) : string :=
  match l with
  | Comment words => "#" +:+ words +:+ newline
  | Group name rest => name +:+ ":" +:+ rest +:+ newline
  end.

Definition wellWritten (l : GroupLine) : Prop :=
  match l with
  | Comment words => hasByte "010"%char words = false
  | Group name rest =>
      hasByte "010"%char name = false ∧ hasByte ":"%char name = false ∧
      HasPrefix name "#" = false ∧ hasByte "010"%char rest = false
  end.

Definition namesOf (lines : list GroupLine) : list string :=
  flat_map (fun l => match l with Comment _ => [] | Group name _ => [name] end) lines.

Fixpoint textOf (lines : list GroupLine) : string :=
  match lines with
  | [] => ""
  | l :: lines' => written l +:+ textOf lines'
  end.

Lemma readStrings_line (line rest : string) :
  hasByte "010"%char line = false →
  readStrings (line +:+ newline +:+ rest) = (line +:+ newline) :: readStrings rest.
Proof.
  induction line as [|c line IH]; intros Hno.
  - reflexivity.
  - simpl in Hno. apply orb_false_iff in Hno as [Hc Hno].
    rewrite !append_cons. simpl. rewrite Hc, (IH Hno). reflexivity.
Qed.

Lemma groupsOf_written (l : GroupLine) (rest : string) :
  wellWritten l →
  groupsOf (readStrings (written l +:+ rest))
  = match l with Comment _ => [] | Group name _ => [name] end
    ++ groupsOf (readStrings rest).
Proof.
  destruct l as [words | name fields]; unfold written, wellWritten.
  - intros Hno.
    rewrite <- (append_assoc "#" words newline), append_assoc.
    rewrite readStrings_line by (by rewrite hasByte_app, Hno).
    unfold groupsOf at 1. cbn [flat_map].
    rewrite append_assoc.
    change (HasPrefix ("#" +:+ words +:+ newline) "#")
      with (String.prefix "" (words +:+ newline)).
    by destruct (words +:+ newline).
  - intros (Hnl & Hcolon & Hhash & Hfields).
    rewrite <- (append_assoc ":" fields newline), <- (append_assoc name), append_assoc.
    rewrite readStrings_line
      by (rewrite !hasByte_app, Hnl, Hfields; reflexivity).
    unfold groupsOf at 1. cbn [flat_map].
    rewrite !append_assoc.
    change (":" +:+ fields +:+ newline) with (String ":" (fields +:+ newline)).
    rewrite HasPrefix_app by done. by rewrite firstField_app.
Qed.

(** X5. On a group file in which every line ends with a newline, a
    comment line starts with [#] and a group line is a name without [:]
    followed by [:] and the other fields, [discoverHostGroups] returns
    the names of the group lines in their order, followed by one empty
    name for the empty rest after the last newline. When the file
    cannot be opened it returns no group and the error of [os.Open]. *)
Theorem discoverHostGroups_names (lines : list GroupLine) :
  (∀ l, l ∈ lines → wellWritten l) →
  discoverHostGroups (mkGroupFile None (textOf lines) None) = (namesOf lines ++ [""], None) ∧
  ∀ err, discoverHostGroups (mkGroupFile (Some err) (textOf lines) None) = ([], Some err).
Proof.
  intros Hwell. split; [|done]. unfold discoverHostGroups. simpl. f_equal.
  induction lines as [|l lines IH]; [reflexivity|].
  cbn [textOf namesOf flat_map]. rewrite groupsOf_written by (apply Hwell; left).
  rewrite IH; [by rewrite app_assoc|].
  intros l' Hl'. apply Hwell. by right.
Qed.

Lemma discoverHostGroups_names_witness :
  discoverHostGroups
    (mkGroupFile None
       (textOf [Comment " groups"; Group "root" "x:0:"; Group "video" "x:44:aos"]) None)
  = (["root"; "video"; ""], None).
Proof.
  apply (discoverHostGroups_names
           [Comment " groups"; Group "root" "x:0:"; Group "video" "x:44:aos"]).
  intros l Hl. repeat (apply elem_of_cons in Hl as [-> | Hl]; [by vm_compute|]).
  by apply elem_of_nil in Hl.
Defined.

End HostGroups.

(* ===================================================================== *)
(** * Package database: the services table *)
(* ===================================================================== *)

Module Database.

Inductive error : Type :=
| ErrNotExist                 (* servicemanager.ErrNotExist *)
| ErrConstraint               (* the PRIMARY KEY(id, aosVersion) is violated *).

Inductive result (A : Type) : Type :=
| Ok (a : A)
| Err (e : error).
Arguments Ok {A} a.
Arguments Err {A} e.

(** [servicemanager.ServiceInfo], one row of the table [services]. *)
Record ServiceInfo : Type := mkServiceInfo {
  ServiceID : string;
  AosVersion : Z;
  ServiceProvider : string;
  Description : string;
  ImagePath : string;
  GID : Z;
  ManifestDigest : list Byte.byte;
  IsActive : bool
}.

(** The table [services], its rows in the order a full scan visits them
    (the order of insertion). *)
Abbreviation Database := (list ServiceInfo).

(** [AddService]: INSERT; the primary key is (id, aosVersion). *)
Definition AddService (service : ServiceInfo) (db : Database) : option error * Database :=
  if existsb (fun r => String.eqb (ServiceID r) (ServiceID service)
                       && (AosVersion r =? AosVersion service)) db
  then (Some ErrConstraint, db)
  else (None, db ++ [service]).

(** [SELECT MAX(aosVersion) FROM services WHERE id = ?]: NULL ([None])
    when no row has that id. *)
Fixpoint maxVersion (db : Database) (serviceID : string) : option Z :=
  match db with
  | [] => None
  | r :: db' =>
      if String.eqb (ServiceID r) serviceID
      then match maxVersion db' serviceID with
           | None => Some (AosVersion r)
           | Some v => Some (Z.max (AosVersion r) v)
           end
      else maxVersion db' serviceID
  end.

(** [SELECT * FROM services WHERE aosVersion = v]: the outer query has no
    condition on [id]. A comparison with NULL selects no row. *)
Definition selectByVersion (db : Database) (v : option Z) : list ServiceInfo :=
  match v with
  | None => []
  | Some v => filter (fun r => AosVersion r = v) db
  end.

(** [GetService]: [QueryRow] scans the first row of the result, and
    [sql.ErrNoRows] becomes [ErrNotExist]. *)
Definition GetService (db : Database) (serviceID : string) : result ServiceInfo :=
  match selectByVersion db (maxVersion db serviceID) with
  | [] => Err ErrNotExist
  | service :: _ => Ok service
  end.

(** The rows in the order of their versions, the order in which the
    index of the primary key (id, aosVersion) gives the rows of one
    id. *)
Fixpoint insertByVersion (r : ServiceInfo) (l : list ServiceInfo) : list ServiceInfo :=
  match l with
  | [] => [r]
  | x :: l' =>
      if AosVersion r <=? AosVersion x then r :: x :: l' else x :: insertByVersion r l'
  end.

Definition sortByVersion (l : list ServiceInfo) : list ServiceInfo :=
  foldr insertByVersion [] l.

(** [GetAllServiceVersions]: SELECT * FROM services WHERE id = ?. The
    rows are found through the index of the primary key. *)
Definition GetAllServiceVersions (db : Database) (id : string) : list ServiceInfo :=
  sortByVersion (filter (fun r => ServiceID r = id) db).

(** ** Facts *)

Lemma maxVersion_None (db : Database) (serviceID : string) :
  maxVersion db serviceID = None ↔ ∀ r, r ∈ db → ServiceID r ≠ serviceID.
Proof.
  induction db as [|r db IH]; simpl.
  - split; [intros _ r Hr; by apply elem_of_nil in Hr | done].
  - destruct (String.eqb (ServiceID r) serviceID) eqn:E.
    + apply String.eqb_eq in E. split.
      * by destruct (maxVersion db serviceID).
      * intros H. exfalso. apply (H r); [left | done].
    + apply String.eqb_neq in E. rewrite IH. split.
      * intros H r' Hr'. apply elem_of_cons in Hr' as [-> | Hr']; [done | by apply H].
      * intros H r' Hr'. apply H. by right.
Qed.

Lemma maxVersion_Some (db : Database) (serviceID : string) (v : Z) :
  maxVersion db serviceID = Some v →
  (∃ r, r ∈ db ∧ ServiceID r = serviceID ∧ AosVersion r = v) ∧
  (∀ r, r ∈ db → ServiceID r = serviceID → AosVersion r ≤ v).
Proof.
  revert v. induction db as [|r db IH]; simpl; [done|]. intros v.
  destruct (String.eqb (ServiceID r) serviceID) eqn:E.
  - apply String.eqb_eq in E.
    destruct (maxVersion db serviceID) as [v'|] eqn:Em.
    + intros [= <-]. destruct (IH v' eq_refl) as [(r' & Hin & Hid & Hv) Hmax].
      split.
      * destruct (Z.max_spec (AosVersion r) v') as [[_ ->] | [_ ->]].
        -- exists r'. split; [by right | done].
        -- exists r. split; [left | done].
      * intros r0 Hr0 Hid0. apply elem_of_cons in Hr0 as [-> | Hr0]; [lia|].
        specialize (Hmax r0 Hr0 Hid0). lia.
    + intros [= <-]. split.
      * exists r. split; [left | done].
      * intros r0 Hr0 Hid0. apply elem_of_cons in Hr0 as [-> | Hr0]; [lia|].
        pose proof (proj1 (maxVersion_None _ _) Em) as Hn. by destruct (Hn r0 Hr0).
  - apply String.eqb_neq in E. intros Hm.
    destruct (IH v Hm) as [(r' & Hin & Hid & Hv) Hmax]. split.
    + exists r'. split; [by right | done].
    + intros r0 Hr0 Hid0. apply elem_of_cons in Hr0 as [-> | Hr0]; [done | by apply Hmax].
Qed.

(** The lookup of an id without rows gives [ErrNotExist], whatever other
    rows the table holds. *)
Lemma GetService_NotExist (db : Database) (serviceID : string) :
  (∀ r, r ∈ db → ServiceID r ≠ serviceID) →
  GetService db serviceID = Err ErrNotExist.
Proof.
  intros H. apply (proj2 (maxVersion_None _ _)) in H. unfold GetService. by rewrite H.
Qed.

(** A row is returned whenever the id has one, and the row returned
    carries the highest version stored for the id; its id is the first
    one stored with that version. *)
Lemma GetService_version (db : Database) (serviceID : string) (r : ServiceInfo) :
  r ∈ db → ServiceID r = serviceID →
  ∃ service, GetService db serviceID = Ok service ∧ service ∈ db ∧
    maxVersion db serviceID = Some (AosVersion service) ∧
    AosVersion r ≤ AosVersion service.
Proof.
  intros Hin Hid. unfold GetService.
  destruct (maxVersion db serviceID) as [v|] eqn:Em.
  - destruct (maxVersion_Some _ _ _ Em) as [(r' & Hin' & Hid' & Hv') Hmax]. simpl.
    destruct (filter (λ r0, AosVersion r0 = v) db) as [|s l] eqn:Ef.
    + assert (Hr' : r' ∈ filter (λ r0, AosVersion r0 = v) db)
        by (by apply list_elem_of_filter).
      rewrite Ef in Hr'. by apply elem_of_nil in Hr'.
    + assert (Hs : s ∈ filter (λ r0, AosVersion r0 = v) db) by (rewrite Ef; left).
      apply list_elem_of_filter in Hs as [Hsv Hsin].
      exists s. repeat split; [done | by rewrite Hsv | rewrite Hsv; by apply Hmax].
  - pose proof (proj1 (maxVersion_None _ _) Em) as Hn. by destruct (Hn r Hin).
Qed.

(** ** C8 *)

Definition service0v1 : ServiceInfo :=
  mkServiceInfo "service0" 1 "sp1" "" "to/service0" 5000 [] false.

Definition service1v1 : ServiceInfo :=
  mkServiceInfo "service1" 1 "sp1" "" "to/service1" 5001 [] false.

Definition twoServices : Database :=
  snd (AddService service1v1 (snd (AddService service0v1 []))).

(** C8 fails on the code: with "service0" and "service1" both stored at
    version 1, the lookup of "service1" returns the row of "service0".
    The outer SELECT compares [aosVersion] only. *)
Theorem GetService_returns_other_service :
  twoServices = [service0v1; service1v1] ∧
  GetAllServiceVersions twoServices "service1" = [service1v1] ∧
  GetService twoServices "service1" = Ok service0v1 ∧
  ServiceID service0v1 ≠ "service1".
Proof. repeat split; done. Qed.

(** ** The other statements on the table [services] *)

(** The row [r] has the id and version of [service]: the condition
    [WHERE id = ? AND aosVersion = ?]. *)
Definition sameKey (service r : ServiceInfo) : bool :=
  String.eqb (ServiceID r) (ServiceID service) && (AosVersion r =? AosVersion service).

(** [RemoveService]: DELETE; [executeQuery] reports no affected row as
    [ErrNotExist], which [RemoveService] turns into [nil]. *)
Definition RemoveService (service : ServiceInfo) (db : Database) : option error * Database :=
  (None, filter (fun r => sameKey service r = false) db).

(** [GetAllServices]: SELECT * FROM services. *)
Definition GetAllServices (db : Database) : list ServiceInfo := db.

Definition activated (r : ServiceInfo) : ServiceInfo :=
  mkServiceInfo (ServiceID r) (AosVersion r) (ServiceProvider r) (Description r)
    (ImagePath r) (GID r) (ManifestDigest r) true.

(** [ActivateService]: UPDATE services SET isActive = 1 WHERE id = ? AND
    aosVersion = ?; no affected row is [servicemanager.ErrNotExist]. *)
Definition ActivateService (service : ServiceInfo) (db : Database) : option error * Database :=
  if existsb (sameKey service) db
  then (None, map (fun r => if sameKey service r then activated r else r) db)
  else (Some ErrNotExist, db).

(** Sequences of statements. *)
Inductive Statement : Type :=
| Add (service : ServiceInfo)
| Remove (service : ServiceInfo)
| Activate (service : ServiceInfo).

Definition execute (db : Database) (s : Statement) : Database :=
  match s with
  | Add service => snd (AddService service db)
  | Remove service => snd (RemoveService service db)
  | Activate service => snd (ActivateService service db)
  end.

Definition key (r : ServiceInfo) : string * Z := (ServiceID r, AosVersion r).

Lemma sameKey_true (service r : ServiceInfo) :
  sameKey service r = true ↔ key r = key service.
Proof.
  unfold sameKey, key. rewrite andb_true_iff, String.eqb_eq, Z.eqb_eq.
  split; [by intros [-> ->] | by intros [= -> ->]].
Qed.

Lemma sameKey_false (service r : ServiceInfo) :
  sameKey service r = false ↔ key r ≠ key service.
Proof. rewrite <- not_true_iff_false, sameKey_true. done. Qed.

Lemma existsb_sameKey (service : ServiceInfo) (db : Database) :
  existsb (sameKey service) db = true ↔ key service ∈ map key db.
Proof.
  rewrite existsb_exists, list_elem_of_fmap. split.
  - intros (r & Hin & Hk). exists r. apply sameKey_true in Hk.
    split; [done | by apply list_elem_of_In].
  - intros (r & Hk & Hin). exists r. split; [by apply list_elem_of_In|].
    by apply sameKey_true.
Qed.

Lemma AddService_cases (service : ServiceInfo) (db : Database) :
  (key service ∈ map key db ∧ AddService service db = (Some ErrConstraint, db)) ∨
  ((key service ∉ map key db) ∧ AddService service db = (None, db ++ [service])).
Proof.
  unfold AddService.
  change (existsb _ db) with (existsb (sameKey service) db).
  destruct (existsb (sameKey service) db) eqn:E.
  - left. split; [by apply existsb_sameKey | done].
  - right. split; [|done]. intros H. apply existsb_sameKey in H. congruence.
Qed.

Lemma map_key_activate (service : ServiceInfo) (db : Database) :
  map key (map (fun r => if sameKey service r then activated r else r) db) = map key db.
Proof.
  induction db as [|r db IH]; simpl; [done|]. rewrite IH. f_equal.
  by destruct (sameKey service r).
Qed.

Lemma NoDup_map_filter (P : ServiceInfo → Prop) `{∀ r, Decision (P r)} (db : Database) :
  NoDup (map key db) → NoDup (map key (filter P db)).
Proof.
  induction db as [|r db IH]; simpl; [done|].
  intros Hnd. apply NoDup_cons in Hnd as [Hr Hnd].
  rewrite filter_cons. destruct (decide (P r)); [|by apply IH].
  simpl. apply NoDup_cons. split; [|by apply IH].
  intros Hin. apply Hr. apply list_elem_of_fmap in Hin as (r' & Hk & Hin).
  apply list_elem_of_filter in Hin as [_ Hin].
  apply list_elem_of_fmap. by exists r'.
Qed.

(** X6. Whatever sequence of [AddService], [RemoveService] and
    [ActivateService] runs on an empty table, no two rows of the table
    have the same id and version. *)
Theorem primary_key_kept (statements : list Statement) :
  NoDup (map key (foldl execute [] statements)).
Proof.
  induction statements as [|s statements IH] using rev_ind; [constructor|].
  rewrite foldl_app. simpl. set (db := foldl execute [] statements) in *.
  destruct s as [service | service | service]; simpl.
  - destruct (AddService_cases service db) as [[_ ->] | [Hnew ->]]; [done|]. simpl.
    rewrite map_app. apply NoDup_app. split; [done|]. split.
    + intros k Hk Hk'. apply list_elem_of_singleton in Hk' as ->. done.
    + apply NoDup_singleton.
  - by apply NoDup_map_filter.
  - unfold ActivateService. destruct (existsb _ db); [|done]. simpl.
    by rewrite map_key_activate.
Qed.

(** *** The order of the versions *)

Definition ascending (l : list ServiceInfo) : Prop :=
  StronglySorted Z.le (map AosVersion l).

Lemma elem_of_insertByVersion (x r : ServiceInfo) (l : list ServiceInfo) :
  x ∈ insertByVersion r l ↔ x = r ∨ x ∈ l.
Proof.
  induction l as [|y l IH]; simpl.
  - rewrite list_elem_of_singleton. split; [by left | intros [H|H]; [done|]].
    by apply elem_of_nil in H.
  - destruct (AosVersion r <=? AosVersion y).
    + by rewrite elem_of_cons.
    + rewrite !elem_of_cons, IH. tauto.
Qed.

Lemma insertByVersion_Permutation (r : ServiceInfo) (l : list ServiceInfo) :
  insertByVersion r l ≡ₚ r :: l.
Proof.
  induction l as [|y l IH]; simpl; [done|].
  destruct (AosVersion r <=? AosVersion y); [done|].
  rewrite IH. apply Permutation_swap.
Qed.

Lemma sortByVersion_Permutation (l : list ServiceInfo) : sortByVersion l ≡ₚ l.
Proof.
  induction l as [|y l IH]; simpl; [done|].
  by rewrite insertByVersion_Permutation, IH.
Qed.

Lemma insertByVersion_ascending (r : ServiceInfo) (l : list ServiceInfo) :
  ascending l → ascending (insertByVersion r l).
Proof.
  unfold ascending. induction l as [|y l IH]; simpl; intros Hl.
  - repeat constructor.
  - apply StronglySorted_inv in Hl as [Hl Hy].
    destruct (AosVersion r <=? AosVersion y) eqn:E; simpl.
    + apply Z.leb_le in E. constructor; [by constructor|].
      constructor; [done|]. eapply Forall_impl; [exact Hy|]. simpl. lia.
    + apply Z.leb_gt in E. constructor; [by apply IH|].
      apply Forall_forall. intros v Hv.
      apply list_elem_of_fmap in Hv as (x & -> & Hx).
      apply elem_of_insertByVersion in Hx as [-> | Hx]; [lia|].
      rewrite Forall_forall in Hy. apply Hy. apply list_elem_of_fmap. by exists x.
Qed.

Lemma sortByVersion_ascending (l : list ServiceInfo) : ascending (sortByVersion l).
Proof.
  induction l as [|y l IH]; simpl; [constructor|]. by apply insertByVersion_ascending.
Qed.

Lemma insertByVersion_first (r : ServiceInfo) (l : list ServiceInfo) :
  (∀ x, x ∈ l → AosVersion r ≤ AosVersion x) → insertByVersion r l = r :: l.
Proof.
  destruct l as [|y l]; [done|]. intros H. simpl.
  assert ((AosVersion r <=? AosVersion y) = true) as ->; [|done].
  apply Z.leb_le, H. left.
Qed.

(** A condition on the rows selects the same rows before and after they
    are put in the order of their versions. *)
Lemma filter_insertByVersion (P : ServiceInfo → Prop) `{∀ r, Decision (P r)}
    (r : ServiceInfo) (l : list ServiceInfo) :
  ascending l →
  filter P (insertByVersion r l)
  = if decide (P r) then insertByVersion r (filter P l) else filter P l.
Proof.
  unfold ascending. induction l as [|y l IH]; simpl; intros Hl.
  - rewrite filter_cons, filter_nil. by destruct (decide (P r)).
  - apply StronglySorted_inv in Hl as [Hl Hy].
    destruct (AosVersion r <=? AosVersion y) eqn:E.
    + apply Z.leb_le in E. rewrite (filter_cons _ r), (filter_cons _ y).
      destruct (decide (P r)); [|done].
      destruct (decide (P y)).
      * simpl. by assert ((AosVersion r <=? AosVersion y) = true) as -> by (by apply Z.leb_le).
      * rewrite insertByVersion_first; [done|].
        intros x Hx. apply list_elem_of_filter in Hx as [_ Hx].
        rewrite Forall_forall in Hy.
        assert (AosVersion y ≤ AosVersion x); [|lia].
        apply Hy. apply list_elem_of_fmap. by exists x.
    + rewrite (filter_cons _ y), (filter_cons _ y). destruct (decide (P y)).
      * rewrite (IH Hl). destruct (decide (P r)); [|done]. simpl. by rewrite E.
      * by rewrite (IH Hl).
Qed.

Lemma filter_sortByVersion (P : ServiceInfo → Prop) `{∀ r, Decision (P r)}
    (l : list ServiceInfo) :
  filter P (sortByVersion l) = sortByVersion (filter P l).
Proof.
  induction l as [|y l IH]; simpl; [done|].
  rewrite filter_insertByVersion by apply sortByVersion_ascending.
  rewrite filter_cons, IH. by destruct (decide (P y)).
Qed.

(** X7. [AddService] fails on the primary key, without changing the
    table, when the table has a row of the same id and version. When
    it has none, the service is added as the last row of the table, the
    versions [GetAllServiceVersions] returns for its id are the service
    and the versions returned before, and the versions of the other ids
    are as before. [GetAllServiceVersions] returns the versions of an
    id in ascending order, whatever the order in which they were
    added. *)
Theorem AddService_then_versions (service : ServiceInfo) (db : Database) :
  ((∃ r, r ∈ db ∧ ServiceID r = ServiceID service ∧ AosVersion r = AosVersion service) →
   AddService service db = (Some ErrConstraint, db)) ∧
  ((∀ r, r ∈ db → ServiceID r = ServiceID service → AosVersion r ≠ AosVersion service) →
   ∃ db', AddService service db = (None, db') ∧
     GetAllServices db' = GetAllServices db ++ [service] ∧
     GetAllServiceVersions db' (ServiceID service)
       ≡ₚ service :: GetAllServiceVersions db (ServiceID service) ∧
     ∀ id, id ≠ ServiceID service →
       GetAllServiceVersions db' id = GetAllServiceVersions db id) ∧
  (∀ id, StronglySorted Z.le (map AosVersion (GetAllServiceVersions db id))).
Proof.
  split; [|split; [|intros id; apply sortByVersion_ascending]].
  - intros (r & Hin & Hid & Hv).
    destruct (AddService_cases service db) as [[_ ->] | [Hnew _]]; [done|].
    exfalso. apply Hnew.
    apply list_elem_of_fmap. exists r. split; [|done]. unfold key. by rewrite Hid, Hv.
  - intros Hfree.
    destruct (AddService_cases service db) as [[Hin _] | [_ ->]].
    { exfalso. apply list_elem_of_fmap in Hin as (r & Hk & Hin). injection Hk as Hid Hv.
      by apply (Hfree r). }
    exists (db ++ [service]). split; [done|]. split; [done|].
    unfold GetAllServiceVersions. split.
    + rewrite filter_app, filter_cons, decide_True, filter_nil by done.
      rewrite !sortByVersion_Permutation. by rewrite <- Permutation_cons_append.
    + intros id Hne. rewrite filter_app, filter_cons, decide_False by done.
      by rewrite filter_nil, app_nil_r.
Qed.

(** X8. [RemoveService] never reports an error, also when there is
    nothing to remove. Afterwards the table holds the rows it held
    except those of the id and version of the service, and the same
    holds for the result of [GetAllServiceVersions] for every id; when
    no two rows share id and version, at most one row goes. *)
Theorem RemoveService_removes (service : ServiceInfo) (db : Database) :
  fst (RemoveService service db) = None ∧
  (∀ r, r ∈ snd (RemoveService service db) ↔
        r ∈ db ∧ (ServiceID r ≠ ServiceID service ∨ AosVersion r ≠ AosVersion service)) ∧
  (∀ id, GetAllServiceVersions (snd (RemoveService service db)) id
         = filter (fun r => ServiceID r ≠ ServiceID service ∨
                            AosVersion r ≠ AosVersion service)
                  (GetAllServiceVersions db id)) ∧
  (NoDup (map key db) → (length db ≤ S (length (snd (RemoveService service db))))%nat).
Proof.
  assert (Hkey : ∀ r, sameKey service r = false ↔
            ServiceID r ≠ ServiceID service ∨ AosVersion r ≠ AosVersion service).
  { intros r. rewrite sameKey_false. unfold key. split.
    - intros H. destruct (decide (ServiceID r = ServiceID service)) as [Hid|Hid]; [|by left].
      right. intros Hv. apply H. by rewrite Hid, Hv.
    - intros [H|H] [= Hid Hv]; done. }
  split; [done|]. split; [|split].
  - intros r. unfold RemoveService. simpl. rewrite list_elem_of_filter, Hkey. tauto.
  - intros id. unfold RemoveService, GetAllServiceVersions. simpl.
    rewrite filter_sortByVersion. f_equal.
    rewrite !list_filter_filter. apply list_filter_iff. intros r. rewrite Hkey. tauto.
  - intros Hnd. unfold RemoveService. simpl. clear Hkey.
    induction db as [|r db IH]; simpl; [lia|].
    apply NoDup_cons in Hnd as [Hr Hnd]. rewrite filter_cons.
    destruct (decide (sameKey service r = false)) as [E|E].
    + simpl. specialize (IH Hnd). lia.
    + apply not_false_iff_true, sameKey_true in E.
      assert (Hall : filter (λ r0, sameKey service r0 = false) db = db).
      { clear IH Hnd. induction db as [|r' db IH]; [done|].
        rewrite filter_cons. apply not_elem_of_cons in Hr as [Hne Hr].
        rewrite decide_True by (apply sameKey_false; congruence).
        by rewrite IH. }
      rewrite Hall. lia.
Qed.

(** X9. [ActivateService] fails with [ErrNotExist], without changing the
    table, when no row has the id and version of the service.
    Otherwise it succeeds, the rows of that id and version become
    active with their other fields kept, and every other row stays as
    it is, at its place. *)
Theorem ActivateService_sets_isActive (service : ServiceInfo) (db : Database) :
  ((∀ r, r ∈ db → ServiceID r = ServiceID service → AosVersion r ≠ AosVersion service) →
   ActivateService service db = (Some ErrNotExist, db)) ∧
  ((∃ r, r ∈ db ∧ ServiceID r = ServiceID service ∧ AosVersion r = AosVersion service) →
   ∃ db', ActivateService service db = (None, db') ∧
     length db' = length db ∧
     ∀ i r, db !! i = Some r →
       (ServiceID r = ServiceID service → AosVersion r = AosVersion service →
          db' !! i = Some (activated r)) ∧
       (ServiceID r ≠ ServiceID service ∨ AosVersion r ≠ AosVersion service →
          db' !! i = Some r)).
Proof.
  unfold ActivateService. destruct (existsb (sameKey service) db) eqn:E.
  - apply existsb_sameKey, list_elem_of_fmap in E as (r0 & Hk & Hin0).
    injection Hk as Hid0 Hv0. split.
    + intros Hfree. exfalso. by apply (Hfree r0).
    + intros _. eexists. split; [reflexivity|]. split; [by rewrite length_map|].
      intros i r Hi. rewrite list_lookup_fmap, Hi. simpl. split.
      * intros Hid Hv.
        assert (sameKey service r = true) as ->; [|done].
        apply sameKey_true. unfold key. by rewrite Hid, Hv.
      * intros Hne.
        assert (sameKey service r = false) as ->; [|done].
        apply sameKey_false. intros [= Hid Hv]. by destruct Hne.
  - split; [done|]. intros (r & Hin & Hid & Hv). exfalso.
    assert (H : existsb (sameKey service) db = true); [|congruence].
    apply existsb_sameKey, list_elem_of_fmap. exists r. split; [|done].
    unfold key. by rewrite Hid, Hv.
Qed.

(** X10. [GetService] answers [ErrNotExist] exactly when the table has no
    row of the id. When every row that carries the highest version of
    the id belongs to the id, it returns a row of the table of that id
    whose version is at least the version of every row of the id. *)
Theorem GetService_latest (db : Database) (serviceID : string) :
  (GetService db serviceID = Err ErrNotExist ↔ ∀ r, r ∈ db → ServiceID r ≠ serviceID) ∧
  ((∀ r', r' ∈ db → maxVersion db serviceID = Some (AosVersion r') →
      ServiceID r' = serviceID) →
   ∀ r, r ∈ db → ServiceID r = serviceID →
     ∃ service, GetService db serviceID = Ok service ∧ service ∈ db ∧
       ServiceID service = serviceID ∧
       ∀ r', r' ∈ db → ServiceID r' = serviceID → AosVersion r' ≤ AosVersion service).
Proof.
  split.
  - split; [|apply GetService_NotExist].
    intros Herr r Hin Hid.
    destruct (GetService_version db serviceID r Hin Hid) as (service & Hget & _).
    congruence.
  - intros Hown r Hin Hid.
    destruct (GetService_version db serviceID r Hin Hid) as (service & Hget & Hsin & Hmax & _).
    exists service. split; [done|]. split; [done|].
    destruct (maxVersion_Some _ _ _ Hmax) as [(r0 & Hin0 & Hid0 & Hv0) Hle].
    split; [by apply Hown|]. exact Hle.
Qed.

Lemma GetService_latest_witness :
  ∃ service, GetService [service0v1; mkServiceInfo "service1" 2 "sp1" "" "" 5001 [] false;
                         service1v1] "service1" = Ok service ∧
             AosVersion service = 2.
Proof.
  destruct (GetService_latest [service0v1; mkServiceInfo "service1" 2 "sp1" "" "" 5001 [] false;
                               service1v1] "service1") as [_ H].
  destruct (H ltac:(intros r' Hr' Hmax;
                    repeat (apply elem_of_cons in Hr' as [-> | Hr']; [try done|]);
                    by apply elem_of_nil in Hr')
              service1v1 ltac:(set_solver) eq_refl) as (service & Hget & _).
  exists service. split; [exact Hget|]. by injection Hget as <-.
Defined.

End Database.

(* ===================================================================== *)
(** * Package database: the table of traffic data *)
(* ===================================================================== *)

Module TrafficMonitor.

Inductive error : Type :=
| ErrNotExist                 (* ErrNotExist of the package *)
| ErrConstraint               (* the PRIMARY KEY chain is violated *)
| ErrHighBit                  (* database/sql: uint64 values with high bit set
                                 are not supported *).

Inductive result (A : Type) : Type :=
| Ok (a : A)
| Err (e : error).
Arguments Ok {A} a.
Arguments Err {A} e.

(** One row of the table [trafficmonitor]: the chain, which is the
    primary key, the instant of the time stamp and the counter, which
    the column holds as a signed 64-bit integer. *)
Record TrafficRow : Type := mkTrafficRow {
  chain : string;
  time : Z;
  value : Z
}.

Abbreviation Traffic := (list TrafficRow).

Definition ofChain (c : string) (r : TrafficRow) : bool := String.eqb (chain r) c.

(** INSERT INTO trafficmonitor VALUES(?, ?, ?) *)
Definition insertTraffic (row : TrafficRow) (tbl : Traffic) : option error * Traffic :=
  if existsb (ofChain (chain row)) tbl then (Some ErrConstraint, tbl)
  else (None, tbl ++ [row]).

(** UPDATE trafficmonitor SET time = ?, value = ? where chain = ?: the
    number of rows affected and the table afterwards. *)
Definition updateTraffic (c : string) (timestamp v : Z) (tbl : Traffic) : nat * Traffic :=
  (length (filter (fun r => ofChain c r = true) tbl),
   map (fun r => if ofChain c r then mkTrafficRow (chain r) timestamp v else r) tbl).

(** [SetTrafficMonitorData]: [value] is a [uint64], which [Exec] converts
    before it runs the statement and refuses from [1 << 63] on; the row
    is inserted when the update affected none. *)
Definition SetTrafficMonitorData (c : string) (timestamp v : Z) (tbl : Traffic)
    : option error * Traffic :=
  if 2 ^ 63 <=? v then (Some ErrHighBit, tbl)
  else
    let '(count, tbl') := updateTraffic c timestamp v tbl in
    if (count =? 0)%nat then insertTraffic (mkTrafficRow c timestamp v) tbl'
    else (None, tbl').

(** [GetTrafficMonitorData]: SELECT time, value FROM trafficmonitor WHERE
    chain = ?; [sql.ErrNoRows] becomes [ErrNotExist]. *)
Definition GetTrafficMonitorData (c : string) (tbl : Traffic) : result (Z * Z) :=
  match find (ofChain c) tbl with
  | Some r => Ok (time r, value r)
  | None => Err ErrNotExist
  end.

(** [RemoveTrafficMonitorData]: DELETE FROM trafficmonitor WHERE chain = ?;
    the number of rows affected is not looked at. *)
Definition RemoveTrafficMonitorData (c : string) (tbl : Traffic) : option error * Traffic :=
  (None, filter (fun r => ofChain c r = false) tbl).

(** ** Facts *)

Lemma updateTraffic_count (c : string) (timestamp v : Z) (tbl : Traffic) :
  fst (updateTraffic c timestamp v tbl) = 0%nat ↔ existsb (ofChain c) tbl = false.
Proof.
  unfold updateTraffic. simpl. induction tbl as [|r tbl IH]; simpl; [done|].
  rewrite filter_cons. destruct (decide (ofChain c r = true)) as [E|E].
  - rewrite E. simpl. split; done.
  - apply not_true_iff_false in E. rewrite E. exact IH.
Qed.

Lemma existsb_updateTraffic (c c' : string) (timestamp v : Z) (tbl : Traffic) :
  existsb (ofChain c') (snd (updateTraffic c timestamp v tbl)) = existsb (ofChain c') tbl.
Proof.
  unfold updateTraffic. simpl. induction tbl as [|r tbl IH]; simpl; [done|].
  rewrite IH. f_equal. by destruct (ofChain c r).
Qed.

Lemma find_updateTraffic (c c' : string) (timestamp v : Z) (tbl : Traffic) :
  find (ofChain c') (snd (updateTraffic c timestamp v tbl))
  = if String.eqb c c'
    then (fun r => mkTrafficRow (chain r) timestamp v) <$> find (ofChain c') tbl
    else find (ofChain c') tbl.
Proof.
  unfold updateTraffic, ofChain. simpl. induction tbl as [|r tbl IH]; simpl.
  - by destruct (String.eqb c c').
  - destruct (String.eqb (chain r) c) eqn:E; simpl.
    + apply String.eqb_eq in E. subst c.
      destruct (String.eqb (chain r) c') eqn:E'; [done | exact IH].
    + destruct (String.eqb (chain r) c') eqn:E'; [|exact IH].
      apply String.eqb_eq in E'. subst c'. rewrite String.eqb_sym, E. done.
Qed.

Lemma find_app_ofChain (c : string) (tbl : Traffic) (row : TrafficRow) :
  find (ofChain c) (tbl ++ [row])
  = match find (ofChain c) tbl with
    | Some r => Some r
    | None => if ofChain c row then Some row else None
    end.
Proof.
  induction tbl as [|r tbl IH]; simpl; [done|]. by destruct (ofChain c r).
Qed.

Lemma find_ofChain_None (c : string) (tbl : Traffic) :
  find (ofChain c) tbl = None ↔ existsb (ofChain c) tbl = false.
Proof.
  induction tbl as [|r tbl IH]; simpl; [done|]. by destruct (ofChain c r).
Qed.

Lemma find_removed (c c' : string) (tbl : Traffic) :
  find (ofChain c') (filter (λ r, ofChain c r = false) tbl)
  = if String.eqb c c' then None else find (ofChain c') tbl.
Proof.
  induction tbl as [|r tbl IH]; simpl.
  - by destruct (String.eqb c c').
  - rewrite filter_cons. destruct (decide (ofChain c r = false)) as [E|E].
    + simpl. rewrite IH. unfold ofChain in *.
      destruct (String.eqb (chain r) c') eqn:E'; [|done].
      apply String.eqb_eq in E'. subst c'. by rewrite String.eqb_sym, E.
    + rewrite IH. apply not_false_iff_true in E. unfold ofChain in *.
      apply String.eqb_eq in E. subst c.
      by destruct (String.eqb (chain r) c').
Qed.

(** X11. Traffic data that is set for a chain is what is read back for
    it: for a counter below [2 ^ 63], [SetTrafficMonitorData] succeeds
    whether or not the chain has a row, [GetTrafficMonitorData] then
    returns the time stamp and the counter just set, and the data of
    every other chain is as before. A counter from [2 ^ 63] on is refused
    and the table is left as it was. After [RemoveTrafficMonitorData],
    which never fails, the chain has no data ([ErrNotExist]) and the
    other chains keep theirs. *)
Theorem traffic_data_round_trip (c : string) (timestamp v : Z) (tbl : Traffic) :
  (v < 2 ^ 63 →
     fst (SetTrafficMonitorData c timestamp v tbl) = None ∧
     GetTrafficMonitorData c (snd (SetTrafficMonitorData c timestamp v tbl))
       = Ok (timestamp, v) ∧
     ∀ c', c' ≠ c →
       GetTrafficMonitorData c' (snd (SetTrafficMonitorData c timestamp v tbl))
       = GetTrafficMonitorData c' tbl) ∧
  (2 ^ 63 ≤ v → SetTrafficMonitorData c timestamp v tbl = (Some ErrHighBit, tbl)) ∧
  fst (RemoveTrafficMonitorData c tbl) = None ∧
  GetTrafficMonitorData c (snd (RemoveTrafficMonitorData c tbl)) = Err ErrNotExist ∧
  (∀ c', c' ≠ c →
     GetTrafficMonitorData c' (snd (RemoveTrafficMonitorData c tbl))
     = GetTrafficMonitorData c' tbl).
Proof.
  split; [|split; [|split; [done|split]]].
  - intros Hv. unfold SetTrafficMonitorData.
    assert ((2 ^ 63 <=? v) = false) as -> by (apply Z.leb_gt; exact Hv).
    destruct (updateTraffic c timestamp v tbl) as [count tbl'] eqn:Eu.
    assert (Hcount : count = fst (updateTraffic c timestamp v tbl)) by (by rewrite Eu).
    assert (Htbl : tbl' = snd (updateTraffic c timestamp v tbl)) by (by rewrite Eu).
    unfold GetTrafficMonitorData.
    destruct (count =? 0)%nat eqn:Ec.
    + apply Nat.eqb_eq in Ec. rewrite Hcount in Ec. apply updateTraffic_count in Ec.
      unfold insertTraffic. cbn [chain]. rewrite Htbl, existsb_updateTraffic, Ec. cbn [fst snd].
      split; [done|]. split.
      * rewrite find_app_ofChain, find_updateTraffic, String.eqb_refl.
        apply find_ofChain_None in Ec. rewrite Ec. simpl.
        unfold ofChain. simpl. by rewrite String.eqb_refl.
      * intros c' Hne. rewrite find_app_ofChain, find_updateTraffic.
        assert (String.eqb c c' = false) as -> by (apply String.eqb_neq; congruence).
        unfold ofChain at 2. simpl.
        assert (String.eqb c c' = false) as -> by (apply String.eqb_neq; congruence).
        by destruct (find (ofChain c') tbl).
    + apply Nat.eqb_neq in Ec. rewrite Hcount, updateTraffic_count in Ec.
      apply not_false_iff_true in Ec. cbn [fst snd].
      split; [done|]. split.
      * rewrite Htbl, find_updateTraffic, String.eqb_refl.
        destruct (find (ofChain c) tbl) as [r|] eqn:Ef; [done|].
        apply find_ofChain_None in Ef. congruence.
      * intros c' Hne. rewrite Htbl, find_updateTraffic.
        by assert (String.eqb c c' = false) as -> by (apply String.eqb_neq; congruence).
  - intros Hv. unfold SetTrafficMonitorData.
    by assert ((2 ^ 63 <=? v) = true) as -> by (apply Z.leb_le; exact Hv).
  - unfold GetTrafficMonitorData, RemoveTrafficMonitorData. cbn [snd].
    by rewrite find_removed, String.eqb_refl.
  - intros c' Hne. unfold GetTrafficMonitorData, RemoveTrafficMonitorData. cbn [snd].
    rewrite find_removed.
    by assert (String.eqb c c' = false) as -> by (apply String.eqb_neq; congruence).
Qed.

End TrafficMonitor.

(* ===================================================================== *)
(** * servicemanager.go: processAmqpMessage *)
(* ===================================================================== *)

Module Reconcile.

(** The fields of [amqp.ServiceInfo] and [amqp.ServiceInfoFromCloud] that
    [processAmqpMessage] reads. [Version] is a [uint64], only compared. *)
Record ServiceInfo : Type := mkServiceInfo {
  ID : string;
  Version : Z;
  Status : string
}.

Record ServiceInfoFromCloud : Type := mkServiceInfoFromCloud {
  cloudID : string;
  cloudVersion : Z
}.

(** What the function asks of the launcher. *)
Inductive Action : Type :=
| InstallService (serviceInfo : ServiceInfoFromCloud)
| RemoveService (id : string).

Inductive Message : Type :=
| ServicesFromCloud (data : list ServiceInfoFromCloud)
| Unsupported.

(** [serviceDesc]: two pointers, here addresses into [Memory]; [None] is
    the nil pointer. *)
Record serviceDesc : Type := mkServiceDesc {
  serviceInfo : option nat;
  serviceInfoFromCloud : option nat
}.

(** The variables whose address the loops take: [infoCells] holds the
    [serviceInfo] variables of the first loop, [cloudCells] the
    [serviceInfoFromCloud] variables of the second. *)
Record Memory : Type := mkMemory {
  infoCells : gmap nat ServiceInfo;
  cloudCells : gmap nat ServiceInfoFromCloud
}.

Section Loops.

(** [loopVar i]: the address of the loop variable in iteration [i]. *)
Variable loopVar : nat → nat.

(** [for _, serviceInfo := range currentList {
       servicesMap[serviceInfo.ID] = &serviceDesc{serviceInfo: &serviceInfo} }] *)
Fixpoint rangeCurrent (i : nat) (currentList : list ServiceInfo)
    (mem : Memory) (servicesMap : gmap string serviceDesc)
    : Memory * gmap string serviceDesc :=
  match currentList with
  | [] => (mem, servicesMap)
  | info :: rest =>
      let a := loopVar i in
      let mem' := mkMemory (<[a := info]> (infoCells mem)) (cloudCells mem) in
      rangeCurrent (S i) rest mem'
        (<[ID info := mkServiceDesc (Some a) None]> servicesMap)
  end.

(** [for _, serviceInfoFromCloud := range data {
       if _, ok := servicesMap[id]; !ok { servicesMap[id] = &serviceDesc{} }
       servicesMap[id].serviceInfoFromCloud = &serviceInfoFromCloud }] *)
Fixpoint rangeData (i : nat) (data : list ServiceInfoFromCloud)
    (mem : Memory) (servicesMap : gmap string serviceDesc)
    : Memory * gmap string serviceDesc :=
  match data with
  | [] => (mem, servicesMap)
  | fromCloud :: rest =>
      let a := loopVar i in
      let mem' := mkMemory (infoCells mem) (<[a := fromCloud]> (cloudCells mem)) in
      let desc := default (mkServiceDesc None None) (servicesMap !! cloudID fromCloud) in
      rangeData (S i) rest mem'
        (<[cloudID fromCloud := mkServiceDesc (serviceInfo desc) (Some a)]> servicesMap)
  end.

(** The body of [for _, service := range servicesMap], the pointers read
    through the memory as it is after both loops. *)
Definition visit (mem : Memory) (service : serviceDesc) : list Action :=
  match serviceInfoFromCloud service, serviceInfo service with
  | Some pc, Some pi =>
      match cloudCells mem !! pc, infoCells mem !! pi with
      | Some fromCloud, Some info =>
          if Version info <? cloudVersion fromCloud
          then [InstallService fromCloud] else []
      | _, _ => []
      end
  | Some pc, None =>
      match cloudCells mem !! pc with
      | Some fromCloud => [InstallService fromCloud]
      | None => []
      end
  | None, Some pi =>
      match infoCells mem !! pi with
      | Some info => [RemoveService (ID info)]
      | None => []
      end
  | None, None => []
  end.

(** [processAmqpMessage]: the calls made on the launcher and the error
    returned. [getServicesInfo] is the result of
    [launcherHandler.GetServicesInfo()]. Go visits the map in an order
    of its own choosing; here it is the order of [map_to_list]. *)
Definition processWith (getServicesInfo : string + list ServiceInfo) (message : Message)
    : list Action * option string :=
  match message with
  | ServicesFromCloud data =>
      match getServicesInfo with
      | inl err => ([], Some err)
      | inr currentList =>
          let '(mem1, map1) := rangeCurrent 0 currentList (mkMemory ∅ ∅) ∅ in
          let '(mem2, map2) := rangeData 0 data mem1 map1 in
          (flat_map (fun kv => visit mem2 (snd kv)) (map_to_list map2), None)
      end
  | Unsupported => ([], None)
  end.

End Loops.

(** Before Go 1.22 (the repository builds with golang:1.20 and, earlier,
    from GOPATH) a [for ... range] loop has one variable for all its
    iterations, so every [&serviceInfo] is the same address. *)
Definition processAmqpMessage := processWith (fun _ => 0%nat).

(** With a variable per iteration, as the loops read. *)
Definition processAmqpMessagePerIteration := processWith (fun i => i).

(** ** C9 *)

Definition A1 : ServiceInfo := mkServiceInfo "A" 1 "OK".
Definition B2 : ServiceInfo := mkServiceInfo "B" 2 "OK".

Definition desired : list ServiceInfoFromCloud :=
  [mkServiceInfoFromCloud "A" 1; mkServiceInfoFromCloud "B" 2].

(** C9 fails on the code. Services A (version 1) and B (version 2) are
    installed and the cloud sends the same two versions, B last, while
    the stored list ends with A. Every map entry then points at the last
    element of each list, version 2 is compared with version 1, and an
    install of B is requested twice. The same happens one step earlier:
    with nothing installed the first pass requests B twice and A never,
    and the second pass, B installed, requests B again. *)
Theorem processAmqpMessage_reinstalls :
  processAmqpMessage (inr [B2; A1]) (ServicesFromCloud desired)
    = ([InstallService (mkServiceInfoFromCloud "B" 2);
        InstallService (mkServiceInfoFromCloud "B" 2)], None) ∧
  processAmqpMessage (inr []) (ServicesFromCloud desired)
    = ([InstallService (mkServiceInfoFromCloud "B" 2);
        InstallService (mkServiceInfoFromCloud "B" 2)], None) ∧
  processAmqpMessage (inr [B2]) (ServicesFromCloud desired)
    = ([InstallService (mkServiceInfoFromCloud "B" 2)], None).
Proof. repeat split; vm_compute; reflexivity. Qed.

(** With a variable per iteration the same inputs give what C9 says. *)
Lemma processAmqpMessagePerIteration_quiet :
  processAmqpMessagePerIteration (inr [B2; A1]) (ServicesFromCloud desired) = ([], None).
Proof. vm_compute. reflexivity. Qed.

(** ** What one loop variable per loop means for every message *)

(** Every pointer stored in the map is nil or the address of the loop
    variable. *)
Definition pointsAtLoopVariable (d : serviceDesc) : Prop :=
  (serviceInfo d = None ∨ serviceInfo d = Some 0%nat) ∧
  (serviceInfoFromCloud d = None ∨ serviceInfoFromCloud d = Some 0%nat).

Lemma rangeCurrent_last (i : nat) (currentList : list ServiceInfo) (mem : Memory)
    (servicesMap : gmap string serviceDesc) :
  let r := rangeCurrent (fun _ => 0%nat) i currentList mem servicesMap in
  infoCells (fst r) !! 0%nat
    = match last currentList with Some info => Some info | None => infoCells mem !! 0%nat end ∧
  cloudCells (fst r) = cloudCells mem ∧
  (map_Forall (fun _ d => pointsAtLoopVariable d) servicesMap →
   map_Forall (fun _ d => pointsAtLoopVariable d) (snd r)).
Proof.
  revert i mem servicesMap.
  induction currentList as [|info rest IH]; intros i mem servicesMap; [done|].
  cbn [rangeCurrent]. cbv zeta.
  specialize (IH (S i) (mkMemory (<[0%nat := info]> (infoCells mem)) (cloudCells mem))
                (<[ID info := mkServiceDesc (Some 0%nat) None]> servicesMap)).
  cbv zeta in IH. destruct IH as (IH1 & IH2 & IH3).
  split; [|split; [done|]].
  - rewrite IH1. cbn [infoCells]. rewrite lookup_insert_eq.
    destruct rest as [|info' rest']; [done|].
    change (last (info :: info' :: rest')) with (last (info' :: rest')).
    destruct (last (info' :: rest')) eqn:E; [done | by apply last_None in E].
  - intros Hall. apply IH3. apply map_Forall_insert_2; [|done].
    split; [by right | by left].
Qed.

Lemma rangeData_last (i : nat) (data : list ServiceInfoFromCloud) (mem : Memory)
    (servicesMap : gmap string serviceDesc) :
  let r := rangeData (fun _ => 0%nat) i data mem servicesMap in
  cloudCells (fst r) !! 0%nat
    = match last data with Some c => Some c | None => cloudCells mem !! 0%nat end ∧
  infoCells (fst r) = infoCells mem ∧
  (map_Forall (fun _ d => pointsAtLoopVariable d) servicesMap →
   map_Forall (fun _ d => pointsAtLoopVariable d) (snd r)).
Proof.
  revert i mem servicesMap.
  induction data as [|c rest IH]; intros i mem servicesMap; [done|].
  cbn [rangeData]. cbv zeta.
  match goal with |- context [rangeData _ (S i) rest ?m ?s] => specialize (IH (S i) m s) end.
  cbv zeta in IH. destruct IH as (IH1 & IH2 & IH3).
  split; [|split; [done|]].
  - rewrite IH1. cbn [cloudCells]. rewrite lookup_insert_eq.
    destruct rest as [|c' rest']; [done|].
    change (last (c :: c' :: rest')) with (last (c' :: rest')).
    destruct (last (c' :: rest')) eqn:E; [done | by apply last_None in E].
  - intros Hall. apply IH3. apply map_Forall_insert_2; [|done].
    split; [|by right]. cbn [serviceInfo].
    destruct (servicesMap !! cloudID c) as [d|] eqn:Ed; simpl; [|by left].
    by destruct (Hall _ _ Ed).
Qed.

(** X27. On a list of services from the cloud, [processAmqpMessage]
    returns no error, and every call it makes on the launcher is an
    [InstallService] of the last entry of the message or a
    [RemoveService] of the id of the last entry of the list of installed
    services, whichever ids the entries of the two lists have. *)
Theorem processAmqpMessage_asks_for_last_entries (currentList : list ServiceInfo)
    (data : list ServiceInfoFromCloud) :
  snd (processAmqpMessage (inr currentList) (ServicesFromCloud data)) = None ∧
  ∀ action, action ∈ fst (processAmqpMessage (inr currentList) (ServicesFromCloud data)) →
    (∃ fromCloud, last data = Some fromCloud ∧ action = InstallService fromCloud) ∨
    (∃ info, last currentList = Some info ∧ action = RemoveService (ID info)).
Proof.
  unfold processAmqpMessage, processWith.
  pose proof (rangeCurrent_last 0 currentList (mkMemory ∅ ∅) ∅) as H1. cbv zeta in H1.
  destruct (rangeCurrent (λ _, 0%nat) 0 currentList (mkMemory ∅ ∅) ∅) as [mem1 map1].
  pose proof (rangeData_last 0 data mem1 map1) as H2. cbv zeta in H2.
  destruct (rangeData (λ _, 0%nat) 0 data mem1 map1) as [mem2 map2].
  cbn [fst snd] in *. destruct H1 as (Hinfo & Hcloud1 & Hmap1).
  destruct H2 as (Hcloud & Hinfo2 & Hmap2).
  specialize (Hmap1 (map_Forall_empty _)). specialize (Hmap2 Hmap1).
  rewrite Hcloud1 in Hcloud. cbn [cloudCells infoCells] in *.
  rewrite lookup_empty in Hcloud. rewrite lookup_empty in Hinfo. rewrite <- Hinfo2 in Hinfo.
  split; [done|]. intros action Hin.
  apply list_elem_of_In, in_flat_map in Hin as ([k d] & Hkd & Hin).
  apply list_elem_of_In, elem_of_map_to_list in Hkd. apply list_elem_of_In in Hin.
  destruct (Hmap2 _ _ Hkd) as [Hi Hc]. cbn [snd] in Hin. unfold visit in Hin.
  destruct d as [pi pc]. cbn [serviceInfo serviceInfoFromCloud] in *.
  destruct Hc as [Hc | Hc], Hi as [Hi | Hi]; subst pi pc.
  - by apply elem_of_nil in Hin.
  - rewrite Hinfo in Hin. destruct (last currentList) as [info|]; [|by apply elem_of_nil in Hin].
    apply list_elem_of_singleton in Hin. right. by exists info.
  - rewrite Hcloud in Hin. destruct (last data) as [c|]; [|by apply elem_of_nil in Hin].
    apply list_elem_of_singleton in Hin. left. by exists c.
  - rewrite Hcloud, Hinfo in Hin.
    destruct (last data) as [c|]; [|by apply elem_of_nil in Hin].
    destruct (last currentList) as [info|]; [|by apply elem_of_nil in Hin].
    destruct (Version info <? cloudVersion c); [|by apply elem_of_nil in Hin].
    apply list_elem_of_singleton in Hin. left. by exists c.
Qed.

End Reconcile.

(* ===================================================================== *)
(** * Package launcher: install and uninstall actions *)
(* ===================================================================== *)

Module Launcher.
Import GoStrings.

(** ** Data *)

(** The errors the launcher creates, the two errors of the service
    provider (the database), and [ErrExternal] for an error of any other
    collaborator. [Error] is the message, as Go's [err.Error()]. *)
Inductive error : Type :=
| ErrUsersNotSet
| ErrVersionMismatch
| ErrWrongDataType
| ErrNotExist
| ErrConstraint
| ErrExternal (msg : string).

Definition Error (e : error) : string :=
  match e with
  | ErrUsersNotSet => "users are not set"
  | ErrVersionMismatch => "version mistmatch"
  | ErrWrongDataType => "wrong data type"
  | ErrNotExist => "entry doesn't not exist"
  | ErrConstraint => "UNIQUE constraint failed"
  | ErrExternal msg => msg
  end.

Inductive result (A : Type) : Type :=
| Ok (a : A)
| Err (e : error).
Arguments Ok {A} a.
Arguments Err {A} e.

Inductive ServiceState : Type := stateInit | stateRunning | stateStopped.
Inductive ServiceStatus : Type := statusOk | statusError.

Global Instance ServiceState_eq_dec : EqDecision ServiceState.
Proof. solve_decision. Defined.
Global Instance ServiceStatus_eq_dec : EqDecision ServiceStatus.
Proof. solve_decision. Defined.

(** [Service]; the [uint64] fields are stored and compared, and the
    database takes them as arguments of its statements. *)
Record Service : Type := mkService {
  ID : string;
  Version : Z;
  ServiceProvider : string;
  Path : string;
  UnitName : string;
  UserName : string;
  HostName : string;
  Permissions : string;
  State : ServiceState;
  Status : ServiceStatus;
  StartAt : nat;
  TTL : Z;
  AlertRules : string;
  UploadSpeed : Z;
  DownloadSpeed : Z;
  UploadLimit : Z;
  DownloadLimit : Z;
  StorageLimit : Z;
  StateLimit : Z;
  Layers : list string;
  Devices : string
}.

(** [UsersService]; [Users] is [None] for the nil slice, which the
    database stores as the JSON text null. *)
Record UsersService : Type := mkUsersService {
  Users : option (list string);
  ServiceID : string;
  StorageFolder : string;
  StateChecksum : list Byte.byte
}.

(** [amqp.ServiceInfoFromCloud] and [amqp.ServiceInfo], the fields the
    launcher uses. *)
Record ServiceInfoFromCloud : Type := mkServiceInfoFromCloud {
  cloudID : string;
  cloudVersion : Z;
  cloudAlertRules : string
}.

Record ServiceInfo : Type := mkServiceInfo {
  infoID : string;
  infoVersion : Z;
  infoStatus : string;
  infoError : string;
  infoStateChecksum : string
}.

(** The launcher fields that an action reads and never writes.
    [sender], [network] and [monitor] say whether the interface value is
    non-nil; [resourcesValid] is what [devicemanager.AreResourcesValid()]
    returns. *)
Record Launcher : Type := mkLauncher {
  users : option (list string);
  sender : bool;
  network : bool;
  monitor : bool;
  resourcesValid : option error
}.

(** What an action changes: the two tables of the service provider, the
    [services] map from unit name to service ID, and the number of calls
    made so far to collaborators outside the model. *)
Record Store : Type := mkStore {
  servicesTable : list Service;
  usersTable : list UsersService;
  units : gmap string string;
  clock : nat
}.

(** The collaborators outside the model (systemd, the platform, the file
    system, the network, the monitor, the device manager's requests, the
    image download): [outcome n] is the error of the [n]-th call made to
    them, and [image n] what [prepareService] reads from the unpacked
    image when it is the [n]-th call. *)
Record Env : Type := mkEnv {
  outcome : nat → option error;
  image : nat → Service
}.

(** ** The state monad of an action *)

Definition Run (A : Type) : Type := Store → A * Store.

Global Instance Run_ret : MRet Run := fun A a st => (a, st).
Global Instance Run_bind : MBind Run :=
  fun A B k m st => k (fst (m st)) (snd (m st)).

(** [if err != nil { return err }] *)
Definition orReturn (m k : Run (option error)) : Run (option error) :=
  e ← m; match e with Some err => mret (Some err) | None => k end.

Notation "'check' m 'then' k" := (orReturn m k)
  (at level 100, m at next level, k at level 200, right associativity).

(** The first error met, as the [retErr] variables collect it. *)
Definition firstError (a b : option error) : option error :=
  match a with Some e => Some e | None => b end.

Definition hexDigit (n : N) : Ascii.ascii :=
  Ascii.ascii_of_N (if (n <? 10)%N then 48 + n else 87 + n)%N.

(** [hex.EncodeToString] *)
Definition hexEncode (bytes : list Byte.byte) : string :=
  foldr (fun b acc =>
           String (hexDigit (Byte.to_N b / 16)%N)
             (String (hexDigit (Byte.to_N b mod 16)%N) acc))
        EmptyString bytes.

Section Actions.

Variable env : Env.
Variable launcher : Launcher.

(** One call to a collaborator outside the model. *)
Definition ext : Run (option error) :=
  fun st => (outcome env (clock st),
             mkStore (servicesTable st) (usersTable st) (units st) (S (clock st))).

Definition now : Run nat := fun st => (clock st, st).

(** ** The service provider

    The [ServiceProvider] interface is modelled by the two tables of the
    database behind it: [services], with the service ID as its key, and
    [users], with the pair of users and service ID as its key. A call
    fails where the tables make it fail, no row ([ErrNotExist]) or a key
    that is already there ([ErrConstraint]), and where an argument of
    its statement cannot be converted. *)

Definition setServicesTable (l : list Service) (st : Store) : Store :=
  mkStore l (usersTable st) (units st) (clock st).

Definition setUsersTable (l : list UsersService) (st : Store) : Store :=
  mkStore (servicesTable st) l (units st) (clock st).

Definition setUnits (m : gmap string string) (st : Store) : Store :=
  mkStore (servicesTable st) (usersTable st) m (clock st).

Definition hasID (id : string) (s : Service) : bool := String.eqb (ID s) id.

Definition GetService (serviceID : string) : Run (result Service) :=
  fun st => (match find (hasID serviceID) (servicesTable st) with
             | Some s => Ok s
             | None => Err ErrNotExist
             end, st).

Definition GetServices : Run (list Service) :=
  fun st => (servicesTable st, st).

Definition GetServiceProviderServices (sp : string) : Run (list Service) :=
  fun st => (filter (fun s => ServiceProvider s = sp) (servicesTable st), st).

(** What [Exec] does with the arguments of a statement before it runs
    it: [database/sql] converts them in their order and refuses a
    [uint64] with the high bit set. [args] are the [uint64] arguments
    with their places in the statement. *)
Definition highBit (argument : string) : error :=
  ErrExternal ("sql: converting argument " +:+ argument +:+
               " type: uint64 values with high bit set are not supported").

Fixpoint convertArgs (args : list (string * Z)) : option error :=
  match args with
  | [] => None
  | (argument, v) :: rest =>
      if 2 ^ 63 <=? v then Some (highBit argument) else convertArgs rest
  end.

(** INSERT INTO services values(?, ...): the version is the second
    argument, the time to live the tenth and the four limits the last
    ones. *)
Definition AddService (service : Service) : Run (option error) :=
  fun st =>
    match convertArgs [("$2", Version service); ("$10", TTL service);
                       ("$12", UploadLimit service); ("$13", DownloadLimit service);
                       ("$14", StorageLimit service); ("$15", StateLimit service)] with
    | Some err => (Some err, st)
    | None =>
        if existsb (hasID (ID service)) (servicesTable st)
        then (Some ErrConstraint, st)
        else (None, setServicesTable (servicesTable st ++ [service]) st)
    end.

(** UPDATE ... WHERE id = ?: [ErrNotExist] when no row is affected. *)
Definition updateRow (serviceID : string) (f : Service → Service) : Run (option error) :=
  fun st => if existsb (hasID serviceID) (servicesTable st)
            then (None, setServicesTable
                          (map (fun s => if hasID serviceID s then f s else s)
                               (servicesTable st)) st)
            else (Some ErrNotExist, st).

(** UPDATE services SET version = ?, ... WHERE id = ?: the id is the
    last argument. *)
Definition UpdateService (service : Service) : Run (option error) :=
  fun st =>
    match convertArgs [("$1", Version service); ("$9", TTL service);
                       ("$11", UploadLimit service); ("$12", DownloadLimit service);
                       ("$13", StorageLimit service); ("$14", StateLimit service)] with
    | Some err => (Some err, st)
    | None => updateRow (ID service) (fun _ => service) st
    end.

Definition RemoveService (serviceID : string) : Run (option error) :=
  fun st => (None, setServicesTable
                     (filter (fun s => ID s ≠ serviceID) (servicesTable st)) st).

Definition withState (state : ServiceState) (s : Service) : Service :=
  mkService (ID s) (Version s) (ServiceProvider s) (Path s) (UnitName s) (UserName s)
    (HostName s) (Permissions s) state (Status s) (StartAt s) (TTL s) (AlertRules s)
    (UploadSpeed s) (DownloadSpeed s) (UploadLimit s) (DownloadLimit s)
    (StorageLimit s) (StateLimit s) (Layers s) (Devices s).

Definition withStatus (status : ServiceStatus) (s : Service) : Service :=
  mkService (ID s) (Version s) (ServiceProvider s) (Path s) (UnitName s) (UserName s)
    (HostName s) (Permissions s) (State s) status (StartAt s) (TTL s) (AlertRules s)
    (UploadSpeed s) (DownloadSpeed s) (UploadLimit s) (DownloadLimit s)
    (StorageLimit s) (StateLimit s) (Layers s) (Devices s).

Definition withStartAt (time : nat) (s : Service) : Service :=
  mkService (ID s) (Version s) (ServiceProvider s) (Path s) (UnitName s) (UserName s)
    (HostName s) (Permissions s) (State s) (Status s) time (TTL s) (AlertRules s)
    (UploadSpeed s) (DownloadSpeed s) (UploadLimit s) (DownloadLimit s)
    (StorageLimit s) (StateLimit s) (Layers s) (Devices s).

Definition SetServiceState (serviceID : string) (state : ServiceState) : Run (option error) :=
  updateRow serviceID (withState state).

Definition SetServiceStatus (serviceID : string) (status : ServiceStatus) : Run (option error) :=
  updateRow serviceID (withStatus status).

Definition SetServiceStartTime (serviceID : string) (time : nat) : Run (option error) :=
  updateRow serviceID (withStartAt time).

Definition isUsersRow (us : option (list string)) (serviceID : string)
    (u : UsersService) : bool :=
  bool_decide (Users u = us) && String.eqb (ServiceID u) serviceID.

Definition AddServiceToUsers (us : option (list string)) (serviceID : string)
    : Run (option error) :=
  fun st => if existsb (isUsersRow us serviceID) (usersTable st)
            then (Some ErrConstraint, st)
            else (None, setUsersTable
                          (usersTable st ++ [mkUsersService us serviceID "" []]) st).

Definition RemoveServiceFromUsers (us : option (list string)) (serviceID : string)
    : Run (option error) :=
  fun st => (None, setUsersTable
                     (filter (fun u => isUsersRow us serviceID u = false) (usersTable st)) st).

Definition RemoveServiceFromAllUsers (serviceID : string) : Run (option error) :=
  fun st => (None, setUsersTable
                     (filter (fun u => ServiceID u ≠ serviceID) (usersTable st)) st).

Definition GetUsersService (us : option (list string)) (serviceID : string)
    : Run (result UsersService) :=
  fun st => (match find (isUsersRow us serviceID) (usersTable st) with
             | Some u => Ok (mkUsersService us serviceID (StorageFolder u) (StateChecksum u))
             | None => Err ErrNotExist
             end, st).

Definition GetUsersServicesByServiceID (serviceID : string) : Run (list UsersService) :=
  fun st => (filter (fun u => ServiceID u = serviceID) (usersTable st), st).

(** The rows in the order of their ids, which are compared byte by
    byte: the order in which the index of the primary key of [services]
    gives them. *)
Fixpoint insertByID (s : Service) (l : list Service) : list Service :=
  match l with
  | [] => [s]
  | x :: l' => if String.leb (ID s) (ID x) then s :: x :: l' else x :: insertByID s l'
  end.

Definition sortByID (l : list Service) : list Service := foldr insertByID [] l.

(** SELECT * FROM services WHERE id IN
    (SELECT serviceid FROM users WHERE users = ?): the rows are found
    through the index of the primary key, in the order of their ids. *)
Definition GetUsersServices (us : option (list string)) : Run (list Service) :=
  fun st => (sortByID
               (filter (fun s => existsb (isUsersRow us (ID s)) (usersTable st) = true)
                       (servicesTable st)), st).

(** ** The launcher *)

(** [launcher.services.Store] and [launcher.services.Delete] *)
Definition storeUnit (unitName serviceID : string) : Run unit :=
  fun st => (tt, setUnits (<[unitName := serviceID]> (units st)) st).

Definition deleteUnit (unitName : string) : Run unit :=
  fun st => (tt, setUnits (delete unitName (units st)) st).

(** [updateMonitoring]: the alert rules are decoded, the service IP is
    asked of the network and the monitor is started, or the monitor is
    stopped. *)
Definition updateMonitoring (service : Service) (state : ServiceState) : Run (option error) :=
  match state with
  | stateRunning =>
      check ext then
      check (if network launcher then ext else mret None) then
      ext
  | stateStopped => ext
  | stateInit => mret None
  end.

Definition updateServiceState (id : string) (state : ServiceState) (status : ServiceStatus)
    : Run (option error) :=
  r ← GetService id;
  match r with
  | Err e => mret (Some e)
  | Ok service =>
      _ ← (if monitor launcher then updateMonitoring service state else mret None);
      check (if decide (State service = state) then mret None
             else SetServiceState id state) then
      check (if decide (Status service = status) then mret None
             else SetServiceStatus id status) then
      mret None
  end.

(** [prestartService]: the runtime spec is loaded, the devices, storage
    folder and network are written into it, the layers are mounted and
    the devices are requested; the spec is saved on the way out, and an
    error of saving is returned when nothing failed before. *)
Definition prestartService (service : Service) : Run (option error) :=
  check ext then
  e ← (check ext then check ext then check ext then check ext then check ext then ext);
  s ← ext;
  mret (firstError e s).

(** [addServiceToSystemd]: [filepath.Abs], [LinkUnitFiles], [Reload]. *)
Definition addServiceToSystemd (service : Service) : Run (option error) :=
  check ext then check ext then ext.

Definition startService (service : Service) : Run (option error) :=
  check prestartService service then
  check ext then
  _ ← updateServiceState (ID service) stateRunning statusOk;
  t ← now;
  _ ← SetServiceStartTime (ID service) t;
  _ ← storeUnit (UnitName service) (ID service);
  mret None.

(** [poststopService] ends in [return nil]: what it collected in
    [retErr] is not returned. *)
Definition poststopService (service : Service) : Run (option error) :=
  _ ← ext;
  _ ← ext;
  _ ← ext;
  _ ← (if network launcher then ext else mret None);
  mret None.

Definition stopService (service : Service) : Run (option error) :=
  _ ← deleteUnit (UnitName service);
  e1 ← ext;
  e2 ← poststopService service;
  e3 ← updateServiceState (ID service) stateStopped statusOk;
  mret (firstError e1 (firstError e2 e3)).

(** [os.RemoveAll] of every non-empty storage folder. *)
Fixpoint removeStorageFolders (usersServices : list UsersService) : Run (option error) :=
  match usersServices with
  | [] => mret None
  | userService :: rest =>
      e ← (if String.eqb (StorageFolder userService) "" then mret None else ext);
      e' ← removeStorageFolders rest;
      mret (firstError e e')
  end.

Definition removeService (service : Service) : Run (option error) :=
  e1 ← stopService service;
  e2 ← ext;
  usersServices ← GetUsersServicesByServiceID (ID service);
  e3 ← removeStorageFolders usersServices;
  e4 ← RemoveServiceFromAllUsers (ID service);
  e5 ← RemoveService (ID service);
  e6 ← (if network launcher
        then spServices ← GetServiceProviderServices (ServiceProvider service);
             if (length spServices =? 0)%nat then ext else mret None
        else mret None);
  e7 ← ext;
  e8 ← ext;
  mret (firstError e1 (firstError e2 (firstError e3 (firstError e4
         (firstError e5 (firstError e6 (firstError e7 e8))))))).

Definition restoreService (service : Service) : Run (option error) :=
  e1 ← UpdateService service;
  e2 ← ext;
  e3 ← addServiceToSystemd service;
  e4 ← startService service;
  mret (firstError e1 (firstError e2 (firstError e3 e4))).

Definition addServiceToCurrentUsers (serviceID : string) : Run (option error) :=
  r ← GetUsersService (users launcher) serviceID;
  match r with
  | Ok _ => mret None
  | Err e =>
      if negb (Contains (Error e) "not exist") then mret (Some e)
      else AddServiceToUsers (users launcher) serviceID
  end.

(** [addService]: when anything fails after the row is added, the
    deferred function removes the service again. *)
Definition addService (service : Service) : Run (option error) :=
  check ext then
  check AddService service then
  err ← (check (if network launcher
                then e ← ext; match e with Some _ => ext | None => mret None end
                else mret None) then
         check addServiceToCurrentUsers (ID service) then
         check addServiceToSystemd service then
         startService service);
  match err with
  | Some _ => _ ← removeService service; mret err
  | None => mret None
  end.

(** The statuses handed to [sender.SendServiceStatus]: none when the
    sender is nil. *)
Definition send (status : ServiceInfo) : list ServiceInfo :=
  if sender launcher then [status] else [].

Definition removedStatus (service : Service) : ServiceInfo :=
  mkServiceInfo (ID service) (Version service) "removed" "" "".

(** [updateService]: the error returned and the statuses sent. The
    deferred function assigns the named result [err]: after a failed
    update the function returns what [os.RemoveAll] of the new
    directory returned. *)
Definition updateService (oldService newService : Service)
    : Run (option error * list ServiceInfo) :=
  _ ← deleteUnit (UnitName oldService);
  err ← (check updateServiceState (ID oldService) stateStopped statusOk then
         check addServiceToCurrentUsers (ID newService) then
         check ext then
         check stopService oldService then
         check ext then
         check addServiceToSystemd newService then
         check startService newService then
         UpdateService newService);
  match err with
  | None => mret (None, send (removedStatus oldService))
  | Some _ =>
      _ ← stopService newService;
      err' ← ext;
      restored ← restoreService oldService;
      match restored with
      | Some _ =>
          _ ← removeService oldService;
          mret (err', send (removedStatus oldService))
      | None => mret (err', [])
      end
  end.

(** [prepareService]: the user is created, the image is unpacked and its
    configuration read; the service takes its ID, version and alert
    rules from the cloud's description and the rest from the image. *)
Definition prepareService (serviceInfo : ServiceInfoFromCloud) : Run (result Service) :=
  fun st =>
    let st' := mkStore (servicesTable st) (usersTable st) (units st) (S (clock st)) in
    match outcome env (clock st) with
    | Some e => (Err e, st')
    | None =>
        let img := image env (clock st) in
        (Ok (mkService (cloudID serviceInfo) (cloudVersion serviceInfo)
               (if String.eqb (ServiceProvider img) "" then "default"
                else ServiceProvider img)
               (Path img) ("aos_" +:+ cloudID serviceInfo +:+ ".service")
               (UserName img) (HostName img) (Permissions img) stateInit statusOk
               0%nat (TTL img) (cloudAlertRules serviceInfo) (UploadSpeed img)
               (DownloadSpeed img) (UploadLimit img) (DownloadLimit img)
               (StorageLimit img) (StateLimit img) (Layers img) (Devices img)), st')
    end.

(** [if err != nil { return err }] in a function whose result is paired
    with the statuses sent: none were sent yet. *)
Definition orFail (m : Run (option error)) (k : Run (option error * list ServiceInfo))
    : Run (option error * list ServiceInfo) :=
  e ← m; match e with Some err => mret (Some err, []) | None => k end.

(** The end of [installService]: the service is prepared in the install
    directory, then added, or the existing one updated. *)
Definition addOrUpdate (serviceInfo : ServiceInfoFromCloud) (existing : option Service)
    : Run (option error * list ServiceInfo) :=
  r ← prepareService serviceInfo;
  match r with
  | Err err => mret (Some err, [])
  | Ok newService =>
      match existing with
      | None => e ← addService newService; mret (e, [])
      | Some service => updateService service newService
      end
  end.

(** The deferred function of [installService]: after an error the user
    of a service that did not exist and the install directory are
    removed; what that returns is logged only. *)
Definition cleanInstall (existing : option Service) (err : option error) : Run unit :=
  match err with
  | Some _ =>
      _ ← (match existing with None => ext | Some _ => mret None end);
      _ ← ext;
      mret tt
  | None => mret tt
  end.

(** The part of [installService] after the version tests: a directory to
    unpack into is made (its error is overwritten), the image is
    downloaded, unpacked and validated, the install directory is made,
    and the service is added or updated; the unpack directory is removed
    on the way out. *)
Definition installImage (serviceInfo : ServiceInfoFromCloud) (existing : option Service)
    : Run (option error * list ServiceInfo) :=
  _ ← ext;
  res ← orFail ext (orFail ext (orFail ext (
           res ← addOrUpdate serviceInfo existing;
           _ ← cleanInstall existing (fst res);
           mret res)));
  _ ← ext;
  mret res.

Definition installService (serviceInfo : ServiceInfoFromCloud)
    : Run (option error * list ServiceInfo) :=
  match users launcher with
  | None => mret (Some ErrUsersNotSet, [])
  | Some _ =>
      match resourcesValid launcher with
      | Some err => mret (Some err, [])
      | None =>
          r ← GetService (cloudID serviceInfo);
          match r with
          | Err err =>
              if negb (Contains (Error err) "not exist") then mret (Some err, [])
              else installImage serviceInfo None
          | Ok service =>
              if cloudVersion serviceInfo <? Version service
              then mret (Some ErrVersionMismatch, [])
              else if cloudVersion serviceInfo =? Version service
              then e ← (check addServiceToCurrentUsers (cloudID serviceInfo) then
                        startService service);
                   mret (e, [])
              else installImage serviceInfo (Some service)
          end
      end
  end.

Definition uninstallService (id : string) : Run (Z * option error) :=
  r ← GetService id;
  match r with
  | Err err => mret (0, Some err)
  | Ok service =>
      let version := Version service in
      match users launcher with
      | None => mret (version, Some ErrUsersNotSet)
      | Some _ =>
          e ← stopService service;
          match e with
          | Some err => mret (version, Some err)
          | None =>
              r ← GetUsersService (users launcher) (ID service);
              match r with
              | Err err => mret (version, Some err)
              | Ok userService =>
                  e ← (if String.eqb (StorageFolder userService) "" then mret None
                       else ext);
                  match e with
                  | Some err => mret (version, Some err)
                  | None =>
                      e ← RemoveServiceFromUsers (users launcher) (ID service);
                      mret (version, e)
                  end
              end
          end
      end
  end.

(** The [data] of a queued action. *)
Inductive ActionData : Type :=
| DataNil
| DataInstall (serviceInfo : ServiceInfoFromCloud)
| DataService (service : Service).

Definition installError (id : string) (version : Z) (err : error) : ServiceInfo :=
  mkServiceInfo id version "error" ("Can't install service: " +:+ Error err) "".

(** [doActionInstall]: the statuses sent, in order. *)
Definition doActionInstall (id : string) (data : ActionData) : Run (list ServiceInfo) :=
  match data with
  | DataInstall serviceInfo =>
      let version := cloudVersion serviceInfo in
      res ← installService serviceInfo;
      match fst res with
      | Some err => mret (snd res ++ send (installError id version err))
      | None =>
          r ← GetUsersService (users launcher) id;
          match r with
          | Err err => mret (snd res ++ send (installError id version err))
          | Ok userService =>
              mret (snd res ++
                    send (mkServiceInfo id version "installed" ""
                            (hexEncode (StateChecksum userService))))
          end
      end
  | _ => mret (send (installError id 0 ErrWrongDataType))
  end.

Definition doActionUninstall (id : string) (data : ActionData) : Run (list ServiceInfo) :=
  res ← uninstallService id;
  match snd res with
  | Some err => mret (send (mkServiceInfo id (fst res) "error" (Error err) ""))
  | None => mret (send (mkServiceInfo id (fst res) "removed" "" ""))
  end.

(** The actions [InstallService] and [UninstallService] put in the
    queue. *)
Inductive Action : Type :=
| Install (id : string) (data : ActionData)
| Uninstall (id : string).

Definition InstallService (serviceInfo : ServiceInfoFromCloud) : Action :=
  Install (cloudID serviceInfo) (DataInstall serviceInfo).


Definition doAction (a : Action) : Run (list ServiceInfo) :=
  match a with
  | Install id data => doActionInstall id data
  | Uninstall id => doActionUninstall id DataNil
  end.

(** The queued actions run one after the other; the statuses of all. *)
Fixpoint runActions (actions : list Action) : Run (list ServiceInfo) :=
  match actions with
  | [] => mret []
  | a :: rest =>
      sent ← doAction a;
      sent' ← runActions rest;
      mret (sent ++ sent')
  end.

(** [stopServices]: a stop action per service, all services when no
    users are set and the users' services otherwise; the function waits
    for every one of them. *)
Fixpoint stopAll (services : list Service) : Run (list (option error)) :=
  match services with
  | [] => mret []
  | service :: rest =>
      e ← stopService service;
      es ← stopAll rest;
      mret (e :: es)
  end.

Definition stopServices : Run (list (option error)) :=
  services ← (match users launcher with
              | None => GetServices
              | Some _ => GetUsersServices (users launcher)
              end);
  stopAll services.

End Actions.

(** ** Facts about the service provider and [stopService] *)

Section Facts.

Variable env : Env.
Variable launcher : Launcher.

Lemma bind_run {A B : Type} (m : Run A) (k : A → Run B) (st : Store) :
  (m ≫= k) st = k (fst (m st)) (snd (m st)).
Proof. reflexivity. Qed.

Lemma ret_run {A : Type} (a : A) (st : Store) : (mret a : Run A) st = (a, st).
Proof. reflexivity. Qed.





(** Calls that leave the tables and the unit map as they are. *)
Definition keepsStore {A : Type} (m : Run A) : Prop :=
  ∀ st, servicesTable (snd (m st)) = servicesTable st ∧
        usersTable (snd (m st)) = usersTable st ∧
        units (snd (m st)) = units st.

Lemma keepsStore_ret {A : Type} (a : A) : keepsStore (mret a : Run A).
Proof. by intros st. Qed.

Lemma keepsStore_bind {A B : Type} (m : Run A) (k : A → Run B) :
  keepsStore m → (∀ a, keepsStore (k a)) → keepsStore (m ≫= k).
Proof.
  intros Hm Hk st. rewrite bind_run.
  destruct (Hm st) as (H1 & H2 & H3).
  destruct (Hk (fst (m st)) (snd (m st))) as (H4 & H5 & H6).
  by rewrite H4, H5, H6.
Qed.

Lemma keepsStore_ext : keepsStore (ext env).
Proof. by intros st. Qed.

Lemma keepsStore_orReturn (m k : Run (option error)) :
  keepsStore m → keepsStore k → keepsStore (orReturn m k).
Proof.
  intros Hm Hk. apply keepsStore_bind; [done|].
  intros [e|]; [apply keepsStore_ret | done].
Qed.

Lemma keepsStore_if {A : Type} (b : bool) (m k : Run A) :
  keepsStore m → keepsStore k → keepsStore (if b then m else k).
Proof. by destruct b. Qed.

Create HintDb keeps discriminated.
#[local] Hint Resolve keepsStore_ret keepsStore_ext keepsStore_orReturn
  keepsStore_if : keeps.
#[local] Hint Extern 2 (keepsStore (_ ≫= _)) =>
  apply keepsStore_bind; [|intros ?] : keeps.

Lemma keepsStore_updateMonitoring (service : Service) (state : ServiceState) :
  keepsStore (updateMonitoring env launcher service state).
Proof. destruct state; unfold updateMonitoring; auto 10 with keeps. Qed.

Lemma keepsStore_poststopService (service : Service) :
  keepsStore (poststopService env launcher service).
Proof. unfold poststopService. auto 12 with keeps. Qed.

Lemma keepsStore_prestartService (service : Service) :
  keepsStore (prestartService env service).
Proof. unfold prestartService. auto 20 with keeps. Qed.

Lemma keepsStore_addServiceToSystemd (service : Service) :
  keepsStore (addServiceToSystemd env service).
Proof. unfold addServiceToSystemd. auto 10 with keeps. Qed.

(** What [updateServiceState] does to the services table. *)
Definition setRow (id : string) (state : ServiceState) (status : ServiceStatus)
    (tbl : list Service) : list Service :=
  match find (hasID id) tbl with
  | None => tbl
  | Some service =>
      let tbl1 := if decide (State service = state) then tbl
                  else map (fun s => if hasID id s then withState state s else s) tbl in
      if decide (Status service = status) then tbl1
      else map (fun s => if hasID id s then withStatus status s else s) tbl1
  end.

Lemma find_existsb (id : string) (tbl : list Service) (service : Service) :
  find (hasID id) tbl = Some service → existsb (hasID id) tbl = true.
Proof.
  induction tbl as [|s tbl IH]; simpl; [done|].
  destruct (hasID id s); [done | exact IH].
Qed.

Lemma existsb_map_row (id id' : string) (f : Service → Service) (tbl : list Service) :
  (∀ s, ID (f s) = ID s) →
  existsb (hasID id') (map (fun s => if hasID id s then f s else s) tbl)
  = existsb (hasID id') tbl.
Proof.
  intros Hf. induction tbl as [|s tbl IH]; simpl; [done|].
  rewrite IH. f_equal. unfold hasID. destruct (String.eqb (ID s) id); [|done].
  by rewrite Hf.
Qed.

Lemma keepsStore_eq {A : Type} (m : Run A) (st : Store) :
  keepsStore m →
  snd (m st) = mkStore (servicesTable st) (usersTable st) (units st) (clock (snd (m st))).
Proof. intros H. destruct (H st) as (H1 & H2 & H3). destruct (snd (m st)); simpl in *. congruence. Qed.

Lemma updateServiceState_store (id : string) (state : ServiceState)
    (status : ServiceStatus) (st : Store) :
  ∃ c, snd (updateServiceState env launcher id state status st)
       = mkStore (setRow id state status (servicesTable st)) (usersTable st) (units st) c.
Proof.
  unfold updateServiceState, setRow. rewrite bind_run.
  unfold GetService. cbn [fst snd].
  destruct (find (hasID id) (servicesTable st)) as [service|] eqn:Efind.
  2: { exists (clock st). by destruct st. }
  rewrite bind_run.
  set (m := if monitor launcher then _ else _).
  assert (Hm : keepsStore m).
  { unfold m. apply keepsStore_if; [apply keepsStore_updateMonitoring | apply keepsStore_ret]. }
  rewrite (keepsStore_eq m st Hm).
  generalize (clock (snd (m st))). intros c0.
  pose proof (find_existsb _ _ _ Efind) as Hex.
  unfold orReturn, SetServiceState, SetServiceStatus, updateRow, setServicesTable.
  destruct (decide (State service = state)) as [Hs|Hs];
    destruct (decide (Status service = status)) as [Hq|Hq];
    repeat (progress (rewrite ?bind_run, ?ret_run, ?existsb_map_row, ?Hex by done;
                      cbn [fst snd servicesTable usersTable units clock]));
    by exists c0.
Qed.

Lemma stopService_store (service : Service) (st : Store) :
  ∃ c, snd (stopService env launcher service st)
       = mkStore (setRow (ID service) stateStopped statusOk (servicesTable st))
           (usersTable st) (delete (UnitName service) (units st)) c.
Proof.
  unfold stopService. rewrite !bind_run.
  unfold deleteUnit at 2 3 4. cbn [fst snd].
  set (st1 := setUnits _ st).
  rewrite (keepsStore_eq (ext env) st1 keepsStore_ext).
  generalize (clock (snd (ext env st1))). intros c1. cbn [fst snd].
  match goal with |- context [poststopService env launcher service ?x] =>
    rewrite (keepsStore_eq (poststopService env launcher service) x
               (keepsStore_poststopService service));
    generalize (clock (snd (poststopService env launcher service x)))
  end.
  intros c2. cbn [servicesTable usersTable units clock].
  match goal with |- context [updateServiceState env launcher ?i ?a ?b ?x] =>
    destruct (updateServiceState_store i a b x) as [c3 ->]
  end.
  rewrite ret_run. cbn [fst snd servicesTable usersTable units clock st1 setUnits].
  by exists c3.
Qed.

(** [setRow] keeps the IDs, sets the first row of [id], and leaves the
    rows of other IDs alone. *)
Lemma setRow_find (id : string) (state : ServiceState) (status : ServiceStatus)
    (tbl : list Service) (service : Service) :
  find (hasID id) tbl = Some service →
  ∃ service', find (hasID id) (setRow id state status tbl) = Some service' ∧
    State service' = state ∧ Status service' = status ∧
    Version service' = Version service ∧ UnitName service' = UnitName service.
Proof.
  intros Hfind. unfold setRow. rewrite Hfind.
  assert (Hmap : ∀ f : Service → Service, (∀ s, ID (f s) = ID s) →
            find (hasID id) (map (fun s => if hasID id s then f s else s) tbl)
            = Some (f service)).
  { intros f Hf. clear -Hfind Hf. induction tbl as [|s tbl IH]; simpl in *; [done|].
    destruct (hasID id s) eqn:E.
    - injection Hfind as ->. unfold hasID in *. by rewrite Hf, E.
    - rewrite E. by apply IH. }
  assert (Hmap2 : ∀ (f g : Service → Service), (∀ s, ID (f s) = ID s) →
            (∀ s, ID (g s) = ID s) →
            find (hasID id) (map (fun s => if hasID id s then g s else s)
                               (map (fun s => if hasID id s then f s else s) tbl))
            = Some (g (f service))).
  { intros f g Hf Hg. clear -Hfind Hf Hg. induction tbl as [|s tbl IH]; simpl in *; [done|].
    destruct (hasID id s) eqn:E.
    - injection Hfind as ->. unfold hasID in *. by rewrite Hf, E, Hg, Hf, E.
    - rewrite E, E. by apply IH. }
  destruct (decide (State service = state)) as [Hs|Hs];
    destruct (decide (Status service = status)) as [Hq|Hq].
  - by exists service.
  - rewrite (Hmap (withStatus status)) by done. by eexists.
  - rewrite (Hmap (withState state)) by done. by eexists.
  - rewrite (Hmap2 (withState state) (withStatus status)) by done. by eexists.
Qed.

Lemma find_map_other (id id' : string) (f : Service → Service) (tbl : list Service) :
  id' ≠ id → (∀ s, ID (f s) = ID s) →
  find (hasID id') (map (fun s => if hasID id s then f s else s) tbl)
  = find (hasID id') tbl.
Proof.
  intros Hne Hf. induction tbl as [|s tbl IH]; simpl; [done|].
  destruct (hasID id s) eqn:E.
  - unfold hasID in *. rewrite Hf. apply String.eqb_eq in E.
    assert (String.eqb (ID s) id' = false) as -> by (apply String.eqb_neq; congruence).
    exact IH.
  - by rewrite IH.
Qed.

Lemma setRow_find_other (id id' : string) (state : ServiceState) (status : ServiceStatus)
    (tbl : list Service) :
  id' ≠ id → find (hasID id') (setRow id state status tbl) = find (hasID id') tbl.
Proof.
  intros Hne. unfold setRow.
  destruct (find (hasID id) tbl) as [service|]; [|done].
  destruct (decide (State service = state));
    destruct (decide (Status service = status));
    rewrite ?find_map_other by done; done.
Qed.

Lemma elem_of_find (tbl : list Service) (service : Service) :
  service ∈ tbl → ∃ first, find (hasID (ID service)) tbl = Some first.
Proof.
  induction tbl as [|s tbl IH]; intros Hin; [by apply elem_of_nil in Hin|].
  simpl. destruct (hasID (ID service) s) eqn:E; [by eexists|].
  apply elem_of_cons in Hin as [-> | Hin]; [|by apply IH].
  unfold hasID in E. by rewrite String.eqb_refl in E.
Qed.

(** After [stopAll], every service handed to it that has a row is
    stopped in the table and gone from the unit map; rows that were
    stopped stay stopped. *)
Definition stoppedIn (st : Store) (id : string) : Prop :=
  ∃ service, find (hasID id) (servicesTable st) = Some service ∧
    State service = stateStopped ∧ Status service = statusOk.

Lemma stopService_stoppedIn (service : Service) (st : Store) (id : string) :
  (id = ID service ∧ is_Some (find (hasID id) (servicesTable st))) ∨ stoppedIn st id →
  stoppedIn (snd (stopService env launcher service st)) id.
Proof.
  destruct (stopService_store service st) as [c ->]. unfold stoppedIn. simpl.
  destruct (decide (id = ID service)) as [->|Hne].
  - intros [[_ [first Hfirst]] | (first & Hfirst & _)];
      destruct (setRow_find _ stateStopped statusOk _ _ Hfirst)
        as (s' & Hs' & Hst & Hq & _); by exists s'.
  - intros [[H _] | H]; [done|]. by rewrite setRow_find_other.
Qed.

Lemma stopService_has_row (service : Service) (st : Store) (id : string) :
  is_Some (find (hasID id) (servicesTable st)) →
  is_Some (find (hasID id) (servicesTable (snd (stopService env launcher service st)))).
Proof.
  destruct (stopService_store service st) as [c ->]. simpl.
  destruct (decide (id = ID service)) as [->|Hne].
  - intros [first Hfirst].
    destruct (setRow_find _ stateStopped statusOk _ _ Hfirst) as (s' & Hs' & _).
    by exists s'.
  - by rewrite setRow_find_other.
Qed.

Lemma stopAll_spec (services : list Service) (st : Store) :
  length (fst (stopAll env launcher services st)) = length services ∧
  (∀ id, stoppedIn st id → stoppedIn (snd (stopAll env launcher services st)) id) ∧
  (∀ service, service ∈ services →
     is_Some (find (hasID (ID service)) (servicesTable st)) →
     stoppedIn (snd (stopAll env launcher services st)) (ID service)) ∧
  (∀ service, service ∈ services →
     units (snd (stopAll env launcher services st)) !! UnitName service = None) ∧
  (∀ name, units st !! name = None →
     units (snd (stopAll env launcher services st)) !! name = None).
Proof.
  revert st. induction services as [|s services IH]; intros st.
  - simpl. split; [done|]. split; [done|].
    split; [intros x Hx; by apply elem_of_nil in Hx|].
    split; [intros x Hx; by apply elem_of_nil in Hx|done].
  - cbn [stopAll]. rewrite !bind_run, ret_run. cbn [fst snd length].
    destruct (IH (snd (stopService env launcher s st))) as (IH1 & IH2 & IH3 & IH4 & IH5).
    assert (Hunits : ∀ name, units st !! name = None ∨ name = UnitName s →
              units (snd (stopService env launcher s st)) !! name = None).
    { intros name Hname. destruct (stopService_store s st) as [c ->]. simpl.
      destruct (decide (name = UnitName s)) as [->|Hne].
      - apply lookup_delete_eq.
      - rewrite lookup_delete_ne by done. by destruct Hname. }
    split; [by rewrite IH1|]. split.
    { intros id Hid. apply IH2. apply stopService_stoppedIn. by right. }
    split.
    { intros service Hin Hrow. apply elem_of_cons in Hin as [-> | Hin].
      - apply IH2. apply stopService_stoppedIn. by left.
      - apply IH3; [done|]. by apply stopService_has_row. }
    split.
    { intros service Hin. apply elem_of_cons in Hin as [-> | Hin].
      - apply IH5. apply Hunits. by right.
      - by apply IH4. }
    intros name Hname. apply IH5. apply Hunits. by left.
Qed.

End Facts.

(** ** Concrete launchers and stores used below *)

Definition plainImage : Service :=
  mkService "" 0 "" "/var/aos/services/0001" "" "svcuser" "" "" stateInit statusOk
    0%nat 30 "" 0 0 0 0 0 0 [] "[]".

(** Every collaborator succeeds. *)
Definition allFine : Env := mkEnv (fun _ => None) (fun _ => plainImage).

(** Only the [n]-th call to a collaborator fails. *)
Definition failsAt (n : nat) : Env :=
  mkEnv (fun k => if (k =? n)%nat then Some (ErrExternal "failed") else None)
        (fun _ => plainImage).

Definition withUsers : Launcher := mkLauncher (Some ["user1"]) true false false None.
Definition noUsers : Launcher := mkLauncher None true false false None.
Definition invalidResources : Launcher :=
  mkLauncher (Some ["user1"]) true false false
    (Some (ErrExternal "device resources are not valid")).

Definition emptyStore : Store := mkStore [] [] ∅ 0.

Definition A (version : Z) : ServiceInfoFromCloud := mkServiceInfoFromCloud "A" version "".
Definition B (version : Z) : ServiceInfoFromCloud := mkServiceInfoFromCloud "B" version "".

(** Service A installed at version 7 for user1. *)
Definition installedA7 : Store :=
  snd (runActions allFine withUsers [InstallService (A 7)] emptyStore).

(** ** C5 *)

(** C5, as stated, fails on the code: with A installed at version 7, a
    request for version 3 fails, but with the error of the guard that
    comes first: users not set, or resources not valid. *)
Lemma regression_meets_earlier_guard :
  (∃ service, fst (GetService "A" installedA7) = Ok service ∧ Version service = 7) ∧
  installService allFine noUsers (A 3) installedA7
    = (Some ErrUsersNotSet, [], installedA7) ∧
  installService allFine invalidResources (A 3) installedA7
    = (Some (ErrExternal "device resources are not valid"), [], installedA7).
Proof. split; [by eexists|]. split; reflexivity. Qed.

(** C5 (amended). With users set and resources valid, an install request
    whose version is lower than the version the service provider holds
    for the same ID fails with the version-mismatch error and changes
    nothing; the action reports that error (when a sender is set), and
    the actions queued after it run from the unchanged state. *)
Theorem version_regression_rejected (env : Env) (launcher : Launcher)
    (serviceInfo : ServiceInfoFromCloud) (service : Service)
    (us : list string) (st : Store) :
  users launcher = Some us →
  resourcesValid launcher = None →
  fst (GetService (cloudID serviceInfo) st) = Ok service →
  cloudVersion serviceInfo < Version service →
  installService env launcher serviceInfo st = (Some ErrVersionMismatch, [], st) ∧
  ∀ rest,
    runActions env launcher (InstallService serviceInfo :: rest) st
    = (send launcher (installError (cloudID serviceInfo) (cloudVersion serviceInfo)
                        ErrVersionMismatch)
         ++ fst (runActions env launcher rest st),
       snd (runActions env launcher rest st)).
Proof.
  intros Hus Hvalid Hget Hlt.
  assert (Hinst : installService env launcher serviceInfo st
                  = (Some ErrVersionMismatch, [], st)).
  { unfold installService. rewrite Hus, Hvalid, bind_run.
    assert (Hst : snd (GetService (cloudID serviceInfo) st) = st) by reflexivity.
    rewrite Hget, Hst.
    assert (Hltb : (cloudVersion serviceInfo <? Version service) = true) by lia.
    by rewrite Hltb. }
  split; [exact Hinst|]. intros rest.
  cbn [runActions InstallService doAction doActionInstall].
  rewrite !bind_run, Hinst, !ret_run. cbn [fst snd]. rewrite ret_run.
  cbn [fst snd app]. reflexivity.
Qed.

Lemma version_regression_rejected_witness :
  fst (runActions allFine withUsers [InstallService (A 3); InstallService (B 1)] installedA7)
  = [installError "A" 3 ErrVersionMismatch; mkServiceInfo "B" 1 "installed" "" ""].
Proof.
  destruct (version_regression_rejected allFine withUsers (A 3)
              (mkService "A" 7 "default" "/var/aos/services/0001" "aos_A.service"
                 "svcuser" "" "" stateRunning statusOk 18%nat 30 "" 0 0 0 0 0 0 [] "[]")
              ["user1"] installedA7) as [_ H];
    [reflexivity | reflexivity | reflexivity | reflexivity |].
  rewrite H. reflexivity.
Defined.


(** ** C6 *)




(** ** C7 *)


(** The update of A to version 8 fails at its quota call and version 7
    is restored, yet the action reports version 8 installed:
    [updateService] returns what its deferred function stored in [err]. *)
Lemma failed_update_reported_installed :
  let r := doAction (failsAt 24) withUsers (InstallService (A 8)) installedA7 in
  fst r = [mkServiceInfo "A" 8 "installed" "" ""] ∧
  map Version (servicesTable (snd r)) = [7].
Proof. split; reflexivity. Qed.





(** ** Further functions of the package *)

(** [isUsersEqual]: [None] is the nil slice. The loop compares
    [users1[i]] with [users2[i]] for every index of [users1], the
    lengths being equal by then. *)
Fixpoint sameElements (users1 users2 : list string) : bool :=
  match users1, users2 with
  | u1 :: rest1, u2 :: rest2 =>
      if negb (String.eqb u1 u2) then false else sameElements rest1 rest2
  | _, _ => true
  end.

Definition isUsersEqual (users1 users2 : option (list string)) : bool :=
  match users1, users2 with
  | None, None => true
  | None, Some _ | Some _, None => false
  | Some users1, Some users2 =>
      if negb (length users1 =? length users2)%nat then false
      else sameElements users1 users2
  end.

Lemma isUsersEqual_true (users1 users2 : option (list string)) :
  isUsersEqual users1 users2 = true ↔ users1 = users2.
Proof.
  destruct users1 as [users1|], users2 as [users2|]; simpl; try done.
  destruct (length users1 =? length users2)%nat eqn:El; simpl.
  - apply Nat.eqb_eq in El. revert users2 El.
    induction users1 as [|u1 users1 IH]; intros [|u2 users2] El; simpl in *; try done.
    destruct (String.eqb u1 u2) eqn:E; simpl.
    + apply String.eqb_eq in E as ->. rewrite IH by lia.
      split; [by intros [= ->] | by intros [= ->]].
    + apply String.eqb_neq in E. split; [done | by intros [= -> ->]].
  - apply Nat.eqb_neq in El. split; [done | intros [= ->]; done].
Qed.

(** X12. [isUsersEqual] holds exactly of equal users: both not set, or
    the same claims in the same order. *)
Theorem isUsersEqual_eq (users1 users2 : option (list string)) :
  isUsersEqual users1 users2 = true ↔ users1 = users2.
Proof. exact (isUsersEqual_true users1 users2). Qed.

(** ** The tables of the service provider *)

Lemma find_hasID_None (id : string) (tbl : list Service) :
  find (hasID id) tbl = None ↔ existsb (hasID id) tbl = false.
Proof. induction tbl as [|s tbl IH]; simpl; [done|]. by destruct (hasID id s). Qed.

Lemma find_hasID_app (id : string) (tbl : list Service) (service : Service) :
  find (hasID id) (tbl ++ [service])
  = match find (hasID id) tbl with
    | Some s => Some s
    | None => if hasID id service then Some service else None
    end.
Proof. induction tbl as [|s tbl IH]; simpl; [done|]. by destruct (hasID id s). Qed.

Lemma find_hasID_filter (id id' : string) (tbl : list Service) :
  find (hasID id') (filter (fun s => ID s ≠ id) tbl)
  = if String.eqb id id' then None else find (hasID id') tbl.
Proof.
  induction tbl as [|s tbl IH]; simpl.
  - by destruct (String.eqb id id').
  - rewrite filter_cons. unfold hasID in *. destruct (decide (ID s ≠ id)) as [Hne|He].
    + simpl. rewrite IH. destruct (String.eqb (ID s) id') eqn:E; [|done].
      apply String.eqb_eq in E. subst id'.
      by assert (String.eqb id (ID s) = false) as -> by (apply String.eqb_neq; congruence).
    + apply dec_stable in He. subst id. rewrite IH.
      by destruct (String.eqb (ID s) id').
Qed.

Lemma elem_of_insertByID (x s : Service) (l : list Service) :
  x ∈ insertByID s l ↔ x = s ∨ x ∈ l.
Proof.
  induction l as [|y l IH]; simpl.
  - rewrite list_elem_of_singleton. split; [by left | intros [H|H]; [done|]].
    by apply elem_of_nil in H.
  - destruct (String.leb (ID s) (ID y)).
    + by rewrite elem_of_cons.
    + rewrite !elem_of_cons, IH. tauto.
Qed.

Lemma elem_of_sortByID (x : Service) (l : list Service) :
  x ∈ sortByID l ↔ x ∈ l.
Proof.
  induction l as [|y l IH]; simpl; [done|].
  by rewrite elem_of_insertByID, IH, elem_of_cons.
Qed.

(** The [uint64] fields of a service that the statements of the
    services table take as arguments are below [2 ^ 63]. *)
Definition storable (service : Service) : Prop :=
  Version service < 2 ^ 63 ∧ TTL service < 2 ^ 63 ∧
  UploadLimit service < 2 ^ 63 ∧ DownloadLimit service < 2 ^ 63 ∧
  StorageLimit service < 2 ^ 63 ∧ StateLimit service < 2 ^ 63.

Lemma convertArgs_None (args : list (string * Z)) :
  convertArgs args = None ↔ Forall (fun p => snd p < 2 ^ 63) args.
Proof.
  induction args as [|[argument v] args IH]; simpl.
  - split; [constructor | done].
  - destruct (2 ^ 63 <=? v) eqn:E.
    + apply Z.leb_le in E. split; [done|]. intros H. apply Forall_cons in H as [H _].
      simpl in H. lia.
    + apply Z.leb_gt in E. rewrite IH. split.
      * intros H. by constructor.
      * intros H. by apply Forall_cons in H as [_ H].
Qed.

Lemma convertArgs_Some (args : list (string * Z)) (err : error) :
  convertArgs args = Some err → ∃ argument, err = highBit argument.
Proof.
  induction args as [|[argument v] args IH]; simpl; [done|].
  destruct (2 ^ 63 <=? v); [|exact IH]. intros [= <-]. by exists argument.
Qed.

Lemma storable_args (service : Service) (a1 a2 a3 a4 a5 a6 : string) :
  convertArgs [(a1, Version service); (a2, TTL service); (a3, UploadLimit service);
               (a4, DownloadLimit service); (a5, StorageLimit service);
               (a6, StateLimit service)] = None
  ↔ storable service.
Proof.
  rewrite convertArgs_None. unfold storable. split.
  - intros H. repeat (apply Forall_cons in H as [? H]). simpl in *. done.
  - intros (? & ? & ? & ? & ? & ?). repeat (constructor; [done|]). constructor.
Qed.

Lemma AddService_storable (service : Service) (st : Store) :
  storable service →
  AddService service st
  = if existsb (hasID (ID service)) (servicesTable st)
    then (Some ErrConstraint, st)
    else (None, setServicesTable (servicesTable st ++ [service]) st).
Proof. intros H. unfold AddService. by rewrite (proj2 (storable_args _ _ _ _ _ _ _) H). Qed.

Lemma UpdateService_storable (service : Service) (st : Store) :
  storable service →
  UpdateService service st = updateRow (ID service) (fun _ => service) st.
Proof. intros H. unfold UpdateService. by rewrite (proj2 (storable_args _ _ _ _ _ _ _) H). Qed.

Lemma AddService_refused (service : Service) (st : Store) :
  ¬ storable service → ∃ argument, AddService service st = (Some (highBit argument), st).
Proof.
  intros H. unfold AddService.
  destruct (convertArgs _) as [err|] eqn:E.
  - apply convertArgs_Some in E as [argument ->]. by exists argument.
  - by apply storable_args in E.
Qed.

Lemma UpdateService_refused (service : Service) (st : Store) :
  ¬ storable service → ∃ argument, UpdateService service st = (Some (highBit argument), st).
Proof.
  intros H. unfold UpdateService.
  destruct (convertArgs _) as [err|] eqn:E.
  - apply convertArgs_Some in E as [argument ->]. by exists argument.
  - by apply storable_args in E.
Qed.

(** X13. For a service whose id has no row in the services table and
    whose [uint64] fields are all below [2 ^ 63]: [UpdateService] fails
    with [ErrNotExist]; [AddService] succeeds and [GetService] then
    returns the service as it was added; a second [AddService] fails on
    the primary key; after [RemoveService] the id has no row again; and
    adding does not change what [GetService] returns for another id.
    When one of these fields is [2 ^ 63] or more, [AddService] and
    [UpdateService] fail on the conversion of that argument and leave
    the table as it is. [RemoveService] does not change what
    [GetService] returns for another id. *)
Theorem services_table_round_trip (service : Service) (st : Store) :
  fst (GetService (ID service) st) = Err ErrNotExist →
  (storable service →
     fst (UpdateService service st) = Some ErrNotExist ∧
     fst (AddService service st) = None ∧
     fst (GetService (ID service) (snd (AddService service st))) = Ok service ∧
     fst (AddService service (snd (AddService service st))) = Some ErrConstraint ∧
     fst (GetService (ID service)
            (snd (RemoveService (ID service) (snd (AddService service st)))))
       = Err ErrNotExist ∧
     ∀ id, id ≠ ID service →
       fst (GetService id (snd (AddService service st))) = fst (GetService id st)) ∧
  (¬ storable service →
     ∃ argument argument',
       AddService service st = (Some (highBit argument), st) ∧
       UpdateService service st = (Some (highBit argument'), st)) ∧
  (∀ id, id ≠ ID service →
     fst (GetService id (snd (RemoveService (ID service) st))) = fst (GetService id st)).
Proof.
  intros Hnone. split; [|split].
  - intros Hstorable.
    rewrite UpdateService_storable, !AddService_storable by done.
    revert Hnone.
    unfold GetService, updateRow, RemoveService. cbn [fst snd].
    destruct (find (hasID (ID service)) (servicesTable st)) as [s|] eqn:Efind; [done|].
    intros _. pose proof (proj1 (find_hasID_None _ _) Efind) as Hex. rewrite Hex.
    cbn [fst snd setServicesTable servicesTable].
    assert (Hself : hasID (ID service) service = true) by apply String.eqb_refl.
    split; [done|]. split; [done|]. split.
    { by rewrite find_hasID_app, Efind, Hself. }
    split.
    { assert (existsb (hasID (ID service)) (servicesTable st ++ [service]) = true) as ->;
        [|done].
      rewrite existsb_app. simpl. by rewrite Hself, orb_true_r. }
    split.
    { by rewrite find_hasID_filter, String.eqb_refl. }
    intros id Hne.
    assert (Hneb : String.eqb (ID service) id = false) by (apply String.eqb_neq; congruence).
    rewrite find_hasID_app. unfold hasID at 2. rewrite Hneb.
    by destruct (find (hasID id) (servicesTable st)).
  - intros Hhigh.
    destruct (AddService_refused service st Hhigh) as [argument Hadd].
    destruct (UpdateService_refused service st Hhigh) as [argument' Hupdate].
    by exists argument, argument'.
  - intros id Hne.
    assert (Hneb : String.eqb (ID service) id = false) by (apply String.eqb_neq; congruence).
    unfold GetService, RemoveService. cbn [fst snd setServicesTable servicesTable].
    by rewrite find_hasID_filter, Hneb.
Qed.

Lemma services_table_round_trip_witness :
  fst (GetService "B" (snd (AddService (mkService "B" 1 "default" "" "" "" "" "" stateInit
                                          statusOk 0%nat 0 "" 0 0 0 0 0 0 [] "") installedA7)))
  = Ok (mkService "B" 1 "default" "" "" "" "" "" stateInit statusOk 0%nat 0 "" 0 0 0 0 0 0 [] "").
Proof.
  destruct (services_table_round_trip
              (mkService "B" 1 "default" "" "" "" "" "" stateInit statusOk 0%nat 0 "" 0 0 0 0 0 0
                 [] "")
              installedA7 eq_refl) as [H _].
  destruct H as (_ & _ & H & _); [by repeat split | exact H].
Defined.

Lemma find_isUsersRow_None (us : option (list string)) (id : string)
    (tbl : list UsersService) :
  find (isUsersRow us id) tbl = None ↔ existsb (isUsersRow us id) tbl = false.
Proof. induction tbl as [|u tbl IH]; simpl; [done|]. by destruct (isUsersRow us id u). Qed.

Lemma isUsersRow_true (us us' : option (list string)) (id id' : string) (u : UsersService) :
  isUsersRow us id u = true → isUsersRow us' id' u = true → us' = us ∧ id' = id.
Proof.
  unfold isUsersRow. rewrite !andb_true_iff, !bool_decide_eq_true, !String.eqb_eq.
  intros [<- <-] [<- <-]. done.
Qed.

Lemma find_isUsersRow_app (us : option (list string)) (id : string)
    (tbl : list UsersService) (row : UsersService) :
  find (isUsersRow us id) (tbl ++ [row])
  = match find (isUsersRow us id) tbl with
    | Some u => Some u
    | None => if isUsersRow us id row then Some row else None
    end.
Proof. induction tbl as [|u tbl IH]; simpl; [done|]. by destruct (isUsersRow us id u). Qed.

Lemma find_isUsersRow_filter (P : UsersService → Prop) `{∀ u, Decision (P u)}
    (us : option (list string)) (id : string) (tbl : list UsersService) :
  (∀ u, isUsersRow us id u = true → P u) →
  find (isUsersRow us id) (filter P tbl) = find (isUsersRow us id) tbl.
Proof.
  intros HP. induction tbl as [|u tbl IH]; simpl; [done|].
  rewrite filter_cons. destruct (isUsersRow us id u) eqn:E.
  - rewrite decide_True by (by apply HP). simpl. by rewrite E.
  - destruct (decide (P u)); [simpl; by rewrite E | done].
Qed.

Lemma find_isUsersRow_removed (P : UsersService → Prop) `{∀ u, Decision (P u)}
    (us : option (list string)) (id : string) (tbl : list UsersService) :
  (∀ u, isUsersRow us id u = true → ¬ P u) →
  find (isUsersRow us id) (filter P tbl) = None.
Proof.
  intros HP. induction tbl as [|u tbl IH]; simpl; [done|].
  rewrite filter_cons. destruct (decide (P u)) as [Hp|Hp]; [|done].
  simpl. destruct (isUsersRow us id u) eqn:E; [|done]. by destruct (HP u E).
Qed.

(** X14. For users and a service without entry in the users table:
    [AddServiceToUsers] succeeds and [GetUsersService] then returns the
    entry, with empty storage folder and state checksum; a second
    [AddServiceToUsers] fails on the primary key; after
    [RemoveServiceFromUsers], and also after [RemoveServiceFromAllUsers],
    the entry is gone; and adding or removing changes the entry of no
    other pair of users and service. *)
Theorem users_table_round_trip (us : option (list string)) (serviceID : string) (st : Store) :
  fst (GetUsersService us serviceID st) = Err ErrNotExist →
  fst (AddServiceToUsers us serviceID st) = None ∧
  fst (GetUsersService us serviceID (snd (AddServiceToUsers us serviceID st)))
    = Ok (mkUsersService us serviceID "" []) ∧
  fst (AddServiceToUsers us serviceID (snd (AddServiceToUsers us serviceID st)))
    = Some ErrConstraint ∧
  fst (GetUsersService us serviceID
         (snd (RemoveServiceFromUsers us serviceID (snd (AddServiceToUsers us serviceID st)))))
    = Err ErrNotExist ∧
  fst (GetUsersService us serviceID
         (snd (RemoveServiceFromAllUsers serviceID (snd (AddServiceToUsers us serviceID st)))))
    = Err ErrNotExist ∧
  ∀ us' id', (us' ≠ us ∨ id' ≠ serviceID) →
    fst (GetUsersService us' id' (snd (AddServiceToUsers us serviceID st)))
      = fst (GetUsersService us' id' st) ∧
    fst (GetUsersService us' id' (snd (RemoveServiceFromUsers us serviceID st)))
      = fst (GetUsersService us' id' st).
Proof.
  unfold GetUsersService, AddServiceToUsers, RemoveServiceFromUsers, RemoveServiceFromAllUsers.
  cbn [fst snd].
  destruct (find (isUsersRow us serviceID) (usersTable st)) as [u|] eqn:Efind; [done|].
  intros _. pose proof (proj1 (find_isUsersRow_None _ _ _) Efind) as Hex. rewrite Hex.
  cbn [fst snd setUsersTable usersTable].
  assert (Hself : isUsersRow us serviceID (mkUsersService us serviceID "" []) = true).
  { unfold isUsersRow. simpl. by rewrite bool_decide_eq_true_2, String.eqb_refl. }
  split; [done|]. split.
  { by rewrite find_isUsersRow_app, Efind, Hself. }
  split.
  { assert (existsb (isUsersRow us serviceID)
              (usersTable st ++ [mkUsersService us serviceID "" []]) = true) as ->; [|done].
    rewrite existsb_app. simpl. by rewrite Hself, orb_true_r. }
  split.
  { rewrite find_isUsersRow_removed; [done|]. intros u Hu. congruence. }
  split.
  { rewrite find_isUsersRow_removed; [done|]. intros u Hu Hne. apply Hne.
    unfold isUsersRow in Hu. apply andb_true_iff in Hu as [_ Hu]. by apply String.eqb_eq. }
  intros us' id' Hne.
  assert (Hother : ∀ u, isUsersRow us' id' u = true → isUsersRow us serviceID u = false).
  { intros u Hu. apply not_true_iff_false. intros Hu'.
    destruct (isUsersRow_true _ _ _ _ _ Hu Hu') as [-> ->]. by destruct Hne. }
  split.
  - rewrite find_isUsersRow_app.
    destruct (find (isUsersRow us' id') (usersTable st)); [done|].
    destruct (isUsersRow us' id' (mkUsersService us serviceID "" [])) eqn:E; [|done].
    apply Hother in E. congruence.
  - by rewrite find_isUsersRow_filter.
Qed.

Lemma users_table_round_trip_witness :
  fst (GetUsersService (Some ["user2"]) "A"
         (snd (AddServiceToUsers (Some ["user2"]) "A" installedA7)))
  = Ok (mkUsersService (Some ["user2"]) "A" "" []) ∧
  fst (GetUsersService (Some ["user1"]) "A"
         (snd (RemoveServiceFromUsers (Some ["user2"]) "A" installedA7)))
  = Ok (mkUsersService (Some ["user1"]) "A" "" []).
Proof.
  destruct (users_table_round_trip (Some ["user2"]) "A" installedA7 eq_refl)
    as (_ & Hget & _ & _ & _ & Hother).
  split; [exact Hget|].
  destruct (Hother (Some ["user1"]) "A") as [_ ->]; [by left | reflexivity].
Defined.

(** ** Stopping and starting a service *)

Section Lifecycle.

Variable env : Env.
Variable launcher : Launcher.

Lemma updateServiceState_error (id : string) (state : ServiceState)
    (status : ServiceStatus) (st : Store) :
  fst (updateServiceState env launcher id state status st)
  = match find (hasID id) (servicesTable st) with
    | Some _ => None
    | None => Some ErrNotExist
    end.
Proof.
  unfold updateServiceState. rewrite bind_run.
  unfold GetService. cbn [fst snd].
  destruct (find (hasID id) (servicesTable st)) as [service|] eqn:Efind; [|done].
  rewrite bind_run.
  set (m := if monitor launcher then _ else _).
  assert (Hm : keepsStore m).
  { unfold m. apply keepsStore_if; [apply keepsStore_updateMonitoring | apply keepsStore_ret]. }
  rewrite (keepsStore_eq m st Hm).
  generalize (clock (snd (m st))). intros c0.
  pose proof (find_existsb _ _ _ Efind) as Hex.
  unfold orReturn, SetServiceState, SetServiceStatus, updateRow, setServicesTable.
  destruct (decide (State service = state)) as [Hs|Hs];
    destruct (decide (Status service = status)) as [Hq|Hq];
    repeat (progress (rewrite ?bind_run, ?ret_run, ?existsb_map_row, ?Hex by done;
                      cbn [fst snd servicesTable usersTable units clock]));
    done.
Qed.

Lemma stopService_error (service : Service) (st : Store) :
  fst (stopService env launcher service st)
  = firstError (outcome env (clock st))
      (match find (hasID (ID service)) (servicesTable st) with
       | Some _ => None
       | None => Some ErrNotExist
       end).
Proof.
  unfold stopService. rewrite !bind_run.
  unfold deleteUnit at 1 2 3 4. cbn [fst snd].
  set (st1 := setUnits _ st).
  assert (Hpost : ∀ x, fst (poststopService env launcher service x) = None).
  { intros x. unfold poststopService. by rewrite !bind_run, ret_run. }
  rewrite Hpost, updateServiceState_error, ret_run. cbn [fst].
  rewrite (keepsStore_eq (poststopService env launcher service) _
             (keepsStore_poststopService env launcher service)).
  rewrite (keepsStore_eq (ext env) st1 (keepsStore_ext env)).
  cbn [servicesTable usersTable units clock st1 setUnits fst ext].
  reflexivity.
Qed.

Lemma stopService_effect (service : Service) (st : Store) :
  (fst (stopService env launcher service st) = None ↔
     outcome env (clock st) = None ∧
     is_Some (find (hasID (ID service)) (servicesTable st))) ∧
  (∀ err, fst (stopService env launcher service st) = Some err →
     outcome env (clock st) = Some err ∨ err = ErrNotExist) ∧
  units (snd (stopService env launcher service st)) !! UnitName service = None ∧
  usersTable (snd (stopService env launcher service st)) = usersTable st ∧
  (∀ row, find (hasID (ID service)) (servicesTable st) = Some row →
     ∃ row', find (hasID (ID service)) (servicesTable (snd (stopService env launcher service st)))
               = Some row' ∧
       State row' = stateStopped ∧ Status row' = statusOk ∧ Version row' = Version row) ∧
  (∀ id, id ≠ ID service →
     find (hasID id) (servicesTable (snd (stopService env launcher service st)))
     = find (hasID id) (servicesTable st)).
Proof.
  rewrite stopService_error.
  destruct (stopService_store env launcher service st) as [c ->]. cbn [units usersTable servicesTable].
  split; [|split; [|split; [|split; [|split]]]].
  - destruct (outcome env (clock st)) as [e|];
      destruct (find (hasID (ID service)) (servicesTable st)) as [row|]; simpl;
      split; try done; try (by intros [? ?]); try (by intros [_ [? ?]]).
  - intros err. destruct (outcome env (clock st)) as [e|]; simpl.
    + intros [= <-]. by left.
    + destruct (find _ _); [done|]. intros [= <-]. by right.
  - apply lookup_delete_eq.
  - done.
  - intros row Hrow.
    destruct (setRow_find _ stateStopped statusOk _ _ Hrow) as (row' & H1 & H2 & H3 & H4 & _).
    by exists row'.
  - intros id Hne. by apply setRow_find_other.
Qed.

(** X15. [stopService] succeeds exactly when stopping the unit reports
    no error and the service has a row in the services table; an error
    it returns is the error of stopping the unit or [ErrNotExist]. In
    every case the unit name of the service is afterwards not in the
    launcher's map from unit names to services and the users table is
    unchanged; a row of the service is then in state stopped with status
    OK and its version kept, and the rows of the other services are not
    touched. *)
Theorem stopService_outcome (service : Service) (st : Store) :
  (fst (stopService env launcher service st) = None ↔
     outcome env (clock st) = None ∧
     is_Some (find (hasID (ID service)) (servicesTable st))) ∧
  (∀ err, fst (stopService env launcher service st) = Some err →
     outcome env (clock st) = Some err ∨ err = ErrNotExist) ∧
  units (snd (stopService env launcher service st)) !! UnitName service = None ∧
  usersTable (snd (stopService env launcher service st)) = usersTable st ∧
  (∀ row, find (hasID (ID service)) (servicesTable st) = Some row →
     ∃ row', find (hasID (ID service)) (servicesTable (snd (stopService env launcher service st)))
               = Some row' ∧
       State row' = stateStopped ∧ Status row' = statusOk ∧ Version row' = Version row) ∧
  (∀ id, id ≠ ID service →
     find (hasID id) (servicesTable (snd (stopService env launcher service st)))
     = find (hasID id) (servicesTable st)).
Proof. exact (stopService_effect service st). Qed.

(** What a successful [startService] does to the services table: the
    row of the service is set running, and its start time is set. *)
Definition startedRow (id : string) (time : nat) (tbl : list Service) : list Service :=
  let tbl1 := setRow id stateRunning statusOk tbl in
  if existsb (hasID id) tbl1
  then map (fun s => if hasID id s then withStartAt time s else s) tbl1
  else tbl1.

Lemma startService_store (service : Service) (st : Store) :
  (∃ err, fst (startService env launcher service st) = Some err ∧
     servicesTable (snd (startService env launcher service st)) = servicesTable st ∧
     usersTable (snd (startService env launcher service st)) = usersTable st ∧
     units (snd (startService env launcher service st)) = units st) ∨
  (fst (startService env launcher service st) = None ∧
   ∃ time c, snd (startService env launcher service st)
     = mkStore (startedRow (ID service) time (servicesTable st)) (usersTable st)
         (<[UnitName service := ID service]> (units st)) c).
Proof.
  unfold startService, orReturn. rewrite bind_run.
  pose proof (keepsStore_eq _ st (keepsStore_prestartService env service)) as Hpre.
  destruct (fst (prestartService env service st)) as [err|] eqn:Epre.
  { left. exists err. rewrite ret_run, Hpre. by cbn. }
  rewrite bind_run, Hpre. set (st1 := mkStore _ _ _ _).
  pose proof (keepsStore_eq _ st1 (keepsStore_ext env)) as Hext.
  destruct (fst (ext env st1)) as [err|] eqn:Eext.
  { left. exists err. rewrite ret_run, Hext. by cbn. }
  right. rewrite !bind_run, ret_run. cbn [fst snd]. split; [done|].
  rewrite Hext. cbn [servicesTable usersTable units st1].
  match goal with |- context [updateServiceState env launcher ?i ?a ?b ?x] =>
    destruct (updateServiceState_store env launcher i a b x) as [c3 ->]
  end.
  cbn [servicesTable usersTable units].
  unfold now, SetServiceStartTime, updateRow, storeUnit, setUnits, setServicesTable, startedRow.
  cbn [fst snd servicesTable usersTable units clock].
  exists c3. destruct (existsb _ _); cbn [fst snd servicesTable usersTable units clock];
    by eexists.
Qed.

Lemma find_map_row (id : string) (f : Service → Service) (tbl : list Service) :
  (∀ s, ID (f s) = ID s) →
  find (hasID id) (map (fun s => if hasID id s then f s else s) tbl)
  = f <$> find (hasID id) tbl.
Proof.
  intros Hf. induction tbl as [|s tbl IH]; simpl; [done|].
  destruct (hasID id s) eqn:E.
  - unfold hasID in *. by rewrite Hf, E.
  - by rewrite E.
Qed.

Lemma startedRow_find (id : string) (time : nat) (tbl : list Service) (row : Service) :
  find (hasID id) tbl = Some row →
  ∃ row', find (hasID id) (startedRow id time tbl) = Some row' ∧
    State row' = stateRunning ∧ Status row' = statusOk ∧ StartAt row' = time ∧
    Version row' = Version row.
Proof.
  intros Hrow. unfold startedRow.
  destruct (setRow_find _ stateRunning statusOk _ _ Hrow) as (r1 & H1 & Hs & Hq & Hv & _).
  rewrite (find_existsb _ _ _ H1), find_map_row by done. rewrite H1. simpl.
  by eexists.
Qed.

Lemma startedRow_find_other (id id' : string) (time : nat) (tbl : list Service) :
  id' ≠ id → find (hasID id') (startedRow id time tbl) = find (hasID id') tbl.
Proof.
  intros Hne. unfold startedRow. destruct (existsb _ _).
  - rewrite find_map_other by done. by apply setRow_find_other.
  - by apply setRow_find_other.
Qed.

Lemma startedRow_absent (id : string) (time : nat) (tbl : list Service) :
  find (hasID id) tbl = None → startedRow id time tbl = tbl.
Proof.
  intros Hnone. unfold startedRow, setRow. rewrite Hnone.
  by rewrite (proj1 (find_hasID_None _ _) Hnone).
Qed.

Lemma startService_effect (service : Service) (st : Store) :
  let st' := snd (startService env launcher service st) in
  usersTable st' = usersTable st ∧
  (∀ id, id ≠ ID service →
     find (hasID id) (servicesTable st') = find (hasID id) (servicesTable st)) ∧
  (∀ err, fst (startService env launcher service st) = Some err →
     servicesTable st' = servicesTable st ∧ units st' = units st) ∧
  (fst (startService env launcher service st) = None →
     units st' !! UnitName service = Some (ID service) ∧
     (find (hasID (ID service)) (servicesTable st) = None →
        servicesTable st' = servicesTable st) ∧
     ∀ row, find (hasID (ID service)) (servicesTable st) = Some row →
       ∃ row', find (hasID (ID service)) (servicesTable st') = Some row' ∧
         State row' = stateRunning ∧ Status row' = statusOk ∧
         Version row' = Version row).
Proof.
  intros st'. unfold st'.
  destruct (startService_store service st) as [(err & -> & H1 & H2 & H3) | (-> & time & c & ->)].
  - rewrite H1, H2, H3. split; [done|]. split; [done|]. split; [done | done].
  - cbn [servicesTable usersTable units]. split; [done|]. split.
    { intros id Hne. by apply startedRow_find_other. }
    split; [done|]. intros _. split; [apply lookup_insert_eq|]. split.
    + apply startedRow_absent.
    + intros row Hrow.
      destruct (startedRow_find _ time _ _ Hrow) as (row' & H1 & H2 & H3 & _ & H5).
      by exists row'.
Qed.


(** ** Uninstalling *)

Lemma find_hasID_ID (id : string) (tbl : list Service) (row : Service) :
  find (hasID id) tbl = Some row → ID row = id ∧ row ∈ tbl.
Proof.
  induction tbl as [|s tbl IH]; simpl; [done|].
  destruct (hasID id s) eqn:E.
  - intros [= <-]. split; [by apply String.eqb_eq | left].
  - intros H. destruct (IH H). split; [done | by right].
Qed.

(** X17. [uninstallService] of an id without row returns version 0 and
    [ErrNotExist] and changes nothing. For an id with a row it returns
    the version of that row, and when no users are set it fails with
    the users error and changes nothing. When it succeeds, the service
    has no entry for the current users any more, its unit name is not
    in the launcher's map from unit names to services, and its row is
    still in the services table, stopped and with the same version. *)
Theorem uninstallService_outcome (id : string) (st : Store) :
  (find (hasID id) (servicesTable st) = None →
     uninstallService env launcher id st = (0, Some ErrNotExist, st)) ∧
  (∀ service, find (hasID id) (servicesTable st) = Some service →
     fst (fst (uninstallService env launcher id st)) = Version service ∧
     (users launcher = None →
        uninstallService env launcher id st = (Version service, Some ErrUsersNotSet, st))) ∧
  (snd (fst (uninstallService env launcher id st)) = None →
     fst (GetUsersService (users launcher) id (snd (uninstallService env launcher id st)))
       = Err ErrNotExist ∧
     ∃ service row',
       find (hasID id) (servicesTable st) = Some service ∧
       units (snd (uninstallService env launcher id st)) !! UnitName service = None ∧
       find (hasID id) (servicesTable (snd (uninstallService env launcher id st)))
         = Some row' ∧
       State row' = stateStopped ∧ Version row' = Version service).
Proof.
  unfold uninstallService. rewrite bind_run.
  assert (Hget : GetService id st
                 = (match find (hasID id) (servicesTable st) with
                    | Some s => Ok s | None => Err ErrNotExist end, st)) by reflexivity.
  rewrite Hget. cbn [fst snd]. clear Hget.
  destruct (find (hasID id) (servicesTable st)) as [service|] eqn:Efind.
  2: { split; [done|]. split; [done|]. by rewrite ret_run. }
  destruct (find_hasID_ID _ _ _ Efind) as [Hid _].
  split; [done|]. split.
  { intros service0 [= <-]. split; [|by intros ->].
    repeat (rewrite ?bind_run, ?ret_run; cbn [fst snd]; try done;
            match goal with |- context [match ?x with _ => _ end] => destruct x end). }
  destruct (users launcher) as [us|]; [|by rewrite ret_run].
  rewrite bind_run.
  destruct (stopService_store env launcher service st) as [c Hstore].
  destruct (fst (stopService env launcher service st)) as [err|]; [by rewrite ret_run|].
  rewrite Hstore, bind_run.
  assert (Hgu : ∀ x, GetUsersService (Some us) (ID service) x
                 = (match find (isUsersRow (Some us) (ID service)) (usersTable x) with
                    | Some u => Ok (mkUsersService (Some us) (ID service) (StorageFolder u)
                                      (StateChecksum u))
                    | None => Err ErrNotExist end, x)) by reflexivity.
  rewrite Hgu. cbn [fst snd usersTable]. rewrite Hid.
  destruct (find (isUsersRow (Some us) id) (usersTable st)) as [u|] eqn:Eu;
    [|by rewrite ret_run].
  rewrite bind_run. cbn [StorageFolder].
  set (m := if String.eqb (StorageFolder u) "" then _ else _).
  assert (Hm : keepsStore m).
  { unfold m. apply keepsStore_if; [apply keepsStore_ret | apply keepsStore_ext]. }
  match goal with |- context [m ?x] => rewrite (keepsStore_eq m x Hm);
    generalize (clock (snd (m x))); intros c1;
    destruct (fst (m x)) as [err|] end; [by rewrite ret_run|].
  cbn [servicesTable usersTable units].
  rewrite bind_run, ret_run. unfold RemoveServiceFromUsers, setUsersTable.
  cbn [fst snd servicesTable usersTable units]. intros _. split.
  - unfold GetUsersService. cbn [fst usersTable].
    rewrite find_isUsersRow_removed; [done|]. intros u' Hu'. congruence.
  - destruct (setRow_find _ stateStopped statusOk _ _ Efind) as (row' & H1 & H2 & _ & H4 & _).
    exists service, row'. split; [done|]. split; [apply lookup_delete_eq|]. done.
Qed.

(** ** Installing a service that is not in the table *)

Lemma keepsStore_removeStorageFolders (usersServices : list UsersService) :
  keepsStore (removeStorageFolders env usersServices).
Proof.
  induction usersServices as [|u rest IH]; simpl; [apply keepsStore_ret|].
  apply keepsStore_bind; [apply keepsStore_if; [apply keepsStore_ret | apply keepsStore_ext]|].
  intros e. apply keepsStore_bind; [exact IH|]. intros e'. apply keepsStore_ret.
Qed.

Lemma removeService_store (service : Service) (st : Store) :
  ∃ c, snd (removeService env launcher service st)
       = mkStore (filter (fun s => ID s ≠ ID service)
                    (setRow (ID service) stateStopped statusOk (servicesTable st)))
           (filter (fun u => ServiceID u ≠ ID service) (usersTable st))
           (delete (UnitName service) (units st)) c.
Proof.
  unfold removeService. rewrite bind_run.
  destruct (stopService_store env launcher service st) as [c0 ->].
  rewrite bind_run. set (st1 := mkStore _ _ _ c0).
  rewrite (keepsStore_eq (ext env) st1 (keepsStore_ext env)).
  generalize (clock (snd (ext env st1))). intros c1.
  rewrite bind_run. unfold GetUsersServicesByServiceID at 1 2. cbn [fst snd].
  rewrite bind_run.
  match goal with |- context [removeStorageFolders env ?l ?x] =>
    rewrite (keepsStore_eq (removeStorageFolders env l) x
               (keepsStore_removeStorageFolders l));
    generalize (clock (snd (removeStorageFolders env l x))) end.
  intros c2. cbn [servicesTable usersTable units st1].
  rewrite bind_run. unfold RemoveServiceFromAllUsers at 1 2, setUsersTable. cbn [fst snd].
  cbn [servicesTable usersTable units clock].
  rewrite bind_run. unfold RemoveService at 1 2, setServicesTable. cbn [fst snd].
  cbn [servicesTable usersTable units clock].
  rewrite bind_run.
  set (m := if network launcher then _ else _).
  assert (Hm : keepsStore m).
  { unfold m. apply keepsStore_if; [|apply keepsStore_ret].
    apply keepsStore_bind; [by intros x|]. intros l.
    apply keepsStore_if; [apply keepsStore_ext | apply keepsStore_ret]. }
  match goal with |- context [m ?x] => rewrite (keepsStore_eq m x Hm);
    generalize (clock (snd (m x))) end.
  intros c3. cbn [servicesTable usersTable units].
  rewrite !bind_run, ret_run. cbn [snd ext servicesTable usersTable units clock].
  by eexists.
Qed.

Lemma addServiceToCurrentUsers_store (serviceID : string) (st : Store) :
  servicesTable (snd (addServiceToCurrentUsers launcher serviceID st)) = servicesTable st ∧
  units (snd (addServiceToCurrentUsers launcher serviceID st)) = units st ∧
  (fst (addServiceToCurrentUsers launcher serviceID st) = None →
   is_Some (find (isUsersRow (users launcher) serviceID)
              (usersTable (snd (addServiceToCurrentUsers launcher serviceID st))))).
Proof.
  unfold addServiceToCurrentUsers. rewrite bind_run.
  unfold GetUsersService. cbn [fst snd].
  destruct (find (isUsersRow (users launcher) serviceID) (usersTable st)) as [u|] eqn:Eu.
  - rewrite ret_run. cbn [fst snd]. rewrite Eu. by eauto.
  - change (negb (Contains (Error ErrNotExist) "not exist")) with false. cbn iota.
    unfold AddServiceToUsers.
    rewrite (proj1 (find_isUsersRow_None _ _ _) Eu). cbn [fst snd setUsersTable servicesTable
      usersTable units].
    split; [done|]. split; [done|]. intros _.
    rewrite find_isUsersRow_app, Eu.
    assert (isUsersRow (users launcher) serviceID
              (mkUsersService (users launcher) serviceID "" []) = true) as ->; [|by eauto].
    unfold isUsersRow. simpl. by rewrite bool_decide_eq_true_2, String.eqb_refl.
Qed.

Lemma filter_setRow (id : string) (state : ServiceState) (status : ServiceStatus)
    (tbl : list Service) :
  filter (fun s => ID s ≠ id) (setRow id state status tbl) = filter (fun s => ID s ≠ id) tbl.
Proof.
  assert (Hmap : ∀ (f : Service → Service) (l : list Service), (∀ s, ID (f s) = ID s) →
            filter (fun s => ID s ≠ id) (map (fun s => if hasID id s then f s else s) l)
            = filter (fun s => ID s ≠ id) l).
  { intros f l Hf. induction l as [|s l IH]; simpl; [done|].
    rewrite !filter_cons, IH. unfold hasID. destruct (String.eqb (ID s) id) eqn:E.
    - apply String.eqb_eq in E. rewrite !decide_False; [done | by intros H | rewrite Hf; by intros H].
    - done. }
  unfold setRow. destruct (find (hasID id) tbl) as [service|]; [|done].
  destruct (decide (State service = state)); destruct (decide (Status service = status));
    rewrite ?Hmap by done; done.
Qed.

Lemma filter_absent (id : string) (tbl : list Service) :
  find (hasID id) tbl = None → filter (fun s => ID s ≠ id) tbl = tbl.
Proof.
  induction tbl as [|s tbl IH]; simpl; [done|].
  unfold hasID at 1. destruct (String.eqb (ID s) id) eqn:E; [done|].
  intros H. apply String.eqb_neq in E. rewrite filter_cons, decide_True by done.
  by rewrite IH.
Qed.

(** [addService] on a service that has no row: the table is as before
    after a failure, and holds the service, running, after a success. *)
Lemma addService_new (service : Service) (st : Store) :
  find (hasID (ID service)) (servicesTable st) = None →
  (∀ err, fst (addService env launcher service st) = Some err →
     servicesTable (snd (addService env launcher service st)) = servicesTable st) ∧
  (fst (addService env launcher service st) = None →
     units (snd (addService env launcher service st)) !! UnitName service = Some (ID service) ∧
     is_Some (find (isUsersRow (users launcher) (ID service))
                (usersTable (snd (addService env launcher service st)))) ∧
     (∀ id, id ≠ ID service →
        find (hasID id) (servicesTable (snd (addService env launcher service st)))
        = find (hasID id) (servicesTable st)) ∧
     ∃ row, find (hasID (ID service)) (servicesTable (snd (addService env launcher service st)))
              = Some row ∧
       State row = stateRunning ∧ Status row = statusOk ∧ Version row = Version service).
Proof.
  intros Hnew.
  set (P := fun r : option error * Store =>
    (∀ err, fst r = Some err → servicesTable (snd r) = servicesTable st) ∧
    (fst r = None →
       units (snd r) !! UnitName service = Some (ID service) ∧
       is_Some (find (isUsersRow (users launcher) (ID service)) (usersTable (snd r))) ∧
       (∀ id, id ≠ ID service →
          find (hasID id) (servicesTable (snd r)) = find (hasID id) (servicesTable st)) ∧
       ∃ row, find (hasID (ID service)) (servicesTable (snd r)) = Some row ∧
         State row = stateRunning ∧ Status row = statusOk ∧ Version row = Version service)).
  change (P (addService env launcher service st)).
  unfold addService, orReturn at 1 2. rewrite bind_run.
  pose proof (keepsStore_eq _ st (keepsStore_ext env)) as Hext.
  destruct (fst (ext env st)) as [e|].
  { rewrite ret_run, Hext. unfold P. cbn [fst snd servicesTable]. split; [done | done]. }
  rewrite bind_run, Hext. set (st0 := mkStore _ _ _ _).
  destruct (decide (storable service)) as [Hstorable | Hhigh].
  2: { destruct (AddService_refused service st0 Hhigh) as [argument Hadd].
       rewrite Hadd. cbn [fst snd]. rewrite ret_run. unfold P. cbn [fst snd]. by split. }
  assert (Hadd : AddService service st0
                 = (None, mkStore (servicesTable st ++ [service]) (usersTable st) (units st)
                            (clock st0))).
  { rewrite AddService_storable by done.
    assert (existsb (hasID (ID service)) (servicesTable st0) = false) as ->
      by (by apply find_hasID_None).
    reflexivity. }
  rewrite Hadd. cbn [fst snd].
  set (st1 := mkStore (servicesTable st ++ [service]) _ _ _).
  rewrite bind_run.
  set (inner := orReturn _ _).
  assert (Hself : find (hasID (ID service)) (servicesTable st1) = Some service).
  { cbn [st1 servicesTable]. rewrite find_hasID_app, Hnew. unfold hasID.
    by rewrite String.eqb_refl. }
  assert (Hinner :
    (∃ err, fst (inner st1) = Some err ∧ servicesTable (snd (inner st1)) = servicesTable st1) ∨
    (fst (inner st1) = None ∧
     units (snd (inner st1)) !! UnitName service = Some (ID service) ∧
     is_Some (find (isUsersRow (users launcher) (ID service)) (usersTable (snd (inner st1)))) ∧
     (∀ id, id ≠ ID service →
        find (hasID id) (servicesTable (snd (inner st1))) = find (hasID id) (servicesTable st1)) ∧
     ∃ row, find (hasID (ID service)) (servicesTable (snd (inner st1))) = Some row ∧
       State row = stateRunning ∧ Status row = statusOk ∧ Version row = Version service)).
  { unfold inner, orReturn. rewrite bind_run.
    set (net := if network launcher then _ else _).
    assert (Hnet : keepsStore net).
    { unfold net. apply keepsStore_if; [|apply keepsStore_ret].
      apply keepsStore_bind; [apply keepsStore_ext|].
      intros [e|]; [apply keepsStore_ext | apply keepsStore_ret]. }
    pose proof (keepsStore_eq net st1 Hnet) as Hn.
    destruct (fst (net st1)) as [e|].
    { left. exists e. rewrite ret_run, Hn. by cbn. }
    rewrite bind_run, Hn. set (st2 := mkStore _ _ _ _).
    destruct (addServiceToCurrentUsers_store (ID service) st2) as (Ht & Hu & Hrow).
    destruct (fst (addServiceToCurrentUsers launcher (ID service) st2)) as [e|].
    { left. exists e. rewrite ret_run. cbn [fst snd]. by rewrite Ht. }
    specialize (Hrow eq_refl). rewrite bind_run.
    set (st3 := snd (addServiceToCurrentUsers launcher (ID service) st2)) in *.
    pose proof (keepsStore_eq _ st3 (keepsStore_addServiceToSystemd env service)) as Hsys.
    destruct (fst (addServiceToSystemd env service st3)) as [e|].
    { left. exists e. rewrite ret_run, Hsys. cbn [fst snd servicesTable]. by rewrite Ht. }
    rewrite Hsys. set (st4 := mkStore _ _ _ _).
    pose proof (startService_effect service st4) as Hstart. cbv zeta in Hstart.
    destruct Hstart as (Husers & Hothers & Hfail & Hok).
    destruct (fst (startService env launcher service st4)) as [e|].
    { left. exists e. split; [done|]. destruct (Hfail e eq_refl) as [-> _].
      cbn [st4 servicesTable]. by rewrite Ht. }
    right. split; [done|]. destruct (Hok eq_refl) as (Hunit & _ & Hrun).
    split; [done|]. split; [by rewrite Husers|]. split.
    - intros id Hne. rewrite (Hothers id Hne). cbn [st4 servicesTable]. by rewrite Ht.
    - apply Hrun. cbn [st4 servicesTable]. by rewrite Ht. }
  destruct Hinner as [(err & Herr & Htbl) | (Hnone & Hunit & Hurow & Hothers & Hrow)].
  - rewrite Herr, bind_run, ret_run. unfold P. cbn [fst snd]. split; [|done]. intros _ _.
    destruct (removeService_store service (snd (inner st1))) as [c ->].
    cbn [servicesTable]. rewrite filter_setRow, Htbl. cbn [st1 servicesTable].
    rewrite filter_app, filter_absent by done.
    rewrite filter_cons, decide_False by (by intros H). by rewrite filter_nil, app_nil_r.
  - rewrite Hnone, ret_run. unfold P. cbn [fst snd]. split; [done|]. intros _.
    split; [done|]. split; [done|]. split; [|done].
    intros id Hne. rewrite (Hothers id Hne). cbn [st1 servicesTable].
    rewrite find_hasID_app. unfold hasID at 2.
    assert (String.eqb (ID service) id = false) as -> by (apply String.eqb_neq; congruence).
    by destruct (find (hasID id) (servicesTable st)).
Qed.

(** X18. Installing a service that has no row, with users set and valid
    resources, emits no status of its own. When it fails, the services
    table is as before. When it succeeds, the launcher's map from
    unit names to services takes [aos_<id>.service] to the service, the
    service has an entry for the current users, the rows of the other
    services are unchanged, and the service has a row in state running
    with status OK and the version of the request. *)
Theorem installService_new_service (serviceInfo : ServiceInfoFromCloud)
    (us : list string) (st : Store) :
  users launcher = Some us →
  resourcesValid launcher = None →
  find (hasID (cloudID serviceInfo)) (servicesTable st) = None →
  snd (fst (installService env launcher serviceInfo st)) = [] ∧
  (∀ err, fst (fst (installService env launcher serviceInfo st)) = Some err →
     servicesTable (snd (installService env launcher serviceInfo st)) = servicesTable st) ∧
  (fst (fst (installService env launcher serviceInfo st)) = None →
     units (snd (installService env launcher serviceInfo st))
       !! ("aos_" +:+ cloudID serviceInfo +:+ ".service") = Some (cloudID serviceInfo) ∧
     is_Some (find (isUsersRow (Some us) (cloudID serviceInfo))
                (usersTable (snd (installService env launcher serviceInfo st)))) ∧
     (∀ id, id ≠ cloudID serviceInfo →
        find (hasID id) (servicesTable (snd (installService env launcher serviceInfo st)))
        = find (hasID id) (servicesTable st)) ∧
     ∃ row,
       find (hasID (cloudID serviceInfo))
         (servicesTable (snd (installService env launcher serviceInfo st))) = Some row ∧
       State row = stateRunning ∧ Status row = statusOk ∧
       Version row = cloudVersion serviceInfo).
Proof.
  intros Hus Hvalid Hnew.
  set (P := fun r : option error * list ServiceInfo * Store =>
    snd (fst r) = [] ∧
    (∀ err, fst (fst r) = Some err → servicesTable (snd r) = servicesTable st) ∧
    (fst (fst r) = None →
       units (snd r) !! ("aos_" +:+ cloudID serviceInfo +:+ ".service")
         = Some (cloudID serviceInfo) ∧
       is_Some (find (isUsersRow (Some us) (cloudID serviceInfo)) (usersTable (snd r))) ∧
       (∀ id, id ≠ cloudID serviceInfo →
          find (hasID id) (servicesTable (snd r)) = find (hasID id) (servicesTable st)) ∧
       ∃ row, find (hasID (cloudID serviceInfo)) (servicesTable (snd r)) = Some row ∧
         State row = stateRunning ∧ Status row = statusOk ∧
         Version row = cloudVersion serviceInfo)).
  change (P (installService env launcher serviceInfo st)).
  (* [P] looks at the tables and the unit map only *)
  assert (Pkeep : ∀ (A : Type) (m : Run A) res (x : Store), keepsStore m →
            P (res, x) → P (res, snd (m x))).
  { intros A m res x Hm. destruct (Hm x) as (H1 & H2 & H3). unfold P. cbn [fst snd].
    by rewrite H1, H2, H3. }
  assert (Pfail : ∀ err (x : Store), servicesTable x = servicesTable st →
            P (Some err, [], x)).
  { intros err x Hx. unfold P. cbn [fst snd]. split; [done|]. split; [done | done]. }
  unfold installService. rewrite Hus, Hvalid, bind_run.
  assert (Hget : GetService (cloudID serviceInfo) st = (Err ErrNotExist, st)).
  { unfold GetService. by rewrite Hnew. }
  rewrite Hget. cbn [fst snd].
  change (negb (Contains (Error ErrNotExist) "not exist")) with false. cbn iota.
  unfold installImage. rewrite bind_run.
  pose proof (keepsStore_eq _ st (keepsStore_ext env)) as Hext. rewrite Hext.
  set (st0 := mkStore _ _ _ _).
  rewrite !bind_run, ret_run.
  match goal with |- P (?res, snd (ext env ?x)) =>
    apply (Pkeep _ (ext env) res x); [apply keepsStore_ext|]
  end.
  match goal with |- P (fst ?r, snd ?r) => replace (fst r, snd r) with r by (by destruct r) end.
  (* the three calls before the service is prepared *)
  assert (PorFail : ∀ (k : Run (option error * list ServiceInfo)) (x : Store),
            servicesTable x = servicesTable st →
            (∀ y, servicesTable y = servicesTable st → usersTable y = usersTable x →
                  units y = units x → P (k y)) →
            P (orFail (ext env) k x)).
  { intros k x Hx Hk. unfold orFail. rewrite bind_run.
    pose proof (keepsStore_eq _ x (keepsStore_ext env)) as Hx'.
    destruct (fst (ext env x)) as [err|].
    - rewrite ret_run. apply Pfail. rewrite Hx'. by cbn.
    - apply Hk; rewrite Hx'; by cbn. }
  apply PorFail; [done|]. intros y1 Hy1 _ _.
  apply PorFail; [done|]. intros y2 Hy2 _ _.
  apply PorFail; [done|]. intros y3 Hy3 _ _.
  rewrite !bind_run, ret_run.
  match goal with |- P (?res, snd (cleanInstall env ?e ?o ?x)) =>
    apply (Pkeep _ (cleanInstall env e o) res x)
  end.
  { unfold cleanInstall. destruct (fst _) as [err|]; [|apply keepsStore_ret].
    apply keepsStore_bind; [apply keepsStore_ext|]. intros ?.
    apply keepsStore_bind; [apply keepsStore_ext|]. intros ?. apply keepsStore_ret. }
  match goal with |- P (fst ?r, snd ?r) => replace (fst r, snd r) with r by (by destruct r) end.
  unfold addOrUpdate. rewrite bind_run.
  unfold prepareService at 1 2. cbn [fst snd].
  destruct (outcome env (clock y3)) as [err|].
  { cbn [fst snd]. rewrite ret_run. apply Pfail. by cbn. }
  cbn [fst snd]. rewrite bind_run, ret_run.
  set (newService := mkService _ _ _ _ _ _ _ _ _ _ _ _ _ _ _ _ _ _ _ _ _).
  set (y4 := mkStore _ _ _ _).
  destruct (addService_new newService y4) as [Hfail Hok].
  { cbn [newService ID y4 servicesTable]. by rewrite Hy3. }
  unfold P. cbn [fst snd]. split; [done|]. split.
  - intros err Herr. rewrite (Hfail err Herr). cbn [y4 servicesTable]. exact Hy3.
  - intros Hnone. destruct (Hok Hnone) as (Hunit & Hrow & Hothers & Hrun).
    cbn [newService ID UnitName Version] in *. rewrite Hus in Hrow.
    split; [done|]. split; [done|]. split; [|done].
    intros id Hne. rewrite (Hothers id Hne). cbn [y4 servicesTable]. by rewrite Hy3.
Qed.

(** X19. Installing the version that is already installed, with users set
    and valid resources, emits no status, keeps the rows of the other
    services, and keeps a row of the service of the same version. When
    it succeeds, that row is in state running with status OK, the
    launcher's map from unit names to services takes the unit name of
    the installed service to it, and the service has an entry for the
    current users. *)
Theorem installService_same_version (serviceInfo : ServiceInfoFromCloud)
    (service : Service) (us : list string) (st : Store) :
  users launcher = Some us →
  resourcesValid launcher = None →
  find (hasID (cloudID serviceInfo)) (servicesTable st) = Some service →
  cloudVersion serviceInfo = Version service →
  snd (fst (installService env launcher serviceInfo st)) = [] ∧
  (∀ id, id ≠ cloudID serviceInfo →
     find (hasID id) (servicesTable (snd (installService env launcher serviceInfo st)))
     = find (hasID id) (servicesTable st)) ∧
  ∃ row,
    find (hasID (cloudID serviceInfo))
      (servicesTable (snd (installService env launcher serviceInfo st))) = Some row ∧
    Version row = Version service ∧
    (fst (fst (installService env launcher serviceInfo st)) = None →
       State row = stateRunning ∧ Status row = statusOk ∧
       units (snd (installService env launcher serviceInfo st)) !! UnitName service
         = Some (cloudID serviceInfo) ∧
       is_Some (find (isUsersRow (Some us) (cloudID serviceInfo))
                  (usersTable (snd (installService env launcher serviceInfo st))))).
Proof.
  intros Hus Hvalid Hfind Hversion.
  destruct (find_hasID_ID _ _ _ Hfind) as [Hid _].
  set (P := fun r : option error * list ServiceInfo * Store =>
    snd (fst r) = [] ∧
    (∀ id, id ≠ cloudID serviceInfo →
       find (hasID id) (servicesTable (snd r)) = find (hasID id) (servicesTable st)) ∧
    ∃ row, find (hasID (cloudID serviceInfo)) (servicesTable (snd r)) = Some row ∧
      Version row = Version service ∧
      (fst (fst r) = None →
         State row = stateRunning ∧ Status row = statusOk ∧
         units (snd r) !! UnitName service = Some (cloudID serviceInfo) ∧
         is_Some (find (isUsersRow (Some us) (cloudID serviceInfo)) (usersTable (snd r))))).
  change (P (installService env launcher serviceInfo st)).
  unfold installService. rewrite Hus, Hvalid, bind_run.
  assert (Hget : GetService (cloudID serviceInfo) st = (Ok service, st)).
  { unfold GetService. by rewrite Hfind. }
  rewrite Hget. cbn [fst snd].
  assert ((cloudVersion serviceInfo <? Version service) = false) as -> by lia.
  assert ((cloudVersion serviceInfo =? Version service) = true) as -> by lia.
  rewrite bind_run, ret_run. unfold orReturn. rewrite bind_run.
  destruct (addServiceToCurrentUsers_store (cloudID serviceInfo) st) as (Ht & Hu & Hrow).
  destruct (fst (addServiceToCurrentUsers launcher (cloudID serviceInfo) st)) as [e|].
  { rewrite ret_run. unfold P. cbn [fst snd]. rewrite Ht. split; [done|]. split; [done|].
    exists service. split; [done|]. split; [done | done]. }
  specialize (Hrow eq_refl).
  set (st1 := snd (addServiceToCurrentUsers launcher (cloudID serviceInfo) st)) in *.
  pose proof (startService_effect service st1) as Hstart. cbv zeta in Hstart.
  rewrite Hid in Hstart. destruct Hstart as (Husers & Hothers & Hfail & Hok).
  unfold P. cbn [fst snd]. split; [done|]. split.
  { intros id Hne. rewrite (Hothers id Hne). by rewrite Ht. }
  destruct (fst (startService env launcher service st1)) as [e|].
  - destruct (Hfail e eq_refl) as [-> _]. rewrite Ht.
    exists service. split; [done|]. split; [done | done].
  - destruct (Hok eq_refl) as (Hunit & _ & Hrun).
    destruct (Hrun service) as (row' & H1 & H2 & H3 & H4); [by rewrite Ht|].
    exists row'. split; [done|]. split; [done|]. intros _.
    split; [done|]. split; [done|]. split; [done|]. rewrite Husers. by rewrite Hus in Hrow.
Qed.

(** ** Updating a service *)

(** The table holds a row of [id] with version [v], and the rows of the
    other services are those of [tbl0]. *)
Definition holdsVersion (id : string) (v : Z) (tbl0 tbl : list Service) : Prop :=
  (∃ row, find (hasID id) tbl = Some row ∧ Version row = v) ∧
  ∀ id', id' ≠ id → find (hasID id') tbl = find (hasID id') tbl0.

Definition keepsVersion {A : Type} (id : string) (m : Run A) : Prop :=
  ∀ v tbl0 st, holdsVersion id v tbl0 (servicesTable st) →
               holdsVersion id v tbl0 (servicesTable (snd (m st))).

Lemma keepsVersion_keepsStore {A : Type} (id : string) (m : Run A) :
  keepsStore m → keepsVersion id m.
Proof. intros Hm v tbl0 st H. destruct (Hm st) as [-> _]. done. Qed.

Lemma keepsVersion_stopService (service : Service) :
  keepsVersion (ID service) (stopService env launcher service).
Proof.
  intros v tbl0 st [(row & Hrow & Hv) Hothers].
  destruct (stopService_effect service st) as (_ & _ & _ & _ & Hset & Hother).
  destruct (Hset row Hrow) as (row' & Hrow' & _ & _ & Hv'). split.
  - exists row'. split; [done | congruence].
  - intros id' Hne. rewrite (Hother id' Hne). by apply Hothers.
Qed.

Lemma keepsVersion_startService (service : Service) :
  keepsVersion (ID service) (startService env launcher service).
Proof.
  intros v tbl0 st [(row & Hrow & Hv) Hothers].
  pose proof (startService_effect service st) as H. cbv zeta in H.
  destruct H as (_ & Hother & Hfail & Hok). split.
  - destruct (fst (startService env launcher service st)) as [err|].
    + destruct (Hfail err eq_refl) as [-> _]. by exists row.
    + destruct (Hok eq_refl) as (_ & _ & Hrun).
      destruct (Hrun row Hrow) as (row' & Hrow' & _ & _ & Hv').
      exists row'. split; [done | congruence].
  - intros id' Hne. rewrite (Hother id' Hne). by apply Hothers.
Qed.

Lemma keepsVersion_updateServiceState (id : string) (state : ServiceState)
    (status : ServiceStatus) :
  keepsVersion id (updateServiceState env launcher id state status).
Proof.
  intros v tbl0 st [(row & Hrow & Hv) Hothers].
  destruct (updateServiceState_store env launcher id state status st) as [c ->].
  cbn [servicesTable].
  destruct (setRow_find _ state status _ _ Hrow) as (row' & Hrow' & _ & _ & Hv' & _).
  split.
  - exists row'. split; [done | congruence].
  - intros id' Hne. rewrite setRow_find_other by done. by apply Hothers.
Qed.

Lemma keepsVersion_addServiceToCurrentUsers (id serviceID : string) :
  keepsVersion id (addServiceToCurrentUsers launcher serviceID).
Proof.
  intros v tbl0 st H. destruct (addServiceToCurrentUsers_store serviceID st) as [-> _]. done.
Qed.

Lemma find_replace_row (service : Service) (tbl : list Service) :
  find (hasID (ID service))
    (map (fun s => if hasID (ID service) s then service else s) tbl)
  = (fun _ => service) <$> find (hasID (ID service)) tbl.
Proof.
  induction tbl as [|s tbl IH]; simpl; [done|].
  destruct (hasID (ID service) s) eqn:E.
  - unfold hasID. by rewrite String.eqb_refl.
  - by rewrite E.
Qed.

Lemma find_replace_other (service : Service) (id' : string) (tbl : list Service) :
  id' ≠ ID service →
  find (hasID id') (map (fun s => if hasID (ID service) s then service else s) tbl)
  = find (hasID id') tbl.
Proof.
  intros Hne. induction tbl as [|s tbl IH]; simpl; [done|].
  destruct (hasID (ID service) s) eqn:E.
  - unfold hasID in *. apply String.eqb_eq in E.
    assert (String.eqb (ID service) id' = false) as -> by (apply String.eqb_neq; congruence).
    assert (String.eqb (ID s) id' = false) as -> by (apply String.eqb_neq; congruence).
    exact IH.
  - by rewrite IH.
Qed.

(** [UpdateService] of a service that has a row: the row becomes the
    service, or an argument is refused and the table is as before. *)
Lemma UpdateService_row (service : Service) (v : Z) (tbl0 : list Service) (st : Store) :
  holdsVersion (ID service) v tbl0 (servicesTable st) →
  (fst (UpdateService service st) = None ∧
   holdsVersion (ID service) (Version service) tbl0
     (servicesTable (snd (UpdateService service st))) ∧
   find (hasID (ID service)) (servicesTable (snd (UpdateService service st))) = Some service) ∨
  (∃ argument, UpdateService service st = (Some (highBit argument), st)).
Proof.
  intros [(row & Hrow & Hv) Hothers].
  destruct (decide (storable service)) as [Hstorable | Hhigh];
    [left | right; by apply UpdateService_refused].
  rewrite UpdateService_storable by done. unfold updateRow.
  rewrite (find_existsb _ _ _ Hrow). cbn [fst snd setServicesTable servicesTable].
  assert (Hnew : find (hasID (ID service))
                   (map (λ s, if hasID (ID service) s then service else s) (servicesTable st))
                 = Some service) by (by rewrite find_replace_row, Hrow).
  split; [done|]. split; [|done]. split.
  - by exists service.
  - intros id' Hne. rewrite find_replace_other by done. by apply Hothers.
Qed.

Lemma UpdateService_keeps_others (service : Service) (v : Z) (tbl0 : list Service)
    (st : Store) :
  (∀ id', id' ≠ ID service → find (hasID id') (servicesTable st) = find (hasID id') tbl0) →
  ∀ id', id' ≠ ID service →
    find (hasID id') (servicesTable (snd (UpdateService service st))) = find (hasID id') tbl0.
Proof.
  intros Hothers id' Hne. unfold UpdateService, updateRow.
  destruct (convertArgs _); [by apply Hothers|].
  destruct (existsb _ _); cbn [snd setServicesTable servicesTable]; [|by apply Hothers].
  rewrite find_replace_other by done. by apply Hothers.
Qed.

Lemma removeService_row (service : Service) (tbl0 : list Service) (st : Store) :
  (∀ id', id' ≠ ID service →
     find (hasID id') (servicesTable st) = find (hasID id') tbl0) →
  find (hasID (ID service)) (servicesTable (snd (removeService env launcher service st))) = None ∧
  ∀ id', id' ≠ ID service →
    find (hasID id') (servicesTable (snd (removeService env launcher service st)))
    = find (hasID id') tbl0.
Proof.
  intros Hothers. destruct (removeService_store service st) as [c ->]. cbn [servicesTable].
  rewrite filter_setRow. split.
  - by rewrite find_hasID_filter, String.eqb_refl.
  - intros id' Hne. rewrite find_hasID_filter.
    assert (String.eqb (ID service) id' = false) as -> by (apply String.eqb_neq; congruence).
    by apply Hothers.
Qed.

Lemma keepsVersion_restoreService (service : Service) (tbl0 : list Service)
    (st : Store) :
  holdsVersion (ID service) (Version service) tbl0 (servicesTable st) →
  holdsVersion (ID service) (Version service) tbl0
    (servicesTable (snd (restoreService env launcher service st))).
Proof.
  intros Hholds. unfold restoreService. rewrite !bind_run, ret_run. cbn [snd].
  assert (H1 : holdsVersion (ID service) (Version service) tbl0
                 (servicesTable (snd (UpdateService service st)))).
  { destruct (UpdateService_row service _ tbl0 st Hholds) as [(_ & H1 & _) | [argument ->]];
      done. }
  apply keepsVersion_startService.
  apply (keepsVersion_keepsStore _ _ (keepsStore_addServiceToSystemd env service)).
  apply (keepsVersion_keepsStore _ _ (keepsStore_ext env)).
  exact H1.
Qed.

(** X20. [updateService], run for a new version of a service whose row
    holds the old version, leaves the rows of the other services as
    they are and ends in one of three ways. Either the row of the
    service is the new service, no error is returned and the removed
    status of the old version is what is emitted (nothing, when no
    sender is set). Or the service still has a row of the old version
    and nothing is emitted. Or the service has no row left and the
    removed status of the old version is what is emitted (nothing, when
    no sender is set). *)
Theorem updateService_outcome (oldService newService row : Service) (st : Store) :
  ID newService = ID oldService →
  find (hasID (ID oldService)) (servicesTable st) = Some row →
  Version row = Version oldService →
  (∀ id', id' ≠ ID oldService →
     find (hasID id')
       (servicesTable (snd (updateService env launcher oldService newService st)))
     = find (hasID id') (servicesTable st)) ∧
  ((find (hasID (ID oldService))
      (servicesTable (snd (updateService env launcher oldService newService st)))
    = Some newService ∧
    fst (updateService env launcher oldService newService st)
    = (None, send launcher (removedStatus oldService))) ∨
   ((∃ row',
       find (hasID (ID oldService))
         (servicesTable (snd (updateService env launcher oldService newService st)))
       = Some row' ∧ Version row' = Version oldService) ∧
    snd (fst (updateService env launcher oldService newService st)) = []) ∨
   (find (hasID (ID oldService))
      (servicesTable (snd (updateService env launcher oldService newService st))) = None ∧
    snd (fst (updateService env launcher oldService newService st))
    = send launcher (removedStatus oldService))).
Proof.
  intros Hid Hrow Hversion.
  pose proof (keepsVersion_startService newService) as KVstart. rewrite Hid in KVstart.
  pose proof (keepsVersion_stopService newService) as KVstop. rewrite Hid in KVstop.
  pose proof (UpdateService_row newService) as URnew. rewrite Hid in URnew.
  set (id := ID oldService) in *. set (tbl0 := servicesTable st).
  set (holds := fun x : Store => holdsVersion id (Version oldService) tbl0 (servicesTable x)).
  set (P := fun r : option error * list ServiceInfo * Store =>
    (∀ id', id' ≠ id → find (hasID id') (servicesTable (snd r)) = find (hasID id') tbl0) ∧
    ((find (hasID id) (servicesTable (snd r)) = Some newService ∧
      fst r = (None, send launcher (removedStatus oldService))) ∨
     ((∃ row', find (hasID id) (servicesTable (snd r)) = Some row' ∧
               Version row' = Version oldService) ∧ snd (fst r) = []) ∨
     (find (hasID id) (servicesTable (snd r)) = None ∧
      snd (fst r) = send launcher (removedStatus oldService)))).
  change (P (updateService env launcher oldService newService st)).
  (* the body of the function *)
  set (Q := fun r : option error * Store =>
    (∃ e, fst r = Some e ∧ holds (snd r)) ∨
    (fst r = None ∧ find (hasID id) (servicesTable (snd r)) = Some newService ∧
     ∀ id', id' ≠ id → find (hasID id') (servicesTable (snd r)) = find (hasID id') tbl0)).
  assert (Hstep : ∀ (m k : Run (option error)) x, keepsVersion id m → holds x →
            (∀ y, holds y → Q (k y)) → Q (orReturn m k x)).
  { intros m k x Hm Hx Hk. unfold orReturn. rewrite bind_run.
    destruct (fst (m x)) as [e|] eqn:Em.
    - rewrite ret_run. left. exists e. split; [done|]. by apply Hm.
    - apply Hk. by apply Hm. }
  assert (Hst : holds st).
  { split; [by exists row | done]. }
  unfold updateService. rewrite bind_run.
  assert (Hst1 : holds (snd (deleteUnit (UnitName oldService) st))) by exact Hst.
  set (st1 := snd (deleteUnit (UnitName oldService) st)) in *.
  rewrite bind_run.
  set (body := orReturn _ _).
  assert (Hbody : Q (body st1)).
  { unfold body.
    apply Hstep; [apply keepsVersion_updateServiceState | done |]. intros x1 Hx1.
    apply Hstep; [apply keepsVersion_addServiceToCurrentUsers | done |]. intros x2 Hx2.
    apply Hstep; [apply keepsVersion_keepsStore, keepsStore_ext | done |]. intros x3 Hx3.
    apply Hstep; [apply keepsVersion_stopService | done |]. intros x4 Hx4.
    apply Hstep; [apply keepsVersion_keepsStore, keepsStore_ext | done |]. intros x5 Hx5.
    apply Hstep; [apply keepsVersion_keepsStore, keepsStore_addServiceToSystemd | done |].
    intros x6 Hx6.
    apply Hstep; [exact KVstart | done |].
    intros x7 Hx7.
    destruct (URnew _ _ _ Hx7) as [(H1 & [_ H2] & H3) | [argument Hrefused]].
    - by right.
    - left. exists (highBit argument). by rewrite Hrefused. }
  destruct Hbody as [(e & He & Hholds) | (Hnone & Hnew & Hothers)].
  - rewrite He. rewrite !bind_run.
    set (x1 := snd (stopService env launcher newService (snd (body st1)))).
    assert (Hx1 : holds x1).
    { unfold x1, holds. apply KVstop. exact Hholds. }
    set (x2 := snd (ext env x1)).
    assert (Hx2 : holds x2).
    { unfold x2. by apply (keepsVersion_keepsStore _ _ (keepsStore_ext env)). }
    pose proof (keepsVersion_restoreService oldService _ x2 Hx2) as Hx3.
    destruct (fst (restoreService env launcher oldService x2)) as [e'|].
    + rewrite bind_run, ret_run. unfold P. cbn [fst snd].
      destruct Hx3 as [_ Hothers].
      destruct (removeService_row oldService tbl0 _ Hothers) as [Hgone Hothers'].
      split; [done|]. right. right. done.
    + rewrite ret_run. unfold P. cbn [fst snd]. destruct Hx3 as [Hrow' Hothers].
      split; [done|]. right. left. done.
  - rewrite Hnone, ret_run. unfold P. cbn [fst snd]. split; [done|]. left. done.
Qed.

(** ** The list of installed services *)

(** [ServiceStatus.String] *)
Definition statusString (status : ServiceStatus) : string :=
  match status with statusOk => "OK" | statusError => "Error" end.

(** The loop of [GetServicesInfo] over [services]: [info] has an entry
    per service from the start ([make]); when [GetUsersService] fails
    the entries not reached yet are still zero. *)
Fixpoint fillInfo (services : list Service) : Run (list ServiceInfo * option error) :=
  match services with
  | [] => mret ([], None)
  | service :: rest =>
      let info := mkServiceInfo (ID service) (Version service)
                    (statusString (Status service)) "" "" in
      r ← GetUsersService (users launcher) (ID service);
      match r with
      | Err err => mret (info :: map (fun _ => mkServiceInfo "" 0 "" "" "") rest, Some err)
      | Ok userService =>
          let info' :=
            if negb (StateLimit service =? 0)
            then mkServiceInfo (ID service) (Version service)
                   (statusString (Status service)) ""
                   (hexEncode (StateChecksum userService))
            else info in
          res ← fillInfo rest;
          mret (info' :: fst res, snd res)
      end
  end.

Definition GetServicesInfo : Run (list ServiceInfo * option error) :=
  services ← GetUsersServices (users launcher);
  fillInfo services.

Definition describes (st : Store) (service : Service) (info : ServiceInfo) : Prop :=
  infoID info = ID service ∧ infoVersion info = Version service ∧
  infoStatus info = statusString (Status service) ∧ infoError info = "" ∧
  (StateLimit service = 0 → infoStateChecksum info = "") ∧
  (StateLimit service ≠ 0 →
     ∃ u, find (isUsersRow (users launcher) (ID service)) (usersTable st) = Some u ∧
          infoStateChecksum info = hexEncode (StateChecksum u)).

Lemma fillInfo_rows (services : list Service) (st : Store) :
  (∀ service, service ∈ services →
     existsb (isUsersRow (users launcher) (ID service)) (usersTable st) = true) →
  snd (fillInfo services st) = st ∧ snd (fst (fillInfo services st)) = None ∧
  Forall2 (describes st) services (fst (fst (fillInfo services st))).
Proof.
  induction services as [|service rest IH]; intros Hrows.
  - simpl. split; [done|]. split; [done | constructor].
  - cbn [fillInfo]. rewrite bind_run.
    destruct (find (isUsersRow (users launcher) (ID service)) (usersTable st)) as [u|] eqn:Eu.
    2: { apply find_isUsersRow_None in Eu. rewrite (Hrows service) in Eu; [done | left]. }
    assert (Hgu : GetUsersService (users launcher) (ID service) st
                  = (Ok (mkUsersService (users launcher) (ID service) (StorageFolder u)
                           (StateChecksum u)), st)).
    { unfold GetUsersService. by rewrite Eu. }
    rewrite Hgu. cbn [fst snd].
    rewrite bind_run, ret_run. cbn [fst snd StateChecksum].
    destruct IH as (IH1 & IH2 & IH3); [intros s' Hs'; apply Hrows; by right|].
    split; [done|]. split; [done|]. constructor; [|done].
    unfold describes. destruct (StateLimit service =? 0) eqn:El; simpl.
    + apply Z.eqb_eq in El. repeat (split; [done|]). done.
    + apply Z.eqb_neq in El. repeat (split; [done|]). intros _. by exists u.
Qed.

(** X21. [GetServicesInfo] changes nothing and reports no error. It
    returns one entry for each service of the current users, in the
    order of [GetUsersServices], with the id, the version and the
    status of the service as text and no error; the state checksum is
    empty for a service without state limit, and for a service with one
    it is the checksum, in hexadecimal, of the entry the current users
    have for the service. *)
Theorem GetServicesInfo_describes_users_services (st : Store) :
  snd (GetServicesInfo st) = st ∧
  snd (fst (GetServicesInfo st)) = None ∧
  Forall2 (describes st) (fst (GetUsersServices (users launcher) st))
    (fst (fst (GetServicesInfo st))).
Proof.
  unfold GetServicesInfo. rewrite bind_run. unfold GetUsersServices. cbn [fst snd].
  apply fillInfo_rows. intros service Hin.
  by apply elem_of_sortByID, list_elem_of_filter in Hin as [Hrow _].
Qed.

End Lifecycle.

(** ** Changing the users *)

Section Users.

Variable env : Env.

(** [service.StartAt.Add(time.Hour*24*time.Duration(service.TTL)).Before(now)],
    the test of [cleanServicesDB] on the time to live of a service. *)
Variable expired : Service → nat → bool.

(** [startServices]: a start action per service of the users; the
    function waits for every one of them. *)
Fixpoint startAll (launcher : Launcher) (services : list Service)
    : Run (list (option error)) :=
  match services with
  | [] => mret []
  | service :: rest =>
      e ← startService env launcher service;
      es ← startAll launcher rest;
      mret (e :: es)
  end.

Definition startServices (launcher : Launcher) : Run (list (option error)) :=
  services ← GetUsersServices (users launcher);
  startAll launcher services.

Fixpoint removeAll (launcher : Launcher) (services : list Service)
    : Run (list (option error)) :=
  match services with
  | [] => mret []
  | service :: rest =>
      e ← removeService env launcher service;
      es ← removeAll launcher rest;
      mret (e :: es)
  end.

(** [cleanServicesDB]: every service that is not one of the users'
    services and whose time to live is over is removed; the function
    waits for the removals and returns [nil]. *)
Definition cleanServicesDB (launcher : Launcher) : Run (option error) :=
  startedServices ← GetUsersServices (users launcher);
  allServices ← GetServices;
  t ← now;
  _ ← removeAll launcher
        (filter (fun service =>
                   existsb (hasID (ID service)) startedServices = false ∧
                   expired service t = true) allServices);
  mret None.

Definition withNewUsers (launcher : Launcher) (newUsers : option (list string)) : Launcher :=
  mkLauncher newUsers (sender launcher) (network launcher) (monitor launcher)
    (resourcesValid launcher).

(** [SetUsers]: the launcher afterwards and the error returned. *)
Definition SetUsers (launcher : Launcher) (newUsers : option (list string))
    : Run (Launcher * option error) :=
  if isUsersEqual (users launcher) newUsers then mret (launcher, None)
  else
    _ ← stopServices env launcher;
    let launcher' := withNewUsers launcher newUsers in
    match resourcesValid launcher' with
    | Some _ => mret (launcher', None)
    | None =>
        _ ← startServices launcher';
        _ ← cleanServicesDB launcher';
        mret (launcher', None)
    end.

(** X22. [SetUsers] never returns an error. With the users that are
    already set it changes nothing. With other users the launcher holds
    the new users afterwards; and when the resources are not valid it
    does no more than stop the services, so that every service that was
    to be stopped (the services of the old users, or all services when
    none were set) is stopped in the table and its unit name is not in
    the launcher's map from unit names to services. *)
Theorem SetUsers_outcome (launcher : Launcher) (newUsers : option (list string))
    (st : Store) :
  snd (fst (SetUsers launcher newUsers st)) = None ∧
  (newUsers = users launcher → SetUsers launcher newUsers st = (launcher, None, st)) ∧
  (newUsers ≠ users launcher →
     users (fst (fst (SetUsers launcher newUsers st))) = newUsers ∧
     (∀ err, resourcesValid launcher = Some err →
        snd (SetUsers launcher newUsers st) = snd (stopServices env launcher st) ∧
        ∀ service,
          service ∈ fst (match users launcher with
                         | None => GetServices st
                         | Some _ => GetUsersServices (users launcher) st
                         end) →
          stoppedIn (snd (SetUsers launcher newUsers st)) (ID service) ∧
          units (snd (SetUsers launcher newUsers st)) !! UnitName service = None)).
Proof.
  unfold SetUsers.
  destruct (isUsersEqual (users launcher) newUsers) eqn:Eeq.
  - apply isUsersEqual_true in Eeq. split; [done|]. split; [done|]. by intros Hne.
  - assert (Hne : newUsers ≠ users launcher).
    { intros H. apply not_true_iff_false in Eeq. apply Eeq. by apply isUsersEqual_true. }
    rewrite bind_run. cbn [withNewUsers resourcesValid].
    destruct (resourcesValid launcher) as [err|] eqn:Evalid.
    + rewrite ret_run. cbn [fst snd]. split; [done|]. split; [done|]. intros _.
      split; [done|]. intros err' _. split; [done|].
      unfold stopServices. rewrite bind_run.
      set (services := fst (match users launcher with
                            | None => GetServices
                            | Some _ => GetUsersServices (users launcher)
                            end st)).
      assert (Hsame : snd (match users launcher with
                           | None => GetServices
                           | Some _ => GetUsersServices (users launcher)
                           end st) = st) by (by destruct (users launcher)).
      rewrite Hsame.
      assert (Hsub : ∀ service, service ∈ services → service ∈ servicesTable st).
      { intros service. unfold services. destruct (users launcher); simpl; [|done].
        intros Hin. by apply elem_of_sortByID, list_elem_of_filter in Hin as [_ Hin]. }
      destruct (stopAll_spec env launcher services st) as (_ & _ & Hstopped & Hunits & _).
      intros service Hin.
      assert (Hin' : service ∈ services) by (unfold services; by destruct (users launcher)).
      split; [|by apply Hunits].
      apply Hstopped; [done|]. destruct (elem_of_find _ _ (Hsub _ Hin')) as [first Hfirst].
      by exists first.
    + rewrite !bind_run, ret_run. cbn [fst snd]. split; [done|]. split; [done|].
      intros _. split; [done | done].
Qed.

End Users.

(** ** Instances *)

Definition rowA7 : Service :=
  mkService "A" 7 "default" "/var/aos/services/0001" "aos_A.service" "svcuser" "" ""
    stateRunning statusOk 18%nat 30 "" 0 0 0 0 0 0 [] "[]".

Lemma installService_new_service_witness :
  ∃ row, find (hasID "A")
           (servicesTable (snd (installService allFine withUsers (A 7) emptyStore))) = Some row ∧
         State row = stateRunning ∧ Status row = statusOk ∧ Version row = 7.
Proof.
  destruct (installService_new_service allFine withUsers (A 7) ["user1"] emptyStore
              eq_refl eq_refl eq_refl) as (_ & _ & H).
  destruct (H eq_refl) as (_ & _ & _ & Hrow). exact Hrow.
Defined.

Lemma installService_same_version_witness :
  ∃ row, find (hasID "A")
           (servicesTable (snd (installService allFine withUsers (A 7) installedA7))) = Some row ∧
         Version row = 7.
Proof.
  destruct (installService_same_version allFine withUsers (A 7) rowA7 ["user1"] installedA7
              eq_refl eq_refl eq_refl eq_refl) as (_ & _ & row & Hrow & Hv & _).
  exists row. split; [exact Hrow | exact Hv].
Defined.

Definition rowA8 : Service :=
  mkService "A" 8 "default" "/var/aos/services/0002" "aos_A.service" "svcuser" "" ""
    stateInit statusOk 0%nat 30 "" 0 0 0 0 0 0 [] "[]".

Lemma updateService_outcome_witness :
  find (hasID "B")
    (servicesTable (snd (updateService (failsAt 24) withUsers rowA7 rowA8 installedA7)))
  = find (hasID "B") (servicesTable installedA7).
Proof.
  destruct (updateService_outcome (failsAt 24) withUsers rowA7 rowA8 rowA7 installedA7
              eq_refl eq_refl eq_refl) as [H _].
  by apply H.
Defined.

End Launcher.

(* ===================================================================== *)
(** * Package launcher: the runtime specification of a service *)
(* ===================================================================== *)

Module ServiceSpec.
Import GoStrings.
Import Stdlib.Strings.Ascii.

(** ** Resource limits *)

(** [runtimespec.POSIXRlimit]; [Hard] and [Soft] are [uint64]. *)
Record POSIXRlimit : Type := mkPOSIXRlimit {
  Type_ : string;
  Hard : Z;
  Soft : Z
}.

(** [addRlimit]: the first limit of the same type is replaced, and the
    limit is appended when there is none. *)
Fixpoint addRlimit (rlimits : list POSIXRlimit) (rlimit : POSIXRlimit) : list POSIXRlimit :=
  match rlimits with
  | [] => [rlimit]
  | r :: rest =>
      if String.eqb (Type_ r) (Type_ rlimit) then rlimit :: rest
      else r :: addRlimit rest rlimit
  end.

(** X23. After [addRlimit] the limit is among the limits. Limits of
    other types are kept, in their order. When a limit of the type was
    present, the types of the limits are as before, the first one of
    that type being replaced; when none was, the limit is appended. If
    no two limits were of the same type, this still holds afterwards and
    the limit is the only one of its type. Adding the same limit again
    changes nothing. *)
Theorem addRlimit_sets_limit (rlimits : list POSIXRlimit) (rlimit : POSIXRlimit) :
  rlimit ∈ addRlimit rlimits rlimit ∧
  (∀ r, Type_ r ≠ Type_ rlimit →
     filter (fun x => Type_ x = Type_ r) (addRlimit rlimits rlimit)
     = filter (fun x => Type_ x = Type_ r) rlimits) ∧
  (Type_ rlimit ∈ map Type_ rlimits →
     map Type_ (addRlimit rlimits rlimit) = map Type_ rlimits) ∧
  ((Type_ rlimit ∉ map Type_ rlimits) → addRlimit rlimits rlimit = rlimits ++ [rlimit]) ∧
  (NoDup (map Type_ rlimits) →
     NoDup (map Type_ (addRlimit rlimits rlimit)) ∧
     filter (fun x => Type_ x = Type_ rlimit) (addRlimit rlimits rlimit) = [rlimit]) ∧
  addRlimit (addRlimit rlimits rlimit) rlimit = addRlimit rlimits rlimit.
Proof.
  induction rlimits as [|r0 rest IH]; simpl.
  - split; [by left|]. split.
    { intros r Hne. rewrite filter_cons, decide_False by congruence. done. }
    split; [intros H; by apply elem_of_nil in H|]. split; [done|].
    split; [|by rewrite String.eqb_refl].
    intros _. split; [apply NoDup_singleton|].
    by rewrite filter_cons, decide_True.
  - destruct IH as (IH1 & IH2 & IH3 & IH4 & IH5 & IH6).
    destruct (String.eqb (Type_ r0) (Type_ rlimit)) eqn:E.
    + apply String.eqb_eq in E. split; [by left|]. split.
      { intros r Hne. rewrite !filter_cons, !decide_False by congruence. done. }
      split; [intros _; simpl; by rewrite E|]. split.
      { intros H. exfalso. apply H. rewrite E. by left. }
      split; [|simpl; by rewrite String.eqb_refl].
      intros Hnd. simpl. rewrite <- E. split; [done|].
      apply NoDup_cons in Hnd as [Hnot Hnd].
      rewrite filter_cons, decide_True by done. f_equal.
      clear -Hnot. induction rest as [|x rest IH]; [done|].
      simpl in Hnot. apply not_elem_of_cons in Hnot as [Hne Hnot].
      rewrite filter_cons, decide_False by congruence. by apply IH.
    + apply String.eqb_neq in E. split; [by right|]. split.
      { intros r Hne. rewrite !filter_cons. rewrite (IH2 r Hne). done. }
      split.
      { intros H. apply elem_of_cons in H as [H|H]; [congruence|]. simpl. by rewrite IH3. }
      split.
      { intros H. apply not_elem_of_cons in H as [_ H]. by rewrite IH4. }
      split.
      * intros Hnd. apply NoDup_cons in Hnd as [Hnot Hnd].
        destruct (IH5 Hnd) as [IH5a IH5b]. split.
        -- simpl. apply NoDup_cons. split; [|done].
           intros Hin. apply Hnot. apply list_elem_of_fmap in Hin as (x & Hx & Hin).
           apply list_elem_of_fmap.
           assert (Hx' : x ∈ filter (λ y, Type_ y = Type_ r0) (addRlimit rest rlimit))
             by (by apply list_elem_of_filter).
           rewrite (IH2 r0) in Hx' by done.
           apply list_elem_of_filter in Hx' as [_ Hx']. by exists x.
        -- rewrite filter_cons, decide_False by done. exact IH5b.
      * simpl. apply String.eqb_neq in E. rewrite E. by rewrite IH6.
Qed.

(** ** The environment of the process *)

(** [strings.SplitN(s, "=", 2)[0]]: the name of a variable. *)
Definition envKey (s : string) : string := firstField "="%char s.

(** The test of the inner loop of [mergeEnv] on one entry [data] of the
    image configuration. *)
Definition overrides (key data : string) : bool :=
  if negb (Contains data "=") then String.eqb data key
  else String.eqb (envKey data) key.

(** The inner loop: the first entry of [configEnv] that overrides [key],
    and [configEnv] without it. *)
Fixpoint takeOverride (key : string) (configEnv : list string)
    : option (string * list string) :=
  match configEnv with
  | [] => None
  | data :: rest =>
      if overrides key data then Some (data, rest)
      else match takeOverride key rest with
           | Some (found, rest') => Some (found, data :: rest')
           | None => None
           end
  end.

(** The outer loop: [resultEnvArray] and what is left of [configEnv]. *)
Fixpoint mergeLoop (env configEnv : list string) : list string * list string :=
  match env with
  | [] => ([], configEnv)
  | result :: env' =>
      match takeOverride (envKey result) configEnv with
      | Some (data, configEnv') =>
          let '(resultEnvArray, remaining) := mergeLoop env' configEnv' in
          (data :: resultEnvArray, remaining)
      | None =>
          let '(resultEnvArray, remaining) := mergeLoop env' configEnv in
          (result :: resultEnvArray, remaining)
      end
  end.

(** [mergeEnv]: the new [Process.Env]. *)
Definition mergeEnv (env configEnv : list string) : list string :=
  let '(resultEnvArray, remaining) := mergeLoop env configEnv in
  resultEnvArray ++ remaining.

Lemma overrides_key (key data : string) :
  overrides key data = String.eqb (envKey data) key.
Proof.
  unfold overrides, envKey.
  change "=" with (String "="%char "") at 1. rewrite Contains_hasByte.
  destruct (hasByte "=" data) eqn:E; simpl; [done|].
  by rewrite firstField_no_sep.
Qed.

Lemma takeOverride_find (key : string) (configEnv : list string) :
  match takeOverride key configEnv with
  | Some (data, rest) =>
      find (fun d => String.eqb (envKey d) key) configEnv = Some data ∧
      envKey data = key ∧
      ∃ before after, configEnv = before ++ data :: after ∧ rest = before ++ after
  | None => find (fun d => String.eqb (envKey d) key) configEnv = None
  end.
Proof.
  induction configEnv as [|data rest IH]; simpl; [done|].
  rewrite overrides_key. destruct (String.eqb (envKey data) key) eqn:E.
  - split; [done|]. split; [by apply String.eqb_eq|]. by exists [], rest.
  - destruct (takeOverride key rest) as [[found rest']|]; [|done].
    destruct IH as (Hfind & Hkey & before & after & -> & ->).
    split; [done|]. split; [done|]. by exists (data :: before), after.
Qed.

Lemma mergeLoop_length (env configEnv : list string) :
  length (fst (mergeLoop env configEnv)) = length env.
Proof.
  revert configEnv. induction env as [|result env IH]; intros configEnv; simpl; [done|].
  destruct (takeOverride (envKey result) configEnv) as [[data configEnv']|].
  - specialize (IH configEnv'). destruct (mergeLoop env configEnv'). simpl in *. by rewrite IH.
  - specialize (IH configEnv). destruct (mergeLoop env configEnv). simpl in *. by rewrite IH.
Qed.

Lemma mergeLoop_picks (env configEnv : list string) :
  Forall2 (fun e r => r = e ∨ (r ∈ configEnv ∧ envKey r = envKey e))
    env (fst (mergeLoop env configEnv)) ∧
  sublist (snd (mergeLoop env configEnv)) configEnv ∧
  fst (mergeLoop env configEnv) ++ snd (mergeLoop env configEnv) ⊆+ env ++ configEnv ∧
  configEnv ⊆+ fst (mergeLoop env configEnv) ++ snd (mergeLoop env configEnv).
Proof.
  revert configEnv. induction env as [|result env IH]; intros configEnv; simpl.
  - split; [constructor|]. split; [done|]. split; done.
  - pose proof (takeOverride_find (envKey result) configEnv) as Htake.
    destruct (takeOverride (envKey result) configEnv) as [[data configEnv']|].
    + destruct Htake as (_ & Hkey & before & after & -> & ->).
      specialize (IH (before ++ after)). destruct (mergeLoop env (before ++ after)) as [res rem].
      simpl in *. destruct IH as (IH1 & IH2 & IH3 & IH4).
      split; [|split; [|split]].
      * constructor.
        -- right. split; [|done]. apply elem_of_app. right. left.
        -- eapply Forall2_impl; [exact IH1|]. intros e r [-> | [Hin Hk]]; [by left|].
           right. split; [|done]. apply elem_of_app in Hin as [Hin|Hin];
             apply elem_of_app; [by left | right; by right].
      * etrans; [exact IH2|]. apply sublist_app; [done|]. by apply sublist_cons.
      * apply submseteq_cons. rewrite (app_assoc env before (data :: after)).
        rewrite <- Permutation_middle. apply submseteq_skip. by rewrite <- app_assoc.
      * rewrite <- Permutation_middle. by apply submseteq_skip.
    + specialize (IH configEnv). destruct (mergeLoop env configEnv) as [res rem].
      simpl in *. destruct IH as (IH1 & IH2 & IH3 & IH4).
      split; [|split; [|split]].
      * constructor; [by left | done].
      * done.
      * by apply submseteq_skip.
      * by apply submseteq_cons.
Qed.

(** X24. [mergeEnv] keeps the variables of the specification in their
    order: the new environment starts with one entry for each old
    entry, of the same name, which is the old entry or an entry of the
    image configuration of that name. The entries behind them are
    entries of the image configuration in their order. Every entry of
    the image configuration is in the new environment, as often as it
    was given, and the new environment has nothing but old entries and
    entries of the image configuration. An empty image configuration
    leaves the environment as it is. *)
Theorem mergeEnv_keeps_config (env configEnv : list string) :
  map envKey (take (length env) (mergeEnv env configEnv)) = map envKey env ∧
  Forall2 (fun e r => r = e ∨ (r ∈ configEnv ∧ envKey r = envKey e))
    env (take (length env) (mergeEnv env configEnv)) ∧
  sublist (drop (length env) (mergeEnv env configEnv)) configEnv ∧
  configEnv ⊆+ mergeEnv env configEnv ∧
  mergeEnv env configEnv ⊆+ env ++ configEnv ∧
  mergeEnv env [] = env.
Proof.
  unfold mergeEnv.
  pose proof (mergeLoop_length env configEnv) as Hlen.
  pose proof (mergeLoop_picks env configEnv) as (H1 & H2 & H3 & H4).
  destruct (mergeLoop env configEnv) as [res rem]. simpl in *.
  rewrite <- Hlen, take_app_length, drop_app_length.
  split; [|split; [done|]; split; [done|]; split; [done|]; split; [done|]].
  - clear -H1. induction H1 as [|e r env res Hr _ IH]; simpl; [done|].
    rewrite IH. f_equal. by destruct Hr as [-> | [_ ->]].
  - clear. induction env as [|e env IH]; simpl; [done|].
    destruct (mergeLoop env []) as [res rem]. simpl in *. by rewrite IH.
Qed.

Lemma find_without (P : string → bool) (before after : list string) (data : string) :
  P data = false → find P (before ++ data :: after) = find P (before ++ after).
Proof.
  intros HP. induction before as [|x before IH]; simpl.
  - by rewrite HP.
  - by rewrite IH.
Qed.

Lemma mergeLoop_override (env configEnv : list string) (i : nat) (e : string) :
  NoDup (map envKey env) → env !! i = Some e →
  fst (mergeLoop env configEnv) !! i
  = Some (default e (find (fun d => String.eqb (envKey d) (envKey e)) configEnv)).
Proof.
  revert configEnv i. induction env as [|result env IH]; intros configEnv i Hnd Hi; [done|].
  simpl in Hnd. apply NoDup_cons in Hnd as [Hnot Hnd]. simpl.
  pose proof (takeOverride_find (envKey result) configEnv) as Htake.
  destruct i as [|i]; simpl in Hi.
  - injection Hi as ->.
    destruct (takeOverride (envKey e) configEnv) as [[data configEnv']|].
    + destruct Htake as (-> & _). by destruct (mergeLoop env configEnv').
    + rewrite Htake. by destruct (mergeLoop env configEnv).
  - assert (Hne : envKey e ≠ envKey result).
    { intros Heq. apply Hnot. rewrite <- Heq. apply list_elem_of_fmap. exists e.
      split; [done|]. by apply list_elem_of_lookup_2 in Hi. }
    destruct (takeOverride (envKey result) configEnv) as [[data configEnv']|].
    + destruct Htake as (_ & Hkey & before & after & -> & ->).
      specialize (IH (before ++ after) i Hnd Hi).
      destruct (mergeLoop env (before ++ after)). simpl in *. rewrite IH.
      rewrite find_without; [done|]. apply String.eqb_neq. congruence.
    + specialize (IH configEnv i Hnd Hi). by destruct (mergeLoop env configEnv).
Qed.

(** X25. When no two entries of the environment have the same name, the
    entry at a position is, after [mergeEnv], the first entry of the
    image configuration of the same name, and the old entry when the
    image configuration has none. *)
Theorem mergeEnv_overrides_in_place (env configEnv : list string) (i : nat) (e : string) :
  NoDup (map envKey env) → env !! i = Some e →
  mergeEnv env configEnv !! i
  = Some (default e (find (fun d => String.eqb (envKey d) (envKey e)) configEnv)).
Proof.
  intros Hnd Hi. unfold mergeEnv.
  pose proof (mergeLoop_length env configEnv) as Hlen.
  pose proof (mergeLoop_override env configEnv i e Hnd Hi) as Hov.
  destruct (mergeLoop env configEnv) as [res rem]. simpl in *.
  rewrite lookup_app_l; [done|]. rewrite Hlen. by apply lookup_lt_Some in Hi.
Qed.

Lemma mergeEnv_overrides_in_place_witness :
  mergeEnv ["PATH=/usr/bin:/bin"; "TERM=xterm"] ["LANG=C"; "TERM"; "PATH=/opt/bin"] !! 1%nat
  = Some "TERM".
Proof.
  apply (mergeEnv_overrides_in_place ["PATH=/usr/bin:/bin"; "TERM=xterm"]
           ["LANG=C"; "TERM"; "PATH=/opt/bin"] 1 "TERM=xterm").
  - apply (bool_decide_eq_true_1 _). reflexivity.
  - reflexivity.
Defined.

(** ** The storage folder of a service *)

(** [runtimespec.Mount] *)
Record Mount : Type := mkMount {
  Destination : string;
  MountType : string;
  Source : string;
  Options : list string
}.

Definition serviceStorageFolder : string := "/home/service/storage".

(** The search of [addStorageFolder] for the index of the first mount
    on the storage folder, and the assignment at that index. *)
Fixpoint setStorageMount (mounts : list Mount) (newMount : Mount) : list Mount :=
  match mounts with
  | [] => [newMount]
  | mount :: rest =>
      if String.eqb (Destination mount) serviceStorageFolder then newMount :: rest
      else mount :: setStorageMount rest newMount
  end.

(** [addStorageFolder]: [absStorageFolder] is what [filepath.Abs]
    returns, an absolute path or an error's message; the mounts are
    returned, with the error if there is one. *)
Definition addStorageFolder (absStorageFolder : string + string) (mounts : list Mount)
    : list Mount * option string :=
  match absStorageFolder with
  | inr err => (mounts, Some err)
  | inl path =>
      (setStorageMount mounts (mkMount serviceStorageFolder "bind" path ["bind"; "rw"]), None)
  end.

Definition removeStorageFolder (mounts : list Mount) : list Mount :=
  filter (fun mount => Destination mount ≠ serviceStorageFolder) mounts.

Definition onStorage (mounts : list Mount) : list Mount :=
  filter (fun mount => Destination mount = serviceStorageFolder) mounts.

(** X26. After [addStorageFolder] the first mount on the storage folder of
    the service is the bind mount, read-write, of the given path; other
    mounts on that destination that were behind the first one stay.
    [removeStorageFolder] then leaves what it leaves without the added
    mount, and no mount on the storage folder at all. Adding the same
    folder twice is the same as adding it once. When the absolute path
    cannot be determined the mounts are unchanged and that error is
    returned. *)
Theorem storage_folder_mount (path : string) (mounts : list Mount) :
  let mounts' := fst (addStorageFolder (inl path) mounts) in
  snd (addStorageFolder (inl path) mounts) = None ∧
  head (onStorage mounts')
    = Some (mkMount serviceStorageFolder "bind" path ["bind"; "rw"]) ∧
  tail (onStorage mounts') = tail (onStorage mounts) ∧
  removeStorageFolder mounts' = removeStorageFolder mounts ∧
  onStorage (removeStorageFolder mounts') = [] ∧
  fst (addStorageFolder (inl path) mounts') = mounts' ∧
  (∀ err, addStorageFolder (inr err) mounts = (mounts, Some err)).
Proof.
  unfold addStorageFolder, removeStorageFolder, onStorage. cbn [fst snd]. cbv zeta.
  set (newMount := mkMount _ _ _ _).
  split; [done|].
  assert (H : head (filter (λ mount, Destination mount = serviceStorageFolder)
                      (setStorageMount mounts newMount)) = Some newMount ∧
              tail (filter (λ mount, Destination mount = serviceStorageFolder)
                      (setStorageMount mounts newMount))
              = tail (filter (λ mount, Destination mount = serviceStorageFolder) mounts) ∧
              filter (λ mount, Destination mount ≠ serviceStorageFolder)
                (setStorageMount mounts newMount)
              = filter (λ mount, Destination mount ≠ serviceStorageFolder) mounts ∧
              setStorageMount (setStorageMount mounts newMount) newMount
              = setStorageMount mounts newMount).
  { assert (Hnew : Destination newMount = serviceStorageFolder) by done.
    assert (Hnewb : String.eqb (Destination newMount) serviceStorageFolder = true)
      by (by apply String.eqb_eq).
    induction mounts as [|mount rest IH]; cbn [setStorageMount].
    - rewrite Hnewb. rewrite !filter_cons, !filter_nil.
      rewrite decide_True, decide_False by (done || by intros H). done.
    - destruct (String.eqb (Destination mount) serviceStorageFolder) eqn:E.
      + apply String.eqb_eq in E. cbn [setStorageMount]. rewrite Hnewb.
        rewrite !filter_cons.
        rewrite !decide_True, !decide_False by (done || by intros H). done.
      + cbn [setStorageMount]. rewrite E.
        apply String.eqb_neq in E. destruct IH as (IH1 & IH2 & IH3 & IH4).
        rewrite !filter_cons.
        rewrite !decide_False, !decide_True by done.
        rewrite IH3, IH4. done. }
  destruct H as (H1 & H2 & H3 & H4).
  split; [done|]. split; [done|]. split; [done|]. split; [|by split].
  rewrite H3. clear. induction mounts as [|mount rest IH]; [done|].
  rewrite filter_cons. destruct (decide (Destination mount ≠ serviceStorageFolder)); [|done].
  by rewrite filter_cons, decide_False.
Qed.

End ServiceSpec.

(* ===================================================================== *)
(** * The action queue *)
(* ===================================================================== *)

Module ActionQueue.

(** Modelled from the spec: the launcher's action handler
    ([newActionHandler], [PutInQueue]) is not among the sources; only its
    callers are ([Launcher.InstallService] and the other functions that
    put a [serviceAction] in the queue). The model follows the
    specification's algorithm: a map from key to a pending deque and a
    busy flag, and a semaphore of capacity [W]. On submit the action is
    appended to the deque of its key; if the key is not busy it is
    marked busy and dispatched to the pool. A dispatched action runs once
    it holds one of the [W] permits. On completion the next action of
    the key is popped and dispatched; if there is none, the busy flag is
    cleared and the map entry deleted. *)
Record Entry : Type := mkEntry {
  pending : list nat;
  busy : bool
}.

(** Actions are told apart by a number. [pool] holds the dispatched
    actions that wait for a permit, [executing] those that hold one;
    [submitted] and [started] record, in order, every action submitted
    and every action that began to execute. *)
Record State : Type := mkState {
  entries : gmap string Entry;
  pool : list (string * nat);
  executing : list (string * nat);
  submitted : list (string * nat);
  started : list (string * nat)
}.

Definition init : State := mkState ∅ [] [] [] [].

Inductive Event : Type :=
| Submit (key : string) (fn : nat)
| Start (i : nat)        (* the [i]-th waiting action obtains a permit *)
| Complete (i : nat).    (* the [i]-th executing action returns *)

Section Queue.

(** The capacity of the semaphore. *)
Variable W : nat.

Definition submit (key : string) (fn : nat) (s : State) : State :=
  let e := default (mkEntry [] false) (entries s !! key) in
  let deque := pending e ++ [fn] in
  if busy e
  then mkState (<[key := mkEntry deque true]> (entries s)) (pool s) (executing s)
         (submitted s ++ [(key, fn)]) (started s)
  else match deque with
       | next :: rest =>
           mkState (<[key := mkEntry rest true]> (entries s)) (pool s ++ [(key, next)])
             (executing s) (submitted s ++ [(key, fn)]) (started s)
       | [] => s
       end.

Definition start (i : nat) (s : State) : option State :=
  match pool s !! i with
  | Some action =>
      if decide (length (executing s) < W)%nat
      then Some (mkState (entries s) (delete i (pool s)) (executing s ++ [action])
                   (submitted s) (started s ++ [action]))
      else None
  | None => None
  end.

Definition complete (i : nat) (s : State) : option State :=
  match executing s !! i with
  | Some (key, _) =>
      let e := default (mkEntry [] false) (entries s !! key) in
      match pending e with
      | next :: rest =>
          Some (mkState (<[key := mkEntry rest true]> (entries s))
                  (pool s ++ [(key, next)]) (delete i (executing s))
                  (submitted s) (started s))
      | [] =>
          Some (mkState (delete key (entries s)) (pool s) (delete i (executing s))
                  (submitted s) (started s))
      end
  | None => None
  end.

Definition step (s : State) (ev : Event) : option State :=
  match ev with
  | Submit key fn => Some (submit key fn s)
  | Start i => start i s
  | Complete i => complete i s
  end.

(** A run: the events in the order they happen; [None] when one of them
    cannot happen in the state reached. *)
Fixpoint run (evs : list Event) (s : State) : option State :=
  match evs with
  | [] => Some s
  | ev :: evs' =>
      match step s ev with
      | Some s' => run evs' s'
      | None => None
      end
  end.

Definition reachable (s : State) : Prop := ∃ evs, run evs init = Some s.

(** The actions of one key in a list, in order. *)
Definition forKey (key : string) (l : list (string * nat)) : list nat :=
  snd <$> filter (fun a => fst a = key) l.

Definition pendingOf (key : string) (s : State) : list nat :=
  match entries s !! key with
  | Some e => pending e
  | None => []
  end.

(** ** Facts *)

Lemma forKey_app (key : string) (l1 l2 : list (string * nat)) :
  forKey key (l1 ++ l2) = forKey key l1 ++ forKey key l2.
Proof. unfold forKey. by rewrite filter_app, fmap_app. Qed.

Lemma forKey_one (key key' : string) (fn : nat) :
  forKey key [(key', fn)] = if decide (key' = key) then [fn] else [].
Proof.
  unfold forKey. rewrite filter_cons, filter_nil. simpl.
  by destruct (decide (key' = key)).
Qed.

Lemma split_at (l : list (string * nat)) (i : nat) (a : string * nat) :
  l !! i = Some a → ∃ l1 l2, l = l1 ++ [a] ++ l2 ∧ delete i l = l1 ++ l2.
Proof.
  intros H. exists (take i l), (drop (S i) l). split.
  - by rewrite <- (take_drop_middle l i a H) at 1.
  - apply delete_take_drop.
Qed.

Lemma forKey_delete_other (key key' : string) (fn : nat) (l : list (string * nat)) (i : nat) :
  l !! i = Some (key', fn) → key' ≠ key → forKey key (delete i l) = forKey key l.
Proof.
  intros H Hne. destruct (split_at l i _ H) as (l1 & l2 & Hl & Hd).
  rewrite Hd, Hl, !forKey_app, forKey_one. by destruct (decide (key' = key)).
Qed.

Lemma forKey_delete_same (key : string) (fn : nat) (l : list (string * nat)) (i : nat) :
  l !! i = Some (key, fn) → (length (forKey key l) ≤ 1)%nat →
  forKey key l = [fn] ∧ forKey key (delete i l) = [].
Proof.
  intros H Hlen. destruct (split_at l i _ H) as (l1 & l2 & Hl & Hd).
  rewrite Hd. rewrite Hl in Hlen |- *. clear Hl Hd H.
  rewrite !forKey_app, forKey_one in *.
  destruct (decide (key = key)); [|done].
  rewrite !length_app in Hlen. simpl in Hlen.
  destruct (forKey key l1); [|simpl in Hlen; lia].
  destruct (forKey key l2); [|simpl in Hlen; lia].
  done.
Qed.

(** The invariant of the queue. *)
Definition inv (s : State) : Prop :=
  (∀ key, length (forKey key (pool s ++ executing s))
          = match entries s !! key with Some _ => 1%nat | None => 0%nat end) ∧
  (∀ key, forKey key (submitted s)
          = forKey key (started s) ++ forKey key (pool s) ++ pendingOf key s) ∧
  (length (executing s) ≤ W)%nat ∧
  (∀ key e, entries s !! key = Some e → busy e = true).

Lemma inv_init : inv init.
Proof.
  unfold inv, init, pendingOf; simpl. split; [|split; [|split]].
  - intros key. by rewrite lookup_empty.
  - intros key. by rewrite lookup_empty.
  - lia.
  - intros key e H. by rewrite lookup_empty in H.
Qed.

Lemma inv_submit (key : string) (fn : nat) (s : State) :
  inv s → inv (submit key fn s).
Proof.
  intros (H1 & H2 & H3 & H4). unfold submit.
  destruct (entries s !! key) as [e|] eqn:Ee; simpl.
  - rewrite (H4 key e Ee).
    split; [|split; [|split]]; simpl.
    + intros key'. rewrite H1. destruct (decide (key = key')) as [<-|Hne].
      * by rewrite lookup_insert_eq, Ee.
      * by rewrite lookup_insert_ne.
    + intros key'. rewrite forKey_app, forKey_one, H2. unfold pendingOf; simpl.
      destruct (decide (key = key')) as [<-|Hne].
      * rewrite lookup_insert_eq, Ee. simpl. by rewrite ?app_nil_r, <- ?app_assoc.
      * rewrite lookup_insert_ne by done. by rewrite ?app_nil_r, <- ?app_assoc.
    + done.
    + intros key' e'. destruct (decide (key = key')) as [<-|Hne].
      * rewrite lookup_insert_eq. by intros [= <-].
      * rewrite lookup_insert_ne by done. apply H4.
  - split; [|split; [|split]]; simpl.
    + intros key'. rewrite <- app_assoc, forKey_app. 
      rewrite (forKey_app key' [(key, fn)]), forKey_one.
      specialize (H1 key'). rewrite forKey_app in H1.
      destruct (decide (key = key')) as [<-|Hne].
      * rewrite lookup_insert_eq. rewrite Ee in H1.
        rewrite !length_app in *. simpl. lia.
      * rewrite lookup_insert_ne by done. rewrite <- H1.
        by rewrite !length_app.
    + intros key'. rewrite !forKey_app, forKey_one, H2. unfold pendingOf; simpl.
      destruct (decide (key = key')) as [<-|Hne].
      * rewrite lookup_insert_eq, Ee. simpl. by rewrite ?app_nil_r, <- ?app_assoc.
      * rewrite lookup_insert_ne by done. by rewrite ?app_nil_r, <- ?app_assoc.
    + done.
    + intros key' e'. destruct (decide (key = key')) as [<-|Hne].
      * rewrite lookup_insert_eq. by intros [= <-].
      * rewrite lookup_insert_ne by done. apply H4.
Qed.

Lemma inv_start (i : nat) (s s' : State) :
  inv s → start i s = Some s' → inv s'.
Proof.
  intros (H1 & H2 & H3 & H4). unfold start.
  destruct (pool s !! i) as [[key fn]|] eqn:Ei; [|done].
  destruct (decide (length (executing s) < W)%nat) as [Hlt|]; [|done].
  intros [= <-]. split; [|split; [|split]]; simpl.
  - intros key'. rewrite <- (H1 key'), !forKey_app, !length_app.
    destruct (split_at _ _ _ Ei) as (l1 & l2 & Hl & Hd).
    rewrite Hd, Hl, !forKey_app, !length_app. lia.
  - intros key'. rewrite forKey_app, forKey_one, H2.
    destruct (decide (key = key')) as [<-|Hne].
    + assert (Hlen : (length (forKey key (pool s)) ≤ 1)%nat).
      { specialize (H1 key). rewrite forKey_app, length_app in H1.
        destruct (entries s !! key); lia. }
      destruct (forKey_delete_same key fn (pool s) i Ei Hlen) as [-> ->].
      by rewrite <- ?app_assoc.
    + by rewrite (forKey_delete_other key' key fn), app_nil_r.
  - rewrite length_app. simpl. lia.
  - done.
Qed.

Lemma inv_complete (i : nat) (s s' : State) :
  inv s → complete i s = Some s' → inv s'.
Proof.
  intros (H1 & H2 & H3 & H4). unfold complete.
  destruct (executing s !! i) as [[key fn]|] eqn:Ei; [|done].
  assert (Hone : forKey key (pool s) = [] ∧ forKey key (executing s) = [fn] ∧
                 forKey key (delete i (executing s)) = [] ∧
                 is_Some (entries s !! key)).
  { specialize (H1 key). rewrite forKey_app, length_app in H1.
    destruct (split_at _ _ _ Ei) as (l1 & l2 & Hl & Hd).
    assert (Hin : (1 ≤ length (forKey key (executing s)))%nat).
    { rewrite Hl, !forKey_app, forKey_one, !length_app.
      destruct (decide (key = key)); [simpl; lia | done]. }
    destruct (entries s !! key) as [e|]; [|lia].
    assert (Hlen : (length (forKey key (executing s)) ≤ 1)%nat) by lia.
    destruct (forKey_delete_same key fn (executing s) i Ei Hlen) as [Hf Hd'].
    split; [|by eauto].
    destruct (forKey key (pool s)); [done | simpl in H1; lia]. }
  destruct Hone as (Hpool & Hexec & Hdel & [e He]).
  assert (Hother : ∀ key', key ≠ key' →
            forKey key' (delete i (executing s)) = forKey key' (executing s)).
  { intros key' Hne. by apply (forKey_delete_other key' key fn). }
  assert (Hlen : (length (delete i (executing s)) ≤ W)%nat).
  { rewrite length_delete by eauto. lia. }
  rewrite He. simpl.
  destruct (pending e) as [|next rest] eqn:Ep; intros [= <-];
    (split; [|split; [|split]]); simpl.
  - intros key'. rewrite forKey_app, length_app.
    destruct (decide (key = key')) as [<-|Hne].
    + by rewrite lookup_delete_eq, Hpool, Hdel.
    + rewrite lookup_delete_ne, <- (H1 key'), forKey_app, length_app, Hother by done.
      done.
  - intros key'. rewrite H2. unfold pendingOf; simpl.
    destruct (decide (key = key')) as [<-|Hne].
    + by rewrite lookup_delete_eq, He, Ep.
    + by rewrite lookup_delete_ne.
  - done.
  - intros key' e'. destruct (decide (key = key')) as [<-|Hne].
    + by rewrite lookup_delete_eq.
    + rewrite lookup_delete_ne by done. apply H4.
  - intros key'. rewrite !forKey_app, forKey_one, !length_app.
    destruct (decide (key = key')) as [<-|Hne].
    + by rewrite lookup_insert_eq, Hpool, Hdel.
    + rewrite lookup_insert_ne, <- (H1 key'), forKey_app, length_app, Hother by done.
      simpl. lia.
  - intros key'. rewrite forKey_app, forKey_one, H2. unfold pendingOf; simpl.
    destruct (decide (key = key')) as [<-|Hne].
    + rewrite lookup_insert_eq, He, Ep, Hpool. simpl. done.
    + rewrite lookup_insert_ne by done. by rewrite app_nil_r.
  - done.
  - intros key' e'. destruct (decide (key = key')) as [<-|Hne].
    + rewrite lookup_insert_eq. by intros [= <-].
    + rewrite lookup_insert_ne by done. apply H4.
Qed.

Lemma inv_run (evs : list Event) (s s' : State) :
  inv s → run evs s = Some s' → inv s'.
Proof.
  revert s. induction evs as [|ev evs IH]; intros s Hinv; simpl.
  - by intros [= <-].
  - destruct (step s ev) as [s1|] eqn:Estep; [|done].
    apply IH. destruct ev as [key fn | i | i]; simpl in Estep.
    + injection Estep as <-. by apply inv_submit.
    + by apply (inv_start i s).
    + by apply (inv_complete i s).
Qed.

End Queue.

Lemma start_Some (W i : nat) (s : State) (action : string * nat) :
  pool s !! i = Some action →
  (length (executing s) < W)%nat →
  start W i s = Some (mkState (entries s) (delete i (pool s)) (executing s ++ [action])
                        (submitted s) (started s ++ [action])).
Proof.
  intros Hi Hlt. unfold start. rewrite Hi.
  by destruct (decide (length (executing s) < W)%nat).
Qed.

(** ** C4 *)

(** C4. In every state the queue can reach, no key has more than one
    action executing, the actions of a key that have begun to execute
    are, in order, the first ones submitted for that key, and at most [W]
    actions execute; with two permits or more, actions of different keys
    do execute at the same time. *)
Theorem queue_serializes_per_key (W : nat) :
  (∀ s, reachable W s →
     (∀ key, (length (forKey key (executing s)) ≤ 1)%nat) ∧
     (∀ key, forKey key (started s) `prefix_of` forKey key (submitted s)) ∧
     (length (executing s) ≤ W)%nat) ∧
  ((2 ≤ W)%nat →
   ∃ s key1 key2 fn1 fn2, reachable W s ∧ key1 ≠ key2 ∧
     (key1, fn1) ∈ executing s ∧ (key2, fn2) ∈ executing s).
Proof.
  split.
  - intros s [evs Hrun].
    destruct (inv_run W evs init s (inv_init W) Hrun) as (H1 & H2 & H3 & _).
    split; [|split; [|done]].
    + intros key. specialize (H1 key). rewrite forKey_app, length_app in H1.
      destruct (entries s !! key); lia.
    + intros key. rewrite H2. by eexists.
  - intros HW.
    eexists _, "A", "B", 1%nat, 2%nat.
    split.
    { exists [Submit "A" 1; Submit "B" 2; Start 0; Start 0].
      cbn [run step].
      rewrite (start_Some W 0 _ ("A", 1%nat));
        [|reflexivity|eapply Nat.lt_le_trans; [|exact HW]; vm_compute; lia].
      rewrite (start_Some W 0 _ ("B", 2%nat));
        [|reflexivity|eapply Nat.lt_le_trans; [|exact HW]; vm_compute; lia].
      reflexivity. }
    split; [done|]. simpl. split; [left | right; left].
Qed.

Lemma queue_serializes_per_key_witness :
  ∃ s, run 2 [Submit "A" 1; Submit "A" 2; Submit "B" 3; Start 0; Start 0;
              Complete 0; Start 0] init = Some s ∧
       executing s = [("B", 3%nat); ("A", 2%nat)] ∧
       (length (forKey "A" (executing s)) ≤ 1)%nat ∧
       forKey "A" (started s) `prefix_of` forKey "A" (submitted s).
Proof.
  eexists. split; [vm_compute; reflexivity|]. split; [reflexivity|].
  destruct (queue_serializes_per_key 2) as [H _].
  match goal with |- (length (forKey _ (executing ?s)) ≤ 1)%nat ∧ _ =>
    destruct (H s) as (H1 & H2 & _);
      [exists [Submit "A" 1; Submit "A" 2; Submit "B" 3; Start 0; Start 0;
               Complete 0; Start 0]; vm_compute; reflexivity|]
  end.
  split; [apply H1 | apply H2].
Defined.

End ActionQueue.

(* ===================================================================== *)
(** * Package fcrypt: padding *)
(* ===================================================================== *)

Module Fcrypt.

(** What a call ends in: a run-time panic, the error "Padding error",
    or the bytes returned. *)
Inductive outcome : Type :=
| Panic
| PaddingError
| Unpadded (out : list Byte.byte).

(** [removePkcs7Padding]. [blocklen] is an [int]; [%] is Go's
    remainder, which truncates, and panics on a zero divisor; [in[l-1]]
    panics on the empty slice. [pl] is below 256, so [byte(pl)] is the
    last byte itself. *)
Definition removePkcs7Padding (input : list Byte.byte) (blocklen : Z) : outcome :=
  let l := Z.of_nat (length input) in
  if blocklen =? 0 then Panic
  else if negb (Z.rem l blocklen =? 0) then PaddingError
  else match last input with
       | None => Panic
       | Some b =>
           let pl := Z.of_N (Byte.to_N b) in
           if (pl <? 1) || (blocklen <? pl) then PaddingError
           else if forallb (Byte.eqb b) (drop (Z.to_nat (l - pl)) input)
                then Unpadded (take (Z.to_nat (l - pl)) input)
                else PaddingError
       end.

Lemma forallb_replicate (b : Byte.byte) (l : list Byte.byte) :
  forallb (Byte.eqb b) l = true ↔ l = replicate (length l) b.
Proof.
  induction l as [|x l IH]; simpl; [done|].
  rewrite andb_true_iff, IH. split.
  - intros [Hb ->]. apply Byte.byte_dec_bl in Hb as <-. by rewrite length_replicate.
  - intros [= <- H]. split; [by apply Byte.byte_dec_lb | done].
Qed.

Lemma last_replicate (b : Byte.byte) (n : nat) :
  (0 < n)%nat → last (replicate n b) = Some b.
Proof.
  induction n as [|n IH]; [lia|]. intros _. destruct n as [|n]; [done|].
  change (replicate (S (S n)) b) with (b :: replicate (S n) b).
  change (last (b :: replicate (S n) b)) with (last (replicate (S n) b)).
  apply IH. lia.
Qed.

(** X28. [removePkcs7Padding] panics on an empty input. With a positive
    block length it does not panic on a non-empty input, and it returns
    an unpadded text exactly when the length of the input is a multiple
    of the block length and the input is that text followed by [n]
    bytes of value [n], for some [n] from 1 to the block length; every
    other input gives a padding error. *)
Theorem removePkcs7Padding_spec (input : list Byte.byte) (blocklen : Z) :
  removePkcs7Padding [] blocklen = Panic ∧
  (0 < blocklen →
   (input ≠ [] → removePkcs7Padding input blocklen ≠ Panic) ∧
   ∀ out, removePkcs7Padding input blocklen = Unpadded out ↔
     ∃ b, 1 ≤ Z.of_N (Byte.to_N b) ≤ blocklen ∧
          input = out ++ replicate (N.to_nat (Byte.to_N b)) b ∧
          Z.rem (Z.of_nat (length input)) blocklen = 0).
Proof.
  split.
  { unfold removePkcs7Padding. simpl. destruct (blocklen =? 0); [done|].
    done. }
  intros Hpos. unfold removePkcs7Padding.
  assert ((blocklen =? 0) = false) as -> by lia.
  set (l := Z.of_nat (length input)).
  split.
  { intros Hne. destruct (Z.rem l blocklen =? 0); simpl; [|done].
    destruct (last input) as [b|] eqn:El; [|by apply last_None in El].
    destruct (_ || _); [done|]. by destruct (forallb _ _). }
  intros out. split.
  - destruct (Z.rem l blocklen =? 0) eqn:Erem; simpl; [|done].
    apply Z.eqb_eq in Erem.
    destruct (last input) as [b|] eqn:El; [|done].
    set (pl := Z.of_N (Byte.to_N b)).
    destruct ((pl <? 1) || (blocklen <? pl)) eqn:Epl; [done|].
    apply orb_false_iff in Epl as [Hpl1 Hpl2].
    destruct (forallb (Byte.eqb b) (drop (Z.to_nat (l - pl)) input)) eqn:Eall; [|done].
    intros [= <-]. exists b. split; [lia|]. split; [|done].
    assert (Hl : blocklen ≤ l).
    { assert (0 < l).
      { unfold l. destruct input; [done | simpl; lia]. }
      rewrite Z.rem_mod_nonneg in Erem by lia.
      apply Z.mod_divide in Erem; [|lia]. destruct Erem as [q Hq].
      assert (0 < q) by nia. nia. }
    apply forallb_replicate in Eall. rewrite length_drop in Eall.
    assert (Hlen : (length input - Z.to_nat (l - pl))%nat = N.to_nat (Byte.to_N b)).
    { unfold l, pl. lia. }
    rewrite Hlen in Eall. rewrite <- Eall. by rewrite take_drop.
  - intros (b & Hb & Hinput & Hrem).
    assert (Hk : (0 < N.to_nat (Byte.to_N b))%nat) by lia.
    assert (Hl : l = Z.of_nat (length out) + Z.of_N (Byte.to_N b)).
    { unfold l. rewrite Hinput, length_app, length_replicate. lia. }
    fold l in Hrem. rewrite Hrem. simpl.
    assert (last input = Some b) as ->.
    { rewrite Hinput, last_app, last_replicate by done. done. }
    assert ((Z.of_N (Byte.to_N b) <? 1) || (blocklen <? Z.of_N (Byte.to_N b)) = false) as ->.
    { apply orb_false_iff. lia. }
    assert (Z.to_nat (l - Z.of_N (Byte.to_N b)) = length out) as -> by lia.
    rewrite Hinput, drop_app_length, take_app_length.
    assert (forallb (Byte.eqb b) (replicate (N.to_nat (Byte.to_N b)) b) = true) as ->; [|done].
    apply forallb_replicate. by rewrite length_replicate.
Qed.

End Fcrypt.

(* ===================================================================== *)
(** * Package pbconvert *)
(* ===================================================================== *)

Module Pbconvert.

(** The conversions [int64(x)] of a [uint64] and [uint64(x)] of an
    [int64]: the same 64 bits read in two's complement or as a natural
    number. *)
Definition int64 (x : Z) : Z := (x + 2 ^ 63) mod 2 ^ 64 - 2 ^ 63.
Definition uint64 (x : Z) : Z := x mod 2 ^ 64.

(** [aostypes.InstanceIdent]; [Instance] is a [uint64]. *)
Record InstanceIdent : Type := mkInstanceIdent {
  ServiceID : string;
  SubjectID : string;
  Instance : Z
}.

(** [pb.InstanceIdent]; [PBInstance] is an [int64]. *)
Record PBInstanceIdent : Type := mkPBInstanceIdent {
  ServiceId : string;
  SubjectId : string;
  PBInstance : Z
}.

(** [cloudprotocol.InstanceFilter]: three pointers, [None] for nil. *)
Record InstanceFilter : Type := mkInstanceFilter {
  filterServiceID : option string;
  filterSubjectID : option string;
  filterInstance : option Z
}.

Definition InstanceIdentToPB (ident : InstanceIdent) : PBInstanceIdent :=
  mkPBInstanceIdent (ServiceID ident) (SubjectID ident) (int64 (Instance ident)).

Definition NewInstanceIdentFromPB (ident : PBInstanceIdent) : InstanceIdent :=
  mkInstanceIdent (ServiceId ident) (SubjectId ident) (uint64 (PBInstance ident)).

(** [InstanceFilterToPB]: [*filter.ServiceID] is read without a test,
    so a nil [ServiceID] is a run-time panic, here [None]. *)
Definition InstanceFilterToPB (filter : InstanceFilter) : option PBInstanceIdent :=
  match filterServiceID filter with
  | None => None
  | Some serviceID =>
      Some (mkPBInstanceIdent serviceID
              (match filterSubjectID filter with Some s => s | None => "" end)
              (match filterInstance filter with Some i => int64 i | None => -1 end))
  end.

(** X29. [NewInstanceIdentFromPB] undoes [InstanceIdentToPB] for every
    instance number of 64 bits, and [InstanceIdentToPB] undoes
    [NewInstanceIdentFromPB] for every signed 64-bit instance. The
    filter with all three fields set converts to what the identifier
    converts to. A filter on the instance [2 ^ 64 - 1] converts to the
    same message as a filter on no instance, and a filter without
    service id cannot be converted (nil pointer dereference). *)
Theorem InstanceIdent_round_trip :
  (∀ ident, 0 ≤ Instance ident < 2 ^ 64 →
     NewInstanceIdentFromPB (InstanceIdentToPB ident) = ident) ∧
  (∀ ident, - 2 ^ 63 ≤ PBInstance ident < 2 ^ 63 →
     InstanceIdentToPB (NewInstanceIdentFromPB ident) = ident) ∧
  (∀ ident, 0 ≤ Instance ident < 2 ^ 64 →
     InstanceFilterToPB (mkInstanceFilter (Some (ServiceID ident)) (Some (SubjectID ident))
                           (Some (Instance ident)))
     = Some (InstanceIdentToPB ident)) ∧
  (∀ serviceID subjectID,
     InstanceFilterToPB (mkInstanceFilter (Some serviceID) subjectID (Some (2 ^ 64 - 1)))
     = InstanceFilterToPB (mkInstanceFilter (Some serviceID) subjectID None)) ∧
  (∀ subjectID instance,
     InstanceFilterToPB (mkInstanceFilter None subjectID instance) = None).
Proof.
  split; [|split; [|split; [|split]]].
  - intros [s u i] Hi. unfold NewInstanceIdentFromPB, InstanceIdentToPB. simpl in *.
    f_equal. unfold uint64, int64.
    destruct (decide (i < 2 ^ 63)) as [Hlt|Hge].
    + rewrite (Z.mod_small (i + 2 ^ 63)) by lia. rewrite Z.mod_small; lia.
    + replace (i + 2 ^ 63) with ((i - 2 ^ 63) + 1 * 2 ^ 64) by lia.
      rewrite Z_mod_plus_full, (Z.mod_small (i - 2 ^ 63)) by lia.
      replace (i - 2 ^ 63 - 2 ^ 63) with (i + (-1) * 2 ^ 64) by lia.
      rewrite Z_mod_plus_full, Z.mod_small; lia.
  - intros [s u i] Hi. unfold NewInstanceIdentFromPB, InstanceIdentToPB. simpl in *.
    f_equal. unfold uint64, int64.
    destruct (decide (0 ≤ i)) as [Hpos|Hneg].
    + rewrite (Z.mod_small i) by lia. rewrite Z.mod_small; lia.
    + replace i with ((i + 2 ^ 64) + (-1) * 2 ^ 64) at 1 by lia.
      rewrite Z_mod_plus_full, (Z.mod_small (i + 2 ^ 64)) by lia.
      replace (i + 2 ^ 64 + 2 ^ 63) with ((i + 2 ^ 63) + 1 * 2 ^ 64) by lia.
      rewrite Z_mod_plus_full, Z.mod_small; lia.
  - intros [s u i] Hi. reflexivity.
  - intros serviceID subjectID. reflexivity.
  - reflexivity.
Qed.

End Pbconvert.
